(** * Employee-document RAG: ingestion and retrieval pipeline

    A shallow embedding of

    - [app/lib/geminiEmbeddings.ts]  (the embedding client),
    - [app/lib/ingestPdfs.ts]        (the ingestion run and its tracker),
    - [app/api/query/route.ts]       (the query handler),
    - [app/api/status/route.ts]      (the status route),
    - [app/components/RAGChat.tsx]   (the submit handler of the chat),

    followed by the properties of the pipeline that the specification
    states about them, and by further properties of the same code.

    Conventions.  A JavaScript string is the list of its UTF-16 code
    units; a JavaScript [number] that the code only stores and compares
    is an IEEE double ([PrimFloat.float]); counters, lengths and indices
    are [nat].  Everything outside these files (file system, PDF
    parser, text splitter, HTTP [fetch], vector store, answer generator,
    clock) is a field of an environment record and may fail.

    Loading the modules ([require("pdf-parse")]) and constructing the
    clients ([new Pinecone], [new GoogleGenerativeAI]) are taken to
    succeed, and so is [fs.mkdirSync]; [fs.readdirSync] and the [.pdf]
    filter on its result are taken as done: the run starts from the
    list of candidate names.  A tracker file that parses is taken to
    hold an object of entries.  A write of the tracker file that throws
    is taken to leave the file as it was, where [fs.writeFileSync] may
    in fact have emptied it or written a part of it. *)

From Stdlib Require Import NArith List String Ascii Decimal DecimalNat Lia Bool.
From Stdlib Require Import Floats.PrimFloat.
From stdpp Require Import gmap list.

Set Default Proof Using "Type".

(* ===================================================================== *)
(** ** JavaScript strings *)
(* ===================================================================== *)

(** A string is its sequence of UTF-16 code units. *)
Abbreviation jsstring := (list N).

(** An ASCII literal, read as a JavaScript string. *)
Definition js (s : string) : jsstring :=
  List.map N_of_ascii (list_ascii_of_string s).

(** [WhiteSpace] and [LineTerminator] code units, the ones
    [String.prototype.trim] removes. *)
Definition isWhiteSpace (c : N) : bool :=
  ((9 <=? c) && (c <=? 13) || (c =? 32) || (c =? 160) || (c =? 5760)
   || (8192 <=? c) && (c <=? 8202) || (c =? 8232) || (c =? 8233)
   || (c =? 8239) || (c =? 8287) || (c =? 12288) || (c =? 65279))%N.

Fixpoint trimStart (s : jsstring) : jsstring :=
  match s with
  | c :: s' => if isWhiteSpace c then trimStart s' else s
  | [] => []
  end.

Definition trim (s : jsstring) : jsstring :=
  rev (trimStart (rev (trimStart s))).

(** [Number.prototype.toString] on a non-negative integer below 10^21:
    its decimal digits, most significant first. *)
Fixpoint digits (d : Decimal.uint) : jsstring :=
  match d with
  | Nil => []
  | D0 d => 48%N :: digits d
  | D1 d => 49%N :: digits d
  | D2 d => 50%N :: digits d
  | D3 d => 51%N :: digits d
  | D4 d => 52%N :: digits d
  | D5 d => 53%N :: digits d
  | D6 d => 54%N :: digits d
  | D7 d => 55%N :: digits d
  | D8 d => 56%N :: digits d
  | D9 d => 57%N :: digits d
  end.

Definition numToString (n : nat) : jsstring := digits (Nat.to_uint n).

(** [Array.prototype.join] on strings. *)
Fixpoint join (sep : jsstring) (parts : list jsstring) : jsstring :=
  match parts with
  | [] => []
  | [p] => p
  | p :: rest => p ++ sep ++ join sep rest
  end.

(* ===================================================================== *)
(** ** Vector identifiers ([ingestPdfs.ts], line 171) *)
(* ===================================================================== *)

(** The character class [a-zA-Z0-9-_] of the identifier pattern. *)
Definition idSafe (c : N) : bool :=
  ((97 <=? c) && (c <=? 122) || (65 <=? c) && (c <=? 90)
   || (48 <=? c) && (c <=? 57) || (c =? 45) || (c =? 95))%N.

(** [name.replace(/[^a-zA-Z0-9-_]/g, "_")]: without the [u] flag the
    pattern is matched against single code units. *)
Definition sanitize (name : jsstring) : jsstring :=
  List.map (fun c => if idSafe c then c else 95%N) name.

(** [`${name.replace(...)}-chunk-${i + j}`] *)
Definition makeId (name : jsstring) (index : nat) : jsstring :=
  sanitize name ++ js "-chunk-" ++ numToString index.

(* ===================================================================== *)
(** ** Data *)
(* ===================================================================== *)

(** A value stored in a vector's metadata object.  The ingestion path
    writes strings and non-negative integers only. *)
Inductive MetaVal :=
| MStr (s : jsstring)
| MNum (n : nat).

Global Instance MetaVal_eq_dec : EqDecision MetaVal.
Proof. solve_decision. Defined.

(** A metadata object: property name to value. *)
Abbreviation Metadata := (gmap jsstring MetaVal).

(** What [index.upsert] receives for one chunk.  [rec_values] is
    [vectors[j]], which is [undefined] when [j] is out of range. *)
Record VectorRecord := {
  rec_id : jsstring;
  rec_values : option (list float);
  rec_metadata : Metadata;
}.

(** [interface IngestedFile] *)
Record IngestedFile := {
  filename : jsstring;
  size : N;
  lastModified : float;
  ingestedAt : jsstring;
  chunkCount : nat;
  pageCount : nat;
}.

(** [interface TrackerData] *)
Abbreviation TrackerData := (gmap jsstring IngestedFile).

(** The two fields of [fs.Stats] the code reads. *)
Record Stats := { st_size : N; st_mtimeMs : float }.

(** The state of [pdfs/.ingested.json]. *)
Inductive TrackerFile :=
| Missing
| Unreadable
| Stored (data : TrackerData).

(** [interface EmbedContentResponse] *)
Record ApiError := {
  err_code : nat; err_message : jsstring; err_status : jsstring;
}.

Record EmbedContentResponse := {
  embedding : option (list float);      (* [embedding?.values] *)
  error : option ApiError;
}.

(** The answer of a collaborator: a value, or a thrown error. *)
Inductive Ext (A : Type) :=
| Returns (a : A)
| Raises (message : jsstring).

Arguments Returns {A} a.

Arguments Raises {A} message.

(** What [fetch] resolves to: [res.ok], [res.status], [res.json()]. *)
Record Response := {
  res_ok : bool;
  res_status : nat;
  res_json : Ext EmbedContentResponse;
}.

(** The request [embedQuery] sends. *)
Record EmbedRequest := {
  req_model : jsstring;
  req_key : jsstring;
  req_text : jsstring;
  req_outputDimensionality : nat;
}.

(** A match returned by [index.query]. *)
Record Match := {
  m_id : jsstring;
  m_score : option float;
  m_metadata : option Metadata;
}.

(** [interface ChunkMetadata], as the query handler fills it. *)
Record SourceDesc := {
  source : option MetaVal;
  chunkIndex : option MetaVal;
  uploadedAt : option MetaVal;
}.

Global Instance SourceDesc_eq_dec : EqDecision SourceDesc.
Proof. solve_decision. Defined.

(** The two holes of the prompt template; the text around them is fixed. *)
Record Prompt := { p_context : jsstring; p_question : jsstring }.

(* ===================================================================== *)
(** ** Errors, console, effects *)
(* ===================================================================== *)

(** Where a collaborator's error was raised. *)
Inductive Origin :=
| FromStat | FromReadFile | FromPdfParse | FromSplitter
| FromFetch | FromResponseJson | FromUpsert | FromWriteFile
| FromRequestJson | FromQuery | FromGenerate.

Inductive JsError :=
| EmbedFailed (status : nat) (message : jsstring)
    (* Gemini embedContent failed (status): message *)
| EmbedEmpty (excerpt : jsstring)
    (* Gemini embedContent returned an empty vector for: "excerpt" *)
| TypeError
    (* destructuring [null] *)
| External (origin : Origin) (message : jsstring).

(** The console lines of [ingestAllPdfs]. *)
Inductive LogLine :=
| LogNoCredentials
| LogCreatedDir
| LogNoPdfs
| LogAllIngested (names : list jsstring)
| LogIngesting (count : nat)
| LogProcessing (name : jsstring)
| LogNoText (name : jsstring)
| LogZeroChunks (name : jsstring)
| LogIngested (name : jsstring) (upserted pages : nat)
| LogFailed (name : jsstring) (err : JsError)
| LogComplete
| LogQueryError (err : JsError).

(** Observable calls. *)
Inductive Event :=
| EvFetch (req : EmbedRequest)                        (* embedding provider *)
| EvUpsert (records : list VectorRecord) (ok : bool)  (* vector store write *)
| EvQuery (vector : list float) (topK : nat)          (* vector store read *)
| EvGenerate (prompt : Prompt)                        (* answer generator *)
| EvWriteTracker (data : TrackerData) (ok : bool)     (* tracker file write *)
| EvMkdir
| EvLog (line : LogLine).

(** The machine state.  [clock] counts the calls made to collaborators
    whose answer may change from call to call.  [current] is a ghost
    field: the document whose loop iteration is running; every event is
    stamped with it. *)
Record World := {
  clock : nat;
  tracker : TrackerData;
  disk : TrackerFile;
  current : option jsstring;
  trace : list (option jsstring * Event);
}.

(** The collaborators.  The file system and the two text libraries are
    read as functions of their argument for the length of one run; the
    network services, the tracker write and the clock answer by call
    number, so that any sequence of answers can be described.

    The candidate names all end in [.pdf] (the scan keeps no other), so
    none of them is a property that an empty JavaScript object inherits,
    and the tracker object is a finite map from names to entries. *)
Record Env := {
  GOOGLE_API_KEY : jsstring;          (* empty when unset *)
  PINECONE_API_KEY : jsstring;
  PINECONE_INDEX : jsstring;
  pdfsDirExists : bool;
  pdfFiles : list jsstring;           (* the [.pdf] entries of [pdfs/] *)
  statSync : jsstring -> Ext Stats;
  readFileSync : jsstring -> Ext (list N);
  getText : list N -> Ext (jsstring * nat);
  splitText : jsstring -> Ext (list jsstring);
  fetch : nat -> EmbedRequest -> Ext Response;
  upsert : nat -> list VectorRecord -> Ext unit;
  query : nat -> list float -> nat -> Ext (option (list Match));
  generateContent : nat -> Prompt -> Ext jsstring;
  writeFileSync : nat -> TrackerData -> Ext unit;
  toISOString : nat -> jsstring;
}.

(** The result of running a piece of code: a value, an exception, or the
    model's loop bound reached. *)
Inductive Res (A : Type) :=
| Ok (a : A)
| Throw (e : JsError)
| OutOfFuel.

Arguments Ok {A} a.

Arguments Throw {A} e.

Arguments OutOfFuel {A}.

Definition M (A : Type) : Type := World -> Res A * World.

Global Instance M_ret : MRet M := fun A a w => (Ok a, w).

Global Instance M_bind : MBind M := fun A B f m w =>
  match m w with
  | (Ok a, w') => f a w'
  | (Throw e, w') => (Throw e, w')
  | (OutOfFuel, w') => (OutOfFuel, w')
  end.

Definition throw {A} (e : JsError) : M A := fun w => (Throw e, w).

(** A result computed without touching the state. *)
Definition done_with {A} (r : Res A) : M A := fun w => (r, w).

(** [try { m } catch (err) { h err }] *)
Definition try_catch {A} (m : M A) (h : JsError -> M A) : M A := fun w =>
  match m w with
  | (Throw e, w') => h e w'
  | r => r
  end.

Definition emit (e : Event) : M unit := fun w =>
  (Ok tt, {| clock := clock w; tracker := tracker w; disk := disk w;
             current := current w;
             trace := trace w ++ [(current w, e)] |}).

Definition log (l : LogLine) : M unit := emit (EvLog l).

(** Reads the call counter and advances it. *)
Definition tick : M nat := fun w =>
  (Ok (clock w), {| clock := S (clock w); tracker := tracker w;
                    disk := disk w; current := current w;
                    trace := trace w |}).

Definition setCurrent (name : jsstring) : M unit := fun w =>
  (Ok tt, {| clock := clock w; tracker := tracker w; disk := disk w;
             current := Some name; trace := trace w |}).

Definition getTracker : M TrackerData := fun w => (Ok (tracker w), w).

Definition setTracker (t : TrackerData) : M unit := fun w =>
  (Ok tt, {| clock := clock w; tracker := t; disk := disk w;
             current := current w; trace := trace w |}).

Definition getDisk : M TrackerFile := fun w => (Ok (disk w), w).

Definition setDisk (d : TrackerFile) : M unit := fun w =>
  (Ok tt, {| clock := clock w; tracker := tracker w; disk := d;
             current := current w; trace := trace w |}).

(** A collaborator's answer, as a result of the calling code. *)
Definition await {A} (o : Origin) (x : Ext A) : M A :=
  match x with
  | Returns a => mret a
  | Raises msg => throw (External o msg)
  end.

(* ===================================================================== *)
(** ** [geminiEmbeddings.ts] *)
(* ===================================================================== *)

Module GeminiEmbeddings.

(** The constructor's [options]. *)
Record Options := {
  opt_apiKey : jsstring;
  opt_modelName : option jsstring;
  opt_outputDimensionality : option nat;
}.

(** The private fields. *)
Record t := {
  apiKey : jsstring;
  modelName : jsstring;
  outputDimensionality : nat;
}.

Definition new (options : Options) : t :=
  {| apiKey := opt_apiKey options;
     modelName := default (js "gemini-embedding-001") (opt_modelName options);
     outputDimensionality := default 1024 (opt_outputDimensionality options) |}.

Definition request (self : t) (text : jsstring) : EmbedRequest :=
  {| req_model := modelName self;
     req_key := apiKey self;
     req_text := text;
     req_outputDimensionality := outputDimensionality self |}.

(** Lines 56 to 69: what [embedQuery] makes of a parsed response. *)
Definition checkResponse (text : jsstring) (res : Response)
    (data : EmbedContentResponse) : Res (list float) :=
  if negb (res_ok res) || bool_decide (is_Some (error data)) then
    Throw (EmbedFailed (res_status res)
             (default (js "unknown error") (err_message <$> error data)))
  else
    match embedding data with
    | None => Throw (EmbedEmpty (take 60 text))
    | Some values =>
        if length values =? 0 then Throw (EmbedEmpty (take 60 text))
        else Ok values
    end.

Definition embedQuery (E : Env) (self : t) (text : jsstring)
    : M (list float) :=
  emit (EvFetch (request self text)) ;;
  c ← tick ;
  res ← await FromFetch (fetch E c (request self text)) ;
  data ← await FromResponseJson (res_json res) ;
  done_with (checkResponse text res data).

(** The loop of [embedDocuments], with [results] as accumulator. *)
Fixpoint embedEach (E : Env) (self : t) (documents : list jsstring)
    (results : list (list float)) : M (list (list float)) :=
  match documents with
  | [] => mret results
  | doc :: rest =>
      v ← embedQuery E self doc ;
      embedEach E self rest (results ++ [v])
  end.

Definition embedDocuments (E : Env) (self : t) (documents : list jsstring)
    : M (list (list float)) :=
  embedEach E self documents [].

End GeminiEmbeddings.

(* ===================================================================== *)
(** ** [ingestPdfs.ts] *)
(* ===================================================================== *)

Module Ingest.

(** Chunks to embed and upsert per batch. *)
Definition BATCH_SIZE : nat := 20.

(** [loadTracker]: a missing or corrupted file gives the empty object. *)
Definition loadTracker : M TrackerData :=
  d ← getDisk ;
  match d with
  | Stored data => mret data
  | Missing | Unreadable => mret ∅
  end.

(** [saveTracker].  A write that throws is taken to leave the file as
    it was; [fs.writeFileSync] opens the file with flag [w], so that a
    write refused after the file was opened can leave it empty or
    partial, which this definition does not describe. *)
Definition saveTracker (E : Env) (data : TrackerData) : M unit :=
  c ← tick ;
  match writeFileSync E c data with
  | Returns _ => emit (EvWriteTracker data true) ;; setDisk (Stored data)
  | Raises msg =>
      emit (EvWriteTracker data false) ;; throw (External FromWriteFile msg)
  end.

(** The callback of the [toIngest] filter (lines 98 to 101). *)
Definition needsIngest (t : TrackerData) (name : jsstring) (stats : Stats)
    : bool :=
  match t !! name with
  | None => true
  | Some record =>
      negb (size record =? st_size stats)%N
      || negb (PrimFloat.eqb (lastModified record) (st_mtimeMs stats))
  end.

(** [pdfFiles.filter(...)]; [statSync] is called outside any [try]. *)
Fixpoint selectToIngest (E : Env) (t : TrackerData) (files : list jsstring)
    : M (list jsstring) :=
  match files with
  | [] => mret []
  | name :: rest =>
      stats ← await FromStat (statSync E name) ;
      selected ← selectToIngest E t rest ;
      mret (if needsIngest t name stats then name :: selected else selected)
  end.

(** The metadata object of a record (lines 173 to 179). *)
Definition chunkMetadata (text name : jsstring) (index total : nat)
    (at_ : jsstring) : Metadata :=
  <[js "text" := MStr text]>
    (<[js "source" := MStr name]>
       (<[js "chunkIndex" := MNum index]>
          (<[js "totalChunks" := MNum total]>
             (<[js "ingestedAt" := MStr at_]> ∅)))).

(** [batch.map((text, j) => ({ id, values, metadata }))] *)
Definition buildRecords (name : jsstring) (i total : nat) (at_ : jsstring)
    (batch : list jsstring) (vectors : list (list float))
    : list VectorRecord :=
  imap (fun j text =>
          {| rec_id := makeId name (i + j);
             rec_values := vectors !! j;
             rec_metadata := chunkMetadata text name (i + j) total at_ |})
       batch.

Definition upsertRecords (E : Env) (records : list VectorRecord) : M unit :=
  c ← tick ;
  match upsert E c records with
  | Returns _ => emit (EvUpsert records true)
  | Raises msg =>
      emit (EvUpsert records false) ;; throw (External FromUpsert msg)
  end.

(** The loop [for (let i = 0; i < chunks.length; i += BATCH_SIZE)],
    entered at [i] with [upserted] records counted so far. *)
Fixpoint batchLoop (E : Env) (embedder : GeminiEmbeddings.t)
    (name : jsstring) (chunks : list jsstring) (at_ : jsstring)
    (fuel i upserted : nat) : M nat :=
  match fuel with
  | 0 => done_with OutOfFuel
  | S fuel' =>
      if i <? length chunks then
        let batch := take BATCH_SIZE (drop i chunks) in
        vectors ← GeminiEmbeddings.embedDocuments E embedder batch ;
        let records :=
          buildRecords name i (length chunks) at_ batch vectors in
        upsertRecords E records ;;
        batchLoop E embedder name chunks at_ fuel' (i + BATCH_SIZE)
          (upserted + length records)
      else mret upserted
  end.

Definition newEmbedder (E : Env) : GeminiEmbeddings.t :=
  GeminiEmbeddings.new
    {| GeminiEmbeddings.opt_apiKey := GOOGLE_API_KEY E;
       GeminiEmbeddings.opt_modelName := Some (js "gemini-embedding-001");
       GeminiEmbeddings.opt_outputDimensionality := Some 1024 |}.

(** [s.trim().length === 0] *)
Definition blank (s : jsstring) : bool := length (trim s) =? 0.

(** The chunks kept after splitting (lines 152 to 154). *)
Definition keepChunks (parts : list jsstring) : list jsstring :=
  List.filter (fun c => negb (blank c)) parts.

(** The body of the [try] block (lines 139 to 199). *)
Definition ingestBody (E : Env) (name : jsstring) : M unit :=
  buffer ← await FromReadFile (readFileSync E name) ;
  stats ← await FromStat (statSync E name) ;
  '(rawText, pages) ← await FromPdfParse (getText E buffer) ;
  if (length rawText =? 0) || blank rawText then log (LogNoText name)
  else
    parts ← await FromSplitter (splitText E rawText) ;
    let chunks := keepChunks parts in
    if length chunks =? 0 then log (LogZeroChunks name)
    else
      c ← tick ;
      let at_ := toISOString E c in
      upserted ← batchLoop E (newEmbedder E) name chunks at_
                   (S (length chunks)) 0 0 ;
      t ← getTracker ;
      setTracker (<[name := {| filename := name;
                              size := st_size stats;
                              lastModified := st_mtimeMs stats;
                              ingestedAt := at_;
                              chunkCount := upserted;
                              pageCount := pages |}]> t) ;;
      t' ← getTracker ;
      saveTracker E t' ;;
      log (LogIngested name upserted pages).

(** One iteration of the loop over [toIngest] (lines 135 to 206). *)
Definition ingestOne (E : Env) (name : jsstring) : M unit :=
  setCurrent name ;;
  log (LogProcessing name) ;;
  try_catch (ingestBody E name) (fun err => log (LogFailed name err)).

Fixpoint ingestEach (E : Env) (toIngest : list jsstring) : M unit :=
  match toIngest with
  | [] => mret tt
  | name :: rest => ingestOne E name ;; ingestEach E rest
  end.

(** Lines 135 to 208: the loop and the closing console line. *)
Definition processAll (E : Env) (toIngest : list jsstring) : M unit :=
  ingestEach E toIngest ;; log LogComplete.

Definition ingestAllPdfs (E : Env) : M unit :=
  if (length (GOOGLE_API_KEY E) =? 0) || (length (PINECONE_API_KEY E) =? 0)
     || (length (PINECONE_INDEX E) =? 0)
  then log LogNoCredentials
  else if negb (pdfsDirExists E) then emit EvMkdir ;; log LogCreatedDir
  else if length (pdfFiles E) =? 0 then log LogNoPdfs
  else
    t ← loadTracker ;
    setTracker t ;;
    toIngest ← selectToIngest E t (pdfFiles E) ;
    if length toIngest =? 0 then log (LogAllIngested (pdfFiles E))
    else log (LogIngesting (length toIngest)) ;; processAll E toIngest.

End Ingest.

(* ===================================================================== *)
(** ** [api/query/route.ts] *)
(* ===================================================================== *)

Module Query.

(** Number of similar chunks to retrieve. *)
Definition TOP_K : nat := 4.

(** The value of [body.question]. *)
Inductive JsValue :=
| VUndefined
| VNull
| VBool (b : bool)
| VNum (x : float)
| VStr (s : jsstring)
| VObject.

(** The parsed request body: [null], or something with a (possibly
    undefined) [question] property. *)
Inductive Body :=
| BodyNull
| BodyWith (question : JsValue).

(** What the handler answers. *)
Inductive ReplyBody :=
| ErrorBody (error : jsstring)
| ErrorThrown (error : JsError)     (* [{ error: error.message }] *)
| AnswerBody (success : bool) (answer : jsstring)
    (sources : list SourceDesc) (retrievedChunks : nat).

Record Reply := { status : nat; body : ReplyBody }.

(** [NextResponse.json(body)] and [NextResponse.json(body, { status })] *)
Definition json (b : ReplyBody) : Reply := {| status := 200; body := b |}.

Definition jsonStatus (b : ReplyBody) (s : nat) : Reply :=
  {| status := s; body := b |}.

Definition noContentAnswer : jsstring :=
  js "No relevant content was found in the uploaded documents. Please upload a PDF first.".

(** [!question || typeof question !== "string" || !question.trim()] *)
Definition invalidQuestion (q : JsValue) : bool :=
  match q with
  | VStr s => (length s =? 0) || (length (trim s) =? 0)
  | _ => true
  end.

(** [metadata?.key] *)
Definition field (md : option Metadata) (key : jsstring) : option MetaVal :=
  md ≫= fun o => o !! key.

Definition truthy (v : MetaVal) : bool :=
  match v with
  | MStr s => negb (length s =? 0)
  | MNum n => negb (n =? 0)
  end.

Definition toString (v : MetaVal) : jsstring :=
  match v with
  | MStr s => s
  | MNum n => numToString n
  end.

Definition divider : jsstring := [10; 10; 45; 45; 45; 10; 10]%N.

(** Step 3: the context string. *)
Definition buildContext (matches : list Match) : jsstring :=
  join divider
    (List.map toString
       (List.filter truthy
          (List.map (fun m => default (MStr []) (field (m_metadata m) (js "text")))
                    matches))).

(** Step 5, first half: one descriptor per match. *)
Definition describe (m : Match) : SourceDesc :=
  {| source := field (m_metadata m) (js "source");
     chunkIndex := field (m_metadata m) (js "chunkIndex");
     uploadedAt := field (m_metadata m) (js "uploadedAt") |}.

(** A JavaScript [Map]: entries in insertion order, one per key. *)
Fixpoint mapSet {K V} `{EqDecision K} (k : K) (v : V) (m : list (K * V))
    : list (K * V) :=
  match m with
  | [] => [(k, v)]
  | (k', v') :: rest =>
      if decide (k = k') then (k, v) :: rest
      else (k', v') :: mapSet k v rest
  end.

(** [new Map(entries)] *)
Definition newMap {K V} `{EqDecision K} (entries : list (K * V))
    : list (K * V) :=
  fold_left (fun m kv => mapSet kv.1 kv.2 m) entries [].

(** [Array.from(map.values())] *)
Definition values {K V} (m : list (K * V)) : list V := List.map snd m.

(** Step 5, second half: deduplicate by source filename. *)
Definition uniqueSources (sources : list SourceDesc) : list SourceDesc :=
  values (newMap (List.map (fun s => (source s, s)) sources)).

(** The embedder of lines 58 to 62, built like the one of the
    ingestion. *)
Definition embedder (E : Env) : GeminiEmbeddings.t :=
  GeminiEmbeddings.new
    {| GeminiEmbeddings.opt_apiKey := GOOGLE_API_KEY E;
       GeminiEmbeddings.opt_modelName := Some (js "gemini-embedding-001");
       GeminiEmbeddings.opt_outputDimensionality := Some 1024 |}.

(** The body of the handler's [try] block. *)
Definition handle (E : Env) (request : Ext Body) : M Reply :=
  b ← await FromRequestJson request ;
  match b with
  | BodyNull => throw TypeError
  | BodyWith question =>
      match question with
      | VStr q =>
          if invalidQuestion question then
            mret (jsonStatus
                    (ErrorBody (js "A valid question string is required")) 400)
          else if 2000 <? length (trim q) then
            mret (jsonStatus
                    (ErrorBody (js "Question is too long (max 2000 characters)"))
                    400)
          else if length (GOOGLE_API_KEY E) =? 0 then
            mret (jsonStatus
                    (ErrorBody (js "GOOGLE_API_KEY is not configured")) 500)
          else if (length (PINECONE_API_KEY E) =? 0)
                  || (length (PINECONE_INDEX E) =? 0) then
            mret (jsonStatus
                    (ErrorBody (js "Pinecone credentials are not configured"))
                    500)
          else
            let trimmedQuestion := trim q in
            questionVector ←
              GeminiEmbeddings.embedQuery E (embedder E) trimmedQuestion ;
            emit (EvQuery questionVector TOP_K) ;;
            c ← tick ;
            response ← await FromQuery (query E c questionVector TOP_K) ;
            let matches := default [] response in
            if length matches =? 0 then
              mret (json (AnswerBody true noContentAnswer [] 0))
            else
              let context := buildContext matches in
              let prompt := {| p_context := context;
                               p_question := trimmedQuestion |} in
              emit (EvGenerate prompt) ;;
              c' ← tick ;
              answer ← await FromGenerate (generateContent E c' prompt) ;
              let sources := List.map describe matches in
              mret (json (AnswerBody true answer (uniqueSources sources)
                            (length matches)))
      | _ =>
          mret (jsonStatus
                  (ErrorBody (js "A valid question string is required")) 400)
      end
  end.

(** [export async function POST(req)] *)
Definition POST (E : Env) (request : Ext Body) : M Reply :=
  try_catch (handle E request)
    (fun err =>
       log (LogQueryError err) ;;
       mret (jsonStatus (ErrorThrown err) 500)).

End Query.

(* ===================================================================== *)
(** ** [api/status/route.ts] *)
(* ===================================================================== *)

Module Status.
Import Ingest.

(** [getIngestedFiles] ([ingestPdfs.ts], lines 50 to 52):
    [Object.values(loadTracker())].  The tracker is a finite map and keeps
    no order of its keys; the values are listed in the map's own order. *)
Definition getIngestedFiles : M (list IngestedFile) :=
  t ← loadTracker ;
  mret (map_to_list t).*2.

(** An element of [files]: [{ ...record, status: "ingested" }] or
    [{ filename, status: "pending" }]. *)
Inductive FileStatus :=
| Ingested (record : IngestedFile)
| Pending (name : jsstring).

(** The JSON body of the reply. *)
Inductive StatusBody :=
| Report (totalOnDisk totalIngested : nat) (files : list FileStatus)
| Failure (error : jsstring).

Record StatusReply := { st_status : nat; st_body : StatusBody }.

(** The callback of [onDisk.map]: [ingested.find(f => f.filename ===
    filename)] gives the first record with that filename. *)
Definition fileStatus (ingested : list IngestedFile) (name : jsstring)
    : FileStatus :=
  match find (fun f => bool_decide (filename f = name)) ingested with
  | Some record => Ingested record
  | None => Pending name
  end.

(** [new Set(names).size] *)
Definition setSize (names : list jsstring) : nat :=
  length (remove_dups names).

(** [export async function GET()].  [entries] is what
    [fs.readdirSync(PDFS_DIR).filter(...)] evaluates to: the [.pdf]
    names, or the error that [readdirSync] throws.  With a tracker file
    that holds a [TrackerData] whenever it parses (the cast of
    [loadTracker]), it is the only call of the [try] block that can
    throw, and the [catch] answers with its message. *)
Definition GET (E : Env) (entries : Ext (list jsstring)) : M StatusReply :=
  match (if pdfsDirExists E then entries else Returns []) with
  | Raises msg => mret {| st_status := 500; st_body := Failure msg |}
  | Returns onDisk =>
      ingested ← getIngestedFiles ;
      let ingestedNames := filename <$> ingested in
      let files := fileStatus ingested <$> onDisk in
      mret {| st_status := 200;
              st_body := Report (length onDisk) (setSize ingestedNames)
                           files |}
  end.

End Status.

(* ===================================================================== *)
(** ** [components/RAGChat.tsx] *)
(* ===================================================================== *)

Module RAGChat.
Import Query.

(** [type QueryStatus] *)
Inductive QueryStatus := Idle | Loading | Success | Failed.

Global Instance QueryStatus_eq_dec : EqDecision QueryStatus.
Proof. solve_decision. Defined.

(** The three pieces of state that [handleQuery] reads or sets. *)
Record State := {
  question : jsstring;
  queryStatus : QueryStatus;
  queryResult : option ReplyBody;
}.

(** What becomes of the request to [/api/query]: the handler runs and
    its reply arrives, the handler runs and the reply is lost, or the
    request never reaches the handler. *)
Inductive Network := Delivered | ReplyLost | Unreachable.

(** [{ error: "Network error — please try again." }] *)
Definition networkError : ReplyBody :=
  ErrorBody (js "Network error " ++ [8212%N] ++ js " please try again.").

(** [res.ok]: a status from 200 to 299. *)
Definition ok (reply : Reply) : bool :=
  (200 <=? status reply) && (status reply <=? 299).

(** Whether [data.error] is truthy.  [message] is [error.message] of a
    thrown error, as the server serialised it. *)
Definition hasError (message : JsError -> jsstring) (data : ReplyBody)
    : bool :=
  match data with
  | ErrorBody error => negb (length error =? 0)
  | ErrorThrown error => negb (length (message error) =? 0)
  | AnswerBody _ _ _ _ => false
  end.

Definition failed (s : State) : State :=
  {| question := question s; queryStatus := Failed;
     queryResult := Some networkError |}.

(** [handleQuery], lines 65 to 86: the state it leaves when its promise
    settles.  The request body is [{ question: question.trim() }], which
    the route handler parses back. *)
Definition handleQuery (E : Env) (network : Network)
    (message : JsError -> jsstring) (s : State) : M State :=
  if (length (trim (question s)) =? 0)
     || bool_decide (queryStatus s = Loading)
  then mret s
  else
    match network with
    | Unreachable => mret (failed s)
    | ReplyLost =>
        try_catch
          (POST E (Returns (BodyWith (VStr (trim (question s))))) ;;
           mret (failed s))
          (fun _ => mret (failed s))
    | Delivered =>
        try_catch
          (reply ← POST E (Returns (BodyWith (VStr (trim (question s))))) ;
           mret {| question := question s;
                   queryStatus :=
                     if ok reply && negb (hasError message (body reply))
                     then Success else Failed;
                   queryResult := Some (body reply) |})
          (fun _ => mret (failed s))
    end.

End RAGChat.

(* ===================================================================== *)
(** ** Runs and their traces *)
(* ===================================================================== *)

(** [wp m Q w]: running [m] from [w] ends in a result and a state that
    satisfy [Q]. *)
Definition wp {A} (m : M A) (Q : Res A -> World -> Prop) (w : World) : Prop :=
  Q (m w).1 (m w).2.

(** What a bind passes on when its first part does not return. *)
Definition after {A B} (k : A -> World -> Prop) (Q : Res B -> World -> Prop)
    (r : Res A) (w : World) : Prop :=
  match r with
  | Ok a => k a w
  | Throw e => Q (Throw e) w
  | OutOfFuel => Q OutOfFuel w
  end.

(** The state after appending one event. *)
Definition record_event (e : Event) (w : World) : World :=
  {| clock := clock w; tracker := tracker w; disk := disk w;
     current := current w; trace := trace w ++ [(current w, e)] |}.

(** [w'] is [w] after the events [evs], all stamped with the current
    document, which has not changed. *)
Record advance (w : World) (evs : list (option jsstring * Event)) (w' : World)
    : Prop := {
  adv_current : current w' = current w;
  adv_trace : trace w' = trace w ++ evs;
  adv_stamps : Forall (fun se => se.1 = current w) evs;
}.

(** An advance that leaves the tracker and its file as they were. *)
Record quiet (w : World) (evs : list (option jsstring * Event)) (w' : World)
    : Prop := {
  quiet_advance : advance w evs w';
  quiet_tracker : tracker w' = tracker w;
  quiet_disk : disk w' = disk w;
}.

(** The calls of a trace. *)
Definition fetches (evs : list (option jsstring * Event)) : list EmbedRequest :=
  omap (fun se => match se.2 with EvFetch r => Some r | _ => None end) evs.

Definition upserts (evs : list (option jsstring * Event))
    : list (list VectorRecord * bool) :=
  omap (fun se => match se.2 with
                  | EvUpsert rs ok => Some (rs, ok)
                  | _ => None
                  end) evs.

Definition trackerWrites (evs : list (option jsstring * Event))
    : list (TrackerData * bool) :=
  omap (fun se => match se.2 with
                  | EvWriteTracker d ok => Some (d, ok)
                  | _ => None
                  end) evs.

(** The events of [w'] that [w] does not have yet. *)
Definition newEvents (w w' : World) : list (option jsstring * Event) :=
  drop (length (trace w)) (trace w').

(* ===================================================================== *)
(** ** Vocabulary: the embedding client *)
(* ===================================================================== *)

Module GeminiSpec.
Import GeminiEmbeddings.

(** What the provider's answer to a request makes [embedQuery] return. *)
Definition outcome (E : Env) (c : nat) (self : t) (text : jsstring)
    : Res (list float) :=
  match fetch E c (request self text) with
  | Raises msg => Throw (External FromFetch msg)
  | Returns res =>
      match res_json res with
      | Raises msg => Throw (External FromResponseJson msg)
      | Returns data => checkResponse text res data
      end
  end.

(** The vector that the provider's answer to a request carries,
    [data.embedding?.values]; there is none when the request brought no
    response or the body of the response is not JSON. *)
Definition providerVector (answer : Ext Response) : option (list float) :=
  match answer with
  | Returns res =>
      match res_json res with
      | Returns data => embedding data
      | Raises _ => None
      end
  | Raises _ => None
  end.

(** C7, as written: on success the vector has the configured length. *)
Definition length_is_dimension (E : Env) (options : Options)
    (text : jsstring) (w : World) : Prop :=
  forall v, (embedQuery E (new options) text w).1 = Ok v ->
            length v = outputDimensionality (new options).

End GeminiSpec.

(* ===================================================================== *)
(** ** A sample deployment *)
(* ===================================================================== *)

Module Sample.

(** A successful provider response carrying [values]. *)
Definition response (values : list float) : Response :=
  {| res_ok := true; res_status := 200;
     res_json := Returns {| embedding := Some values; error := None |} |}.

(** One document, [a.pdf], whose text splits into two chunks and a blank;
    the provider answers every request with [vector]. *)
Definition env (vector : list float) : Env :=
  {| GOOGLE_API_KEY := js "google-key";
     PINECONE_API_KEY := js "pinecone-key";
     PINECONE_INDEX := js "emp-rag";
     pdfsDirExists := true;
     pdfFiles := [js "a.pdf"];
     statSync := fun _ => Returns {| st_size := 10; st_mtimeMs := 1.5 |};
     readFileSync := fun _ => Returns [37; 80; 68; 70]%N;
     getText := fun _ => Returns (js "Leave policy: 20 days. Notice: 30 days.", 1);
     splitText := fun _ =>
       Returns [js "Leave policy: 20 days."; js "  "; js "Notice: 30 days."];
     fetch := fun _ _ => Returns (response vector);
     upsert := fun _ _ => Returns tt;
     query := fun _ _ _ => Returns None;
     generateContent := fun _ _ => Returns (js "20 days.");
     writeFileSync := fun _ _ => Returns tt;
     toISOString := fun _ => js "2026-02-17T00:00:00.000Z" |}.

(** A fresh process: nothing on disk, nothing logged. *)
Definition start : World :=
  {| clock := 0; tracker := ∅; disk := Missing; current := None;
     trace := [] |}.

(** The tracker entry of an unchanged [a.pdf]. *)
Definition entry : IngestedFile :=
  {| filename := js "a.pdf"; size := 10; lastModified := 1.5;
     ingestedAt := js "2026-02-17T00:00:00.000Z";
     chunkCount := 2; pageCount := 1 |}.

(** The same deployment with a provider that answers [200 OK] and a
    zero-length vector. *)
Definition degenerate : Env := env [].

(** The state after one pass over [a.pdf] with a working provider. *)
Definition ingested : World :=
  (Ingest.ingestOne (env [0.5%float]) (js "a.pdf") start).2.

(** The state after one pass over [a.pdf] with the degenerate provider. *)
Definition rejected : World :=
  (Ingest.ingestOne degenerate (js "a.pdf") start).2.

(** A process that finds [a.pdf] recorded in the tracker file. *)
Definition restart : World :=
  {| clock := 0; tracker := ∅;
     disk := Stored (<[js "a.pdf" := entry]> ∅);
     current := None; trace := [] |}.

End Sample.

(* ===================================================================== *)
(** ** Vocabulary: the ingestion run *)
(* ===================================================================== *)

Module IngestSpec.
Import GeminiEmbeddings GeminiSpec Ingest.

(** The record of chunk [index] of a document: its identifier, its
    metadata, and a non-empty vector that the provider returned for the
    chunk's text. *)
Definition recordFor (E : Env) (name : jsstring) (chunks : list jsstring)
    (at_ : jsstring) (index : nat) (r : VectorRecord) : Prop :=
  exists text v c,
    chunks !! index = Some text
    /\ rec_id r = makeId name index
    /\ rec_metadata r = chunkMetadata text name index (length chunks) at_
    /\ rec_values r = Some v /\ v <> []
    /\ outcome E c (newEmbedder E) text = Ok v.

(** The batch that starts at chunk [start]: the records of the next
    [BATCH_SIZE] chunks, or of those that are left. *)
Definition batchOf (E : Env) (name : jsstring) (chunks : list jsstring)
    (at_ : jsstring) (start : nat) (b : list VectorRecord) : Prop :=
  Forall2 (recordFor E name chunks at_)
          (seq start (min BATCH_SIZE (length chunks - start))) b.

(** The store writes of the batch loop entered at chunk [i]: one accepted
    batch per [BATCH_SIZE] chunks, until the chunks are used up. *)
Inductive batchesFrom (E : Env) (name : jsstring) (chunks : list jsstring)
    (at_ : jsstring) : nat -> list (list VectorRecord * bool) -> Prop :=
| batches_done i :
    length chunks <= i -> batchesFrom E name chunks at_ i []
| batches_step i b rest :
    i < length chunks ->
    batchOf E name chunks at_ i b ->
    batchesFrom E name chunks at_ (i + BATCH_SIZE) rest ->
    batchesFrom E name chunks at_ i ((b, true) :: rest).

(** The non-blank chunks of a document, when it can be read, parsed and
    split. *)
Definition documentChunks (E : Env) (name : jsstring)
    : option (list jsstring) :=
  match readFileSync E name with
  | Returns buffer =>
      match getText E buffer with
      | Returns (rawText, _) =>
          match splitText E rawText with
          | Returns parts => Some (keepChunks parts)
          | Raises _ => None
          end
      | Raises _ => None
      end
  | Raises _ => None
  end.

(** The console lines of a trace. *)
Definition logs (evs : list (option jsstring * Event)) : list LogLine :=
  omap (fun se => match se.2 with EvLog l => Some l | _ => None end) evs.

(** Calls to the embedding provider or writes to the vector store. *)
Definition isProviderCall (e : Event) : bool :=
  match e with
  | EvFetch _ | EvUpsert _ _ => true
  | _ => false
  end.

(** How one pass over a document ends.  It skips the document; or a step
    before the record step throws; in both cases the tracker and its file
    are as they were.  Or every chunk was embedded and every batch
    accepted by the store: the tracker object has the document's new
    entry, and the file has it too when the write succeeded. *)
Inductive bodyOutcome (E : Env) (name : jsstring) (w : World)
    : Res unit -> World -> Prop :=
| body_skipped w' l :
    l = LogNoText name \/ l = LogZeroChunks name ->
    quiet w [(current w, EvLog l)] w' ->
    bodyOutcome E name w (Ok tt) w'
| body_failed e w' evs :
    quiet w evs w' ->
    Forall (fun se => isProviderCall se.2 = true) evs ->
    (forall msg, e <> External FromWriteFile msg) ->
    bodyOutcome E name w (Throw e) w'
| body_recorded r w' evs chunks stats pages at_ ok :
    documentChunks E name = Some chunks ->
    chunks <> [] ->
    statSync E name = Returns stats ->
    batchesFrom E name chunks at_ 0 (upserts evs) ->
    List.map req_text (fetches evs) = chunks ->
    Forall (fun se => isProviderCall se.2 = true) evs ->
    tracker w' =
      <[name := {| filename := name;
                   size := st_size stats;
                   lastModified := st_mtimeMs stats;
                   ingestedAt := at_;
                   chunkCount := length chunks;
                   pageCount := pages |}]> (tracker w) ->
    advance w
      (evs ++ (current w, EvWriteTracker (tracker w') ok)
           :: (if ok
               then [(current w, EvLog (LogIngested name (length chunks) pages))]
               else []))
      w' ->
    (if ok then r = Ok tt /\ disk w' = Stored (tracker w')
     else (exists msg, r = Throw (External FromWriteFile msg))
          /\ disk w' = disk w) ->
    bodyOutcome E name w r w'.

(** The events of one loop iteration after its [Processing] line, and
    the state it leaves. *)
Inductive passOutcome (E : Env) (name : jsstring) (w w' : World)
    : list (option jsstring * Event) -> Prop :=
| pass_skipped l :
    l = LogNoText name \/ l = LogZeroChunks name ->
    tracker w' = tracker w ->
    disk w' = disk w ->
    passOutcome E name w w' [(Some name, EvLog l)]
| pass_failed e calls :
    Forall (fun se => isProviderCall se.2 = true) calls ->
    (forall msg, e <> External FromWriteFile msg) ->
    tracker w' = tracker w ->
    disk w' = disk w ->
    passOutcome E name w w'
      (calls ++ [(Some name, EvLog (LogFailed name e))])
| pass_recorded calls chunks stats pages at_ (saved : option jsstring) :
    Forall (fun se => isProviderCall se.2 = true) calls ->
    documentChunks E name = Some chunks ->
    chunks <> [] ->
    statSync E name = Returns stats ->
    batchesFrom E name chunks at_ 0 (upserts calls) ->
    List.map req_text (fetches calls) = chunks ->
    tracker w' =
      <[name := {| filename := name;
                   size := st_size stats;
                   lastModified := st_mtimeMs stats;
                   ingestedAt := at_;
                   chunkCount := length chunks;
                   pageCount := pages |}]> (tracker w) ->
    disk w' = match saved with
              | None => Stored (tracker w')
              | Some _ => disk w
              end ->
    passOutcome E name w w'
      (calls
       ++ [(Some name, EvWriteTracker (tracker w')
                         (bool_decide (saved = None)));
           (Some name,
            EvLog match saved with
                  | None => LogIngested name (length chunks) pages
                  | Some msg => LogFailed name (External FromWriteFile msg)
                  end)]).

(** The state in which the [try] block of an iteration starts. *)
Definition enter (name : jsstring) (w : World) : World :=
  {| clock := clock w; tracker := tracker w; disk := disk w;
     current := Some name;
     trace := trace w ++ [(Some name, EvLog (LogProcessing name))] |}.

(** The line that closes the account of a document. *)
Definition closes (name : jsstring) (l : LogLine) : Prop :=
  l = LogNoText name \/ l = LogZeroChunks name
  \/ (exists k p, l = LogIngested name k p)
  \/ (exists e, l = LogFailed name e).

(** The tracker a run starts from. *)
Definition loadedTracker (w : World) : TrackerData :=
  match disk w with
  | Stored data => data
  | Missing | Unreadable => ∅
  end.

(** The filter's verdict on a file, [false] when [statSync] throws. *)
Definition changed (E : Env) (t : TrackerData) (name : jsstring) : bool :=
  match statSync E name with
  | Returns stats => needsIngest t name stats
  | Raises _ => false
  end.


(** The run gets as far as scanning the folder. *)
Definition configured (E : Env) : Prop :=
  GOOGLE_API_KEY E <> [] /\ PINECONE_API_KEY E <> []
  /\ PINECONE_INDEX E <> [] /\ pdfsDirExists E = true.

(** The console lines of a loop over [names] whose iterations close
    with [outcomes]. *)
Definition account (names : list jsstring) (outcomes : list LogLine)
    : list LogLine :=
  concat (zip_with (fun name l => [LogProcessing name; l]) names outcomes).

(** The events of embedding the documents [docs] one after the other. *)
Definition fetchEvents (self : t) (stamp : option jsstring)
    (docs : list jsstring) : list (option jsstring * Event) :=
  List.map (fun d => (stamp, EvFetch (request self d))) docs.

(** A provider that never returns a non-empty vector. *)
Definition onlyEmptyVectors (E : Env) : Prop :=
  forall c req res data,
    fetch E c req = Returns res ->
    res_json res = Returns data ->
    embedding data = Some [] \/ embedding data = None.

(** C2, as written: when a run is over, a document whose pass ended with
    a failure has in the tracker file the entry that it had before the
    run, or none if it had none. *)
Definition failedDocumentKeepsEntry (E : Env) (w : World) : Prop :=
  let w' := (ingestAllPdfs E w).2 in
  forall name e,
    In (LogFailed name e) (logs (newEvents w w')) ->
    loadedTracker w' !! name = loadedTracker w !! name.

End IngestSpec.

(* ===================================================================== *)
(** ** Vocabulary: the query handler *)
(* ===================================================================== *)

Module QuerySpec.
Import Query.

(** The value a list of entries gives a key: the one set last. *)
Fixpoint lastSet {K V} `{EqDecision K} (k : K) (entries : list (K * V))
    : option V :=
  match entries with
  | [] => None
  | (k', v') :: rest =>
      match lastSet k rest with
      | Some v => Some v
      | None => if decide (k' = k) then Some v' else None
      end
  end.

(** The first and the last descriptor of a list with a given source. *)
Definition firstWith (k : option MetaVal) (l : list SourceDesc)
    : option SourceDesc :=
  find (fun s => bool_decide (source s = k)) l.

Fixpoint lastWith (k : option MetaVal) (l : list SourceDesc)
    : option SourceDesc :=
  match l with
  | [] => None
  | s :: rest =>
      match lastWith k rest with
      | Some s' => Some s'
      | None => if decide (source s = k) then Some s else None
      end
  end.

(** Three matches written by the ingestion of [a.pdf] and [b.pdf], in
    descending similarity order: chunk 0 of [a.pdf], chunk 5 of [a.pdf],
    chunk 1 of [b.pdf]. *)
Definition storedMatch (id text name : string) (index total : nat)
    (score : float) : Match :=
  {| m_id := js id;
     m_score := Some score;
     m_metadata :=
       Some (Ingest.chunkMetadata (js text) (js name) index total
               (js "2026-02-17T00:00:00.000Z")) |}.

Definition threeMatches : list Match :=
  [ storedMatch "a_pdf-chunk-0" "Leave policy: 20 days." "a.pdf" 0 6 0.75;
    storedMatch "a_pdf-chunk-5" "Notice: 30 days." "a.pdf" 5 6 0.5;
    storedMatch "b_pdf-chunk-1" "Travel policy." "b.pdf" 1 2 0.25 ].

(** A deployment whose vector store answers with [threeMatches]. *)
Definition answering : Env :=
  {| GOOGLE_API_KEY := js "google-key";
     PINECONE_API_KEY := js "pinecone-key";
     PINECONE_INDEX := js "emp-rag";
     pdfsDirExists := true;
     pdfFiles := [];
     statSync := fun _ => Raises (js "ENOENT");
     readFileSync := fun _ => Raises (js "ENOENT");
     getText := fun _ => Raises (js "no parser");
     splitText := fun _ => Returns [];
     fetch := fun _ _ => Returns (Sample.response [0.5%float]);
     upsert := fun _ _ => Returns tt;
     query := fun _ _ _ => Returns (Some threeMatches);
     generateContent := fun _ _ => Returns (js "20 days.");
     writeFileSync := fun _ _ => Returns tt;
     toISOString := fun _ => js "2026-02-17T00:00:00.000Z" |}.

(** C4, as written: every entry of the source list is the first match of
    its file. *)
Definition keepsFirstMatch (matches : list Match) : Prop :=
  forall s,
    In s (uniqueSources (List.map describe matches)) ->
    firstWith (source s) (List.map describe matches) = Some s.

(** Every match the vector store returns carries a metadata object that
    the ingestion wrote. *)
Definition storeHoldsIngestedRecords (E : Env) : Prop :=
  forall c v k ms m,
    query E c v k = Returns (Some ms) ->
    In m ms ->
    exists text name index total at_,
      m_metadata m = Some (Ingest.chunkMetadata text name index total at_).

End QuerySpec.

(* ===================================================================== *)
(** ** Vocabulary: calls, ledger and sources *)
(* ===================================================================== *)

Module PipelineSpec.
Import GeminiEmbeddings GeminiSpec Ingest IngestSpec Query.

(** How a run of [embedDocuments] over [docs] ends, the clock standing
    at [c] when it starts: with one vector per document, or at the first
    document whose request fails. *)
Definition embedded (E : Env) (self : t) (c : nat) (docs : list jsstring)
    (vs : list (list float)) : Prop :=
  length vs = length docs
  /\ forall j doc,
       docs !! j = Some doc ->
       exists v, vs !! j = Some v /\ v <> []
                 /\ outcome E (c + j) self doc = Ok v.

Definition firstFailure (E : Env) (self : t) (c : nat) (docs : list jsstring)
    (j : nat) (e : JsError) : Prop :=
  (exists doc, docs !! j = Some doc /\ outcome E (c + j) self doc = Throw e)
  /\ forall i d,
       i < j -> docs !! i = Some d ->
       exists v, outcome E (c + i) self d = Ok v.

(** A piece of code whose events all satisfy [G], whatever state it is
    run from. *)
Definition emitsOnly (G : Event -> Prop) {A} (m : M A) : Prop :=
  forall w, exists evs,
    trace (m w).2 = trace w ++ evs /\ Forall (fun se => G se.2) evs.

(** The embedding space of the deployment: the model, the dimension and
    the key of lines 125 to 129 of [ingestPdfs.ts]. *)
Definition pipelineRequest (E : Env) (q : EmbedRequest) : Prop :=
  req_model q = js "gemini-embedding-001"
  /\ req_outputDimensionality q = 1024
  /\ req_key q = GOOGLE_API_KEY E.

(** Events that change the vector store or the file system. *)
Definition isWrite (e : Event) : bool :=
  match e with
  | EvUpsert _ _ | EvWriteTracker _ _ | EvMkdir => true
  | _ => false
  end.

(** Events of the retrieval path: a query of the store, a call of the
    answer generator. *)
Definition isRetrieval (e : Event) : bool :=
  match e with
  | EvQuery _ _ | EvGenerate _ => true
  | _ => false
  end.

(** The tracker that a file holds. *)
Definition fileData (d : TrackerFile) : TrackerData :=
  match d with
  | Stored data => data
  | Missing | Unreadable => ∅
  end.

(** Every entry of a tracker is stored under its own filename. *)
Definition wellKeyed (t : TrackerData) : Prop :=
  forall name record, t !! name = Some record -> filename record = name.

(** An entry written for a document as it is on disk now: it carries the
    document's name, size and modification time, and counts the
    document's non-blank chunks. *)
Definition entryFor (E : Env) (name : jsstring) (record : IngestedFile)
    : Prop :=
  filename record = name
  /\ (exists stats,
        statSync E name = Returns stats
        /\ size record = st_size stats
        /\ lastModified record = st_mtimeMs stats)
  /\ exists chunks,
       documentChunks E name = Some chunks
       /\ chunkCount record = length chunks.

(** A tracker that has such an entry for a document. *)
Definition upToDate (E : Env) (name : jsstring) (t : TrackerData) : Prop :=
  exists record, t !! name = Some record /\ entryFor E name record.

(** The closing line of a pass that did not reach the record step: the
    document was skipped, or a step before the tracker write failed. *)
Definition notRecorded (name : jsstring) (l : LogLine) : Prop :=
  l = LogNoText name \/ l = LogZeroChunks name
  \/ exists e, l = LogFailed name e
               /\ forall msg, e <> External FromWriteFile msg.

(** How one pass over a document leaves the tracker and its file: as
    they were; or with a new entry in the tracker, which is on file when
    the pass printed its success line and only in memory when the write
    failed. *)
Inductive ledgerStep (E : Env) (name : jsstring) (w w' : World)
    : list LogLine -> Prop :=
| ledger_same l :
    notRecorded name l ->
    tracker w' = tracker w ->
    disk w' = disk w ->
    ledgerStep E name w w' [LogProcessing name; l]
| ledger_saved record :
    entryFor E name record ->
    tracker w' = <[name := record]> (tracker w) ->
    disk w' = Stored (tracker w') ->
    ledgerStep E name w w'
      [LogProcessing name;
       LogIngested name (chunkCount record) (pageCount record)]
| ledger_unsaved record msg :
    entryFor E name record ->
    tracker w' = <[name := record]> (tracker w) ->
    disk w' = disk w ->
    ledgerStep E name w w'
      [LogProcessing name; LogFailed name (External FromWriteFile msg)].

(** The documents named on the [Processing] lines of a console, in
    order. *)
Definition processed (ls : list LogLine) : list jsstring :=
  omap (fun l => match l with LogProcessing name => Some name | _ => None end)
       ls.

(** The store writes of a batch loop that may have been cut short,
    entered at chunk [i]: accepted batches, one after the other from
    chunk [i] on, and possibly a last batch that the store rejected. *)
Inductive batchesUpTo (E : Env) (name : jsstring) (chunks : list jsstring)
    (at_ : jsstring) : nat -> list (list VectorRecord * bool) -> Prop :=
| upto_stop i :
    batchesUpTo E name chunks at_ i []
| upto_rejected i b :
    i < length chunks ->
    batchOf E name chunks at_ i b ->
    batchesUpTo E name chunks at_ i [(b, false)]
| upto_step i b rest :
    i < length chunks ->
    batchOf E name chunks at_ i b ->
    batchesUpTo E name chunks at_ (i + BATCH_SIZE) rest ->
    batchesUpTo E name chunks at_ i ((b, true) :: rest).

(** The distinct elements of a list, each at the place of its first
    occurrence. *)
Fixpoint firstOccurrences {K} `{EqDecision K} (keys : list K) : list K :=
  match keys with
  | [] => []
  | k :: rest =>
      k :: List.filter (fun k' => negb (bool_decide (k' = k)))
             (firstOccurrences rest)
  end.

(** A string that does not start with white space. *)
Definition startsClean (s : jsstring) : Prop :=
  match s with
  | c :: _ => isWhiteSpace c = false
  | [] => True
  end.

(** A question that passes the handler's two checks (lines 27 to 39). *)
Definition accepted (q : jsstring) : Prop :=
  invalidQuestion (VStr q) = false /\ length (trim q) <= 2000.

(** The three credentials are set (lines 42 to 53). *)
Definition credentials (E : Env) : Prop :=
  GOOGLE_API_KEY E <> [] /\ PINECONE_API_KEY E <> []
  /\ PINECONE_INDEX E <> [].

(** The prompt of step 4 for a question and a list of matches. *)
Definition promptFor (q : jsstring) (ms : list Match) : Prompt :=
  {| p_context := buildContext ms; p_question := trim q |}.

(** The ways a call of the handler ends, the clock standing at [c]: the
    request, the reply, the events in between (all of them stamped with
    [stamp]) and the number of calls made to the three services. *)
Inductive postOutcome (E : Env) (c : nat) (stamp : option jsstring)
    : Ext Body -> Reply -> list (option jsstring * Event) -> nat -> Prop :=
| post_unparsed msg :
    postOutcome E c stamp (Raises msg)
      (jsonStatus (ErrorThrown (External FromRequestJson msg)) 500)
      [(stamp, EvLog (LogQueryError (External FromRequestJson msg)))] 0
| post_null :
    postOutcome E c stamp (Returns BodyNull)
      (jsonStatus (ErrorThrown TypeError) 500)
      [(stamp, EvLog (LogQueryError TypeError))] 0
| post_invalid question :
    invalidQuestion question = true ->
    postOutcome E c stamp (Returns (BodyWith question))
      (jsonStatus (ErrorBody (js "A valid question string is required")) 400)
      [] 0
| post_too_long q :
    invalidQuestion (VStr q) = false ->
    2000 < length (trim q) ->
    postOutcome E c stamp (Returns (BodyWith (VStr q)))
      (jsonStatus (ErrorBody (js "Question is too long (max 2000 characters)"))
         400)
      [] 0
| post_no_google_key q :
    accepted q ->
    GOOGLE_API_KEY E = [] ->
    postOutcome E c stamp (Returns (BodyWith (VStr q)))
      (jsonStatus (ErrorBody (js "GOOGLE_API_KEY is not configured")) 500)
      [] 0
| post_no_pinecone q :
    accepted q ->
    GOOGLE_API_KEY E <> [] ->
    PINECONE_API_KEY E = [] \/ PINECONE_INDEX E = [] ->
    postOutcome E c stamp (Returns (BodyWith (VStr q)))
      (jsonStatus (ErrorBody (js "Pinecone credentials are not configured"))
         500)
      [] 0
| post_embed_failed q e :
    accepted q -> credentials E ->
    outcome E c (embedder E) (trim q) = Throw e ->
    postOutcome E c stamp (Returns (BodyWith (VStr q)))
      (jsonStatus (ErrorThrown e) 500)
      [(stamp, EvFetch (request (embedder E) (trim q)));
       (stamp, EvLog (LogQueryError e))] 1
| post_query_failed q v msg :
    accepted q -> credentials E ->
    outcome E c (embedder E) (trim q) = Ok v ->
    query E (S c) v TOP_K = Raises msg ->
    postOutcome E c stamp (Returns (BodyWith (VStr q)))
      (jsonStatus (ErrorThrown (External FromQuery msg)) 500)
      [(stamp, EvFetch (request (embedder E) (trim q)));
       (stamp, EvQuery v TOP_K);
       (stamp, EvLog (LogQueryError (External FromQuery msg)))] 2
| post_no_match q v response :
    accepted q -> credentials E ->
    outcome E c (embedder E) (trim q) = Ok v ->
    query E (S c) v TOP_K = Returns response ->
    default [] response = [] ->
    postOutcome E c stamp (Returns (BodyWith (VStr q)))
      (json (AnswerBody true noContentAnswer [] 0))
      [(stamp, EvFetch (request (embedder E) (trim q)));
       (stamp, EvQuery v TOP_K)] 2
| post_generate_failed q v ms msg :
    accepted q -> credentials E ->
    outcome E c (embedder E) (trim q) = Ok v ->
    query E (S c) v TOP_K = Returns (Some ms) ->
    ms <> [] ->
    generateContent E (S (S c)) (promptFor q ms) = Raises msg ->
    postOutcome E c stamp (Returns (BodyWith (VStr q)))
      (jsonStatus (ErrorThrown (External FromGenerate msg)) 500)
      [(stamp, EvFetch (request (embedder E) (trim q)));
       (stamp, EvQuery v TOP_K);
       (stamp, EvGenerate (promptFor q ms));
       (stamp, EvLog (LogQueryError (External FromGenerate msg)))] 3
| post_answered q v ms answer :
    accepted q -> credentials E ->
    outcome E c (embedder E) (trim q) = Ok v ->
    query E (S c) v TOP_K = Returns (Some ms) ->
    ms <> [] ->
    generateContent E (S (S c)) (promptFor q ms) = Returns answer ->
    postOutcome E c stamp (Returns (BodyWith (VStr q)))
      (json (AnswerBody true answer (uniqueSources (List.map describe ms))
               (length ms)))
      [(stamp, EvFetch (request (embedder E) (trim q)));
       (stamp, EvQuery v TOP_K);
       (stamp, EvGenerate (promptFor q ms))] 3.

(** The sample deployment with a provider whose request number [bad]
    (counted from 0) is reset by the network. *)
Definition flaky (bad : nat) : Env :=
  {| GOOGLE_API_KEY := GOOGLE_API_KEY (Sample.env [0.5%float]);
     PINECONE_API_KEY := PINECONE_API_KEY (Sample.env [0.5%float]);
     PINECONE_INDEX := PINECONE_INDEX (Sample.env [0.5%float]);
     pdfsDirExists := true;
     pdfFiles := [js "a.pdf"];
     statSync := statSync (Sample.env [0.5%float]);
     readFileSync := readFileSync (Sample.env [0.5%float]);
     getText := getText (Sample.env [0.5%float]);
     splitText := splitText (Sample.env [0.5%float]);
     fetch := fun c req =>
       if c =? bad then Raises (js "ECONNRESET")
       else Returns (Sample.response [0.5%float]);
     upsert := upsert (Sample.env [0.5%float]);
     query := query (Sample.env [0.5%float]);
     generateContent := generateContent (Sample.env [0.5%float]);
     writeFileSync := writeFileSync (Sample.env [0.5%float]);
     toISOString := toISOString (Sample.env [0.5%float]) |}.

(** Two documents, and a disk that refuses the write made at call
    number [bad]. *)
Definition diskFull (bad : nat) : Env :=
  {| GOOGLE_API_KEY := GOOGLE_API_KEY (Sample.env [0.5%float]);
     PINECONE_API_KEY := PINECONE_API_KEY (Sample.env [0.5%float]);
     PINECONE_INDEX := PINECONE_INDEX (Sample.env [0.5%float]);
     pdfsDirExists := true;
     pdfFiles := [js "a.pdf"; js "b.pdf"];
     statSync := statSync (Sample.env [0.5%float]);
     readFileSync := readFileSync (Sample.env [0.5%float]);
     getText := getText (Sample.env [0.5%float]);
     splitText := splitText (Sample.env [0.5%float]);
     fetch := fetch (Sample.env [0.5%float]);
     upsert := upsert (Sample.env [0.5%float]);
     query := query (Sample.env [0.5%float]);
     generateContent := generateContent (Sample.env [0.5%float]);
     writeFileSync := fun c _ =>
       if c =? bad then Raises (js "ENOSPC") else Returns tt;
     toISOString := toISOString (Sample.env [0.5%float]) |}.

(** Two documents, the second of which [statSync] cannot read. *)
Definition locked : Env :=
  {| GOOGLE_API_KEY := GOOGLE_API_KEY (Sample.env [0.5%float]);
     PINECONE_API_KEY := PINECONE_API_KEY (Sample.env [0.5%float]);
     PINECONE_INDEX := PINECONE_INDEX (Sample.env [0.5%float]);
     pdfsDirExists := true;
     pdfFiles := [js "a.pdf"; js "b.pdf"];
     statSync := fun name =>
       if bool_decide (name = js "b.pdf") then Raises (js "EACCES")
       else statSync (Sample.env [0.5%float]) name;
     readFileSync := readFileSync (Sample.env [0.5%float]);
     getText := getText (Sample.env [0.5%float]);
     splitText := splitText (Sample.env [0.5%float]);
     fetch := fetch (Sample.env [0.5%float]);
     upsert := upsert (Sample.env [0.5%float]);
     query := query (Sample.env [0.5%float]);
     generateContent := generateContent (Sample.env [0.5%float]);
     writeFileSync := writeFileSync (Sample.env [0.5%float]);
     toISOString := toISOString (Sample.env [0.5%float]) |}.


End PipelineSpec.

(* ===================================================================== *)
(** ** Strings and identifiers *)
(* ===================================================================== *)

Lemma digits_are_digits d c :
  In c (digits d) -> (48 <= c <= 57)%N.
Proof.
  induction d; simpl; intros H; try contradiction;
    (destruct H as [<- | H]; [lia | auto]).
Qed.

Lemma digits_inj d1 d2 : digits d1 = digits d2 -> d1 = d2.
Proof.
  revert d2; induction d1; intros [] H; simpl in H;
    try discriminate; try reflexivity;
    injection H as H; f_equal; auto.
Qed.

Lemma numToString_inj n m : numToString n = numToString m -> n = m.
Proof.
  unfold numToString; intros H.
  apply Unsigned.to_uint_inj, digits_inj, H.
Qed.

Lemma numToString_no_dash n : ~ In 45%N (numToString n).
Proof.
  intros H; apply digits_are_digits in H; lia.
Qed.

(** Splitting at the last occurrence of a separator is unique. *)
Lemma app_cons_last_unique {A} (x : A) l1 l2 r1 r2 :
  ~ In x r1 -> ~ In x r2 ->
  l1 ++ x :: r1 = l2 ++ x :: r2 -> l1 = l2 /\ r1 = r2.
Proof.
  revert l2; induction l1 as [|a l1 IH]; intros [|b l2] H1 H2 E; simpl in E.
  - injection E as E; auto.
  - injection E as -> E. exfalso; apply H1; rewrite E.
    apply in_or_app; right; left; reflexivity.
  - injection E as -> E. exfalso; apply H2; rewrite <- E.
    apply in_or_app; right; left; reflexivity.
  - injection E as -> E. destruct (IH l2 H1 H2 E) as [-> ->]; auto.
Qed.

Lemma makeId_inv name1 i1 name2 i2 :
  makeId name1 i1 = makeId name2 i2 ->
  sanitize name1 = sanitize name2 /\ i1 = i2.
Proof.
  unfold makeId; intros E.
  change (js "-chunk-") with (js "-chunk" ++ [45%N]) in E.
  rewrite <- !app_assoc, !app_assoc in E.
  rewrite <- !(app_assoc _ [45%N]) in E; simpl in E.
  apply app_cons_last_unique in E; auto using numToString_no_dash.
  destruct E as [E1 E2]; split.
  - eapply app_inv_tail; exact E1.
  - apply numToString_inj; exact E2.
Qed.

(* ===================================================================== *)
(** ** Rules for runs *)
(* ===================================================================== *)

Section Wp.
Context {A B : Type}.
Implicit Types (Q : Res A -> World -> Prop) (w : World).

Lemma wp_run (m : M A) Q w r w' : m w = (r, w') -> wp m Q w -> Q r w'.
Proof. unfold wp; intros ->; auto. Qed.

Lemma wp_intro (m : M A) Q w :
  (forall r w', m w = (r, w') -> Q r w') -> wp m Q w.
Proof. unfold wp; intros H; apply H; destruct (m w); reflexivity. Qed.

Lemma wp_mono (m : M A) Q Q' w :
  wp m Q w -> (forall r w', Q r w' -> Q' r w') -> wp m Q' w.
Proof. unfold wp; auto. Qed.

Lemma wp_ret (a : A) Q w : Q (Ok a) w -> wp (mret a) Q w.
Proof. auto. Qed.

Lemma wp_throw e Q w : Q (Throw e) w -> wp (throw e) Q w.
Proof. auto. Qed.

Lemma wp_done_with (r : Res A) Q w : Q r w -> wp (done_with r) Q w.
Proof. auto. Qed.

Lemma wp_bind (m : M A) (f : A -> M B) (Q : Res B -> World -> Prop) w :
  wp m (after (fun a => wp (f a) Q) Q) w -> wp (m ≫= f) Q w.
Proof.
  unfold wp, mbind, M_bind, after.
  destruct (m w) as [[a|e|] w1]; simpl; auto.
Qed.

Lemma wp_await (o : Origin) (x : Ext A) Q w :
  (forall a, x = Returns a -> Q (Ok a) w) ->
  (forall msg, x = Raises msg -> Q (Throw (External o msg)) w) ->
  wp (await o x) Q w.
Proof. destruct x; unfold wp; simpl; auto. Qed.

Lemma wp_try_catch (m : M A) (h : JsError -> M A) Q w :
  wp m (fun r w1 => match r with
                    | Throw e => wp (h e) Q w1
                    | _ => Q r w1
                    end) w ->
  wp (try_catch m h) Q w.
Proof.
  unfold wp, try_catch. destruct (m w) as [[a|e|] w1]; simpl; auto.
Qed.

End Wp.

Lemma wp_emit e (Q : Res unit -> World -> Prop) w :
  Q (Ok tt) (record_event e w) -> wp (emit e) Q w.
Proof. auto. Qed.

Lemma wp_log l (Q : Res unit -> World -> Prop) w :
  Q (Ok tt) (record_event (EvLog l) w) -> wp (log l) Q w.
Proof. auto. Qed.

Lemma advance_refl w : advance w [] w.
Proof. split; auto using app_nil_r. Qed.

Lemma advance_trans w evs1 w1 evs2 w2 :
  advance w evs1 w1 -> advance w1 evs2 w2 -> advance w (evs1 ++ evs2) w2.
Proof.
  intros [Hc1 Ht1 Hs1] [Hc2 Ht2 Hs2]; split.
  - congruence.
  - rewrite app_assoc; congruence.
  - apply Forall_app; split; auto.
    rewrite Hc1 in Hs2; exact Hs2.
Qed.

Lemma quiet_refl w : quiet w [] w.
Proof. split; auto using advance_refl. Qed.

Lemma quiet_trans w evs1 w1 evs2 w2 :
  quiet w evs1 w1 -> quiet w1 evs2 w2 -> quiet w (evs1 ++ evs2) w2.
Proof.
  intros [] []; split; try congruence.
  eapply advance_trans; eauto.
Qed.

Lemma quiet_record_event e w :
  quiet w [(current w, e)] (record_event e w).
Proof. repeat split; simpl; auto. Qed.

Lemma wp_tick (Q : Res nat -> World -> Prop) w :
  (forall w', quiet w [] w' -> Q (Ok (clock w)) w') -> wp tick Q w.
Proof.
  intros H; apply H; repeat split; simpl; auto using app_nil_r.
Qed.

Lemma newEvents_app w w' evs :
  trace w' = trace w ++ evs -> newEvents w w' = evs.
Proof. unfold newEvents; intros ->; apply drop_app_length. Qed.

(* ===================================================================== *)
(** ** The embedding client *)
(* ===================================================================== *)

Module GeminiFacts.
Import GeminiEmbeddings GeminiSpec.

Lemma embedQuery_run E self text w :
  embedQuery E self text w =
  (outcome E (clock w) self text,
   {| clock := S (clock w); tracker := tracker w; disk := disk w;
      current := current w;
      trace := trace w ++ [(current w, EvFetch (request self text))] |}).
Proof.
  unfold embedQuery, outcome, mbind, M_bind; simpl.
  destruct (fetch E (clock w) (request self text)) as [res|msg]; simpl; auto.
  destruct (res_json res) as [data|msg]; simpl; auto.
Qed.

Lemma checkResponse_Ok text res data v :
  checkResponse text res data = Ok v <->
  res_ok res = true /\ error data = None /\ embedding data = Some v
  /\ v <> [].
Proof.
  unfold checkResponse.
  destruct (res_ok res), (error data) as [err|], (embedding data) as [[|x vs]|];
    simpl; split; intros H; try discriminate;
    try (destruct H as (? & ? & ? & ?); try discriminate; try congruence).
  injection H as <-; auto.
Qed.

Lemma checkResponse_not_OutOfFuel text res data :
  checkResponse text res data <> OutOfFuel.
Proof.
  unfold checkResponse.
  destruct (_ || _); [discriminate|].
  destruct (embedding data) as [[|x vs]|]; simpl; discriminate.
Qed.

Lemma outcome_not_OutOfFuel E c self text :
  outcome E c self text <> OutOfFuel.
Proof.
  unfold outcome.
  destruct (fetch _ _ _) as [res|]; [|discriminate].
  destruct (res_json res); [|discriminate].
  apply checkResponse_not_OutOfFuel.
Qed.

Lemma outcome_not_write E c self text msg :
  outcome E c self text <> Throw (External FromWriteFile msg).
Proof.
  unfold outcome.
  destruct (fetch _ _ _) as [res|]; [|discriminate].
  destruct (res_json res) as [data|]; [|discriminate].
  unfold checkResponse. destruct (_ || _); [discriminate|].
  destruct (embedding data) as [[|x vs]|]; simpl; discriminate.
Qed.

Lemma outcome_Ok E c self text v :
  outcome E c self text = Ok v -> v <> [].
Proof.
  unfold outcome.
  destruct (fetch _ _ _) as [res|]; [|discriminate].
  destruct (res_json res); [|discriminate].
  intros H; apply checkResponse_Ok in H; tauto.
Qed.

(** Without a response, or with a body that is not JSON, [embedQuery]
    throws the error of [fetch] or of [res.json()]. *)
Lemma embedQuery_without_response E self text w :
  (forall msg,
     fetch E (clock w) (request self text) = Raises msg ->
     (embedQuery E self text w).1 = Throw (External FromFetch msg))
  /\ (forall res msg,
        fetch E (clock w) (request self text) = Returns res ->
        res_json res = Raises msg ->
        (embedQuery E self text w).1 = Throw (External FromResponseJson msg)).
Proof.
  rewrite embedQuery_run; simpl; unfold outcome. split.
  - intros msg ->. reflexivity.
  - intros res msg -> ->. reflexivity.
Qed.

End GeminiFacts.

Module GeminiTheorems.
Import GeminiEmbeddings GeminiSpec GeminiFacts.

(** C6.  [embedQuery] throws exactly when the provider's answer has
    a status that is not a success, or carries an [error] object, or
    carries no vector or a vector of length zero; in every other case it
    returns the provider's vector, so that an empty vector is never
    returned.  This holds whatever the answer to the request is: when
    the request brings no response at all, or a response whose body is
    not JSON, there is no vector, and [embedQuery] throws the error of
    [fetch] or of [res.json()].  A call always ends, with a vector or
    with an error. *)
Theorem embedQuery_fails_exactly_when E self text w :
  let answer := fetch E (clock w) (request self text) in
  let r := (embedQuery E self text w).1 in
  let rejected :=
    (exists res, answer = Returns res /\ res_ok res = false)
    \/ (exists res data,
          answer = Returns res /\ res_json res = Returns data
          /\ is_Some (error data))
    \/ providerVector answer = None \/ providerVector answer = Some [] in
  ((exists e, r = Throw e) <-> rejected)
  /\ (~ rejected -> exists v, providerVector answer = Some v /\ r = Ok v)
  /\ (forall v, r = Ok v -> v <> [] /\ providerVector answer = Some v)
  /\ (forall msg, answer = Raises msg -> r = Throw (External FromFetch msg))
  /\ (forall res msg,
        answer = Returns res -> res_json res = Raises msg ->
        r = Throw (External FromResponseJson msg))
  /\ r <> OutOfFuel.
Proof.
  intros answer r rejected; subst answer r rejected.
  rewrite embedQuery_run; simpl.
  pose proof (outcome_not_OutOfFuel E (clock w) self text) as Hfuel.
  unfold outcome in *.
  destruct (fetch E (clock w) (request self text)) as [res|msg0] eqn:Hres.
  2:{ simpl. split; [|split; [|split; [|split; [|split]]]].
      - split; [intros _; right; right; left; reflexivity|eauto].
      - intros Hn. exfalso; apply Hn. right; right; left; reflexivity.
      - discriminate.
      - intros msg [= ->]. reflexivity.
      - discriminate.
      - discriminate. }
  destruct (res_json res) as [data|msg0] eqn:Hdata.
  2:{ simpl. rewrite Hdata.
      split; [|split; [|split; [|split; [|split]]]].
      - split; [intros _; right; right; left; reflexivity|eauto].
      - intros Hn. exfalso; apply Hn. right; right; left; reflexivity.
      - discriminate.
      - discriminate.
      - intros res' msg [= <-] Hj. rewrite Hdata in Hj.
        injection Hj as ->. reflexivity.
      - discriminate. }
  simpl. rewrite Hdata.
  assert (Hrej :
    ((exists res0, Returns res = Returns res0 /\ res_ok res0 = false)
     \/ (exists res0 data0,
           Returns res = Returns res0 /\ res_json res0 = Returns data0
           /\ is_Some (error data0))
     \/ embedding data = None \/ embedding data = Some [])
    <-> (res_ok res = false \/ is_Some (error data)
         \/ embedding data = None \/ embedding data = Some [])).
  { split.
    - intros [(res0 & [= <-] & H)|[(res0 & data0 & [= <-] & Hj & H)|H]]; auto.
      rewrite Hdata in Hj. injection Hj as <-. auto.
    - intros [H|[H|H]]; eauto 8. }
  split; [|split; [|split; [|split; [|split]]]].
  - rewrite Hrej. clear Hrej Hfuel. unfold checkResponse.
    destruct (res_ok res), (error data) as [err|],
      (embedding data) as [[|x vs]|]; simpl; split;
      try (intros _; eauto 6; fail);
      try (intros [e He]; discriminate);
      try (intros [H|[[? H]|[H|H]]]; discriminate).
  - rewrite Hrej. clear Hrej Hfuel. intros Hn.
    destruct (res_ok res) eqn:Hok;
      [|exfalso; apply Hn; left; reflexivity].
    destruct (error data) as [err|] eqn:Herr;
      [exfalso; apply Hn; right; left; eauto|].
    destruct (embedding data) as [[|x vs]|] eqn:Hemb;
      [exfalso; apply Hn; right; right; right; reflexivity|
      |exfalso; apply Hn; right; right; left; reflexivity].
    exists (x :: vs); split; auto.
    apply checkResponse_Ok; repeat split; auto; discriminate.
  - intros v Hv; apply checkResponse_Ok in Hv.
    destruct Hv as (_ & _ & Hv & Hne). auto.
  - discriminate.
  - intros res' msg [= <-] Hj. rewrite Hdata in Hj. discriminate.
  - exact Hfuel.
Qed.

(** C7 fails: the client is configured for 1024 components, the
    provider answers with three, and the client returns the three. *)
Lemma length_is_dimension_fails :
  ~ length_is_dimension
      (Sample.env [0.5; 0.25; 0.125]%float)
      {| opt_apiKey := js "google-key"; opt_modelName := None;
         opt_outputDimensionality := None |}
      (js "leave") Sample.start.
Proof.
  intros H. specialize (H [0.5; 0.25; 0.125]%float eq_refl).
  discriminate H.
Qed.

(** C7, amended.  On success the returned vector is the provider's
    vector, unchanged and non-empty; the request that produced it asked
    for the configured dimension (the constructor's option, 1024 when
    absent).  The length is the configured dimension exactly when the
    provider's vector has that length. *)
Theorem embedQuery_returns_provider_vector E options text w v :
  (embedQuery E (new options) text w).1 = Ok v ->
  let req := request (new options) text in
  req_outputDimensionality req
    = default 1024 (opt_outputDimensionality options)
  /\ exists res data,
       fetch E (clock w) req = Returns res
       /\ res_json res = Returns data
       /\ embedding data = Some v
       /\ 0 < length v.
Proof.
  rewrite embedQuery_run; simpl; unfold outcome.
  intros H; split; [reflexivity|].
  destruct (fetch _ _ _) as [res|]; [|discriminate].
  destruct (res_json res) as [data|] eqn:Hdata; [|discriminate].
  apply checkResponse_Ok in H as (_ & _ & Hv & Hne).
  exists res, data; repeat split; auto.
  destruct v; [congruence | simpl; lia].
Qed.

Lemma embedQuery_returns_provider_vector_witness :
  let options := {| opt_apiKey := js "google-key"; opt_modelName := None;
                    opt_outputDimensionality := None |} in
  let E := Sample.env [0.5; 0.25; 0.125]%float in
  let req := request (new options) (js "leave") in
  req_outputDimensionality req = 1024
  /\ exists res data,
       fetch E 0 req = Returns res
       /\ res_json res = Returns data
       /\ embedding data = Some [0.5; 0.25; 0.125]%float
       /\ 0 < 3.
Proof.
  exact (embedQuery_returns_provider_vector
           (Sample.env [0.5; 0.25; 0.125]%float)
           {| opt_apiKey := js "google-key"; opt_modelName := None;
              opt_outputDimensionality := None |}
           (js "leave") Sample.start [0.5; 0.25; 0.125]%float eq_refl).
Defined.

End GeminiTheorems.

(* ===================================================================== *)
(** ** One pass over a document *)
(* ===================================================================== *)

Module IngestFacts.
Import GeminiEmbeddings GeminiSpec GeminiFacts Ingest IngestSpec.

Lemma fetches_app evs1 evs2 :
  fetches (evs1 ++ evs2) = fetches evs1 ++ fetches evs2.
Proof. apply omap_app. Qed.

Lemma upserts_app evs1 evs2 :
  upserts (evs1 ++ evs2) = upserts evs1 ++ upserts evs2.
Proof. apply omap_app. Qed.

Lemma trackerWrites_app evs1 evs2 :
  trackerWrites (evs1 ++ evs2) = trackerWrites evs1 ++ trackerWrites evs2.
Proof. apply omap_app. Qed.

Lemma logs_app evs1 evs2 : logs (evs1 ++ evs2) = logs evs1 ++ logs evs2.
Proof. apply omap_app. Qed.

Lemma fetchEvents_fetches self stamp docs :
  fetches (fetchEvents self stamp docs) = List.map (request self) docs.
Proof. induction docs; simpl; f_equal; auto. Qed.

Lemma fetchEvents_upserts self stamp docs :
  upserts (fetchEvents self stamp docs) = [].
Proof. induction docs; simpl; auto. Qed.

Lemma fetchEvents_trackerWrites self stamp docs :
  trackerWrites (fetchEvents self stamp docs) = [].
Proof. induction docs; simpl; auto. Qed.

Lemma fetchEvents_logs self stamp docs :
  logs (fetchEvents self stamp docs) = [].
Proof. induction docs; simpl; auto. Qed.

Lemma fetchEvents_stamps self stamp docs :
  Forall (fun se => se.1 = stamp) (fetchEvents self stamp docs).
Proof. induction docs; simpl; constructor; auto. Qed.

Lemma fetchEvents_provider self stamp docs :
  Forall (fun se => isProviderCall se.2 = true) (fetchEvents self stamp docs).
Proof. induction docs; simpl; constructor; auto. Qed.

Lemma embedQuery_quiet E self text w :
  quiet w (fetchEvents self (current w) [text])
        (embedQuery E self text w).2.
Proof.
  rewrite embedQuery_run; repeat split; simpl; auto.
Qed.

(** [embedDocuments] embeds a prefix of the documents; when it returns,
    the prefix is the whole list and every vector is non-empty. *)
Lemma embedEach_spec E self docs results w :
  wp (embedEach E self docs results)
     (fun r w' =>
        exists k,
          quiet w (fetchEvents self (current w) (take k docs)) w'
          /\ r <> OutOfFuel
          /\ (forall msg, r <> Throw (External FromWriteFile msg))
          /\ forall vs, r = Ok vs ->
               k = length docs
               /\ exists new, vs = results ++ new
                  /\ Forall2 (fun doc v =>
                                exists c, outcome E c self doc = Ok v)
                             docs new) w.
Proof.
  revert results w; induction docs as [|doc rest IH]; intros results w.
  - apply wp_ret. exists 0; split; [apply quiet_refl|].
    split; [discriminate|]. split; [discriminate|].
    intros vs [= <-]; split; auto.
    exists []; rewrite app_nil_r; split; auto.
  - simpl embedEach. apply wp_bind.
    unfold wp at 1. pose proof (embedQuery_quiet E self doc w) as Hq.
    pose proof (outcome_not_OutOfFuel E (clock w) self doc) as Hfuel.
    pose proof (outcome_not_write E (clock w) self doc) as Hnw.
    assert (Hok : exists c, outcome E c self doc
                            = outcome E (clock w) self doc) by eauto.
    rewrite embedQuery_run in *; simpl in Hq |- *.
    destruct (outcome E (clock w) self doc) as [v|e|]; simpl.
    + eapply wp_mono; [apply IH|]. simpl.
      intros r w' (k & Hk & Hr & Hnw' & Hvs).
      exists (S k); split; [|split; [|split]; auto].
      * change (take (S k) (doc :: rest)) with (doc :: take k rest).
        change (fetchEvents self (current w) (doc :: take k rest))
          with (fetchEvents self (current w) [doc]
                ++ fetchEvents self (current w) (take k rest)).
        eapply quiet_trans; eauto.
      * intros vs Hv. destruct (Hvs vs Hv) as (-> & new & -> & Hall).
        split; auto. exists (v :: new).
        rewrite <- app_assoc; simpl; split; auto.
    + exists 1; split; [exact Hq|]. split; [discriminate|].
      split; [|discriminate].
      intros msg [= ->]; exact (Hnw msg eq_refl).
    + congruence.
Qed.

Lemma upsertRecords_spec E records w :
  wp (upsertRecords E records)
     (fun r w' =>
        exists ok,
          quiet w [(current w, EvUpsert records ok)] w'
          /\ (if ok then r = Ok tt
              else exists msg, r = Throw (External FromUpsert msg))) w.
Proof.
  unfold upsertRecords. apply wp_bind, wp_tick. intros w1 Hq. simpl.
  destruct (upsert E (clock w) records) as [[]|msg].
  - apply wp_emit. exists true; split; auto.
    replace [(current w, EvUpsert records true)]
      with ([] ++ [(current w, EvUpsert records true)]) by reflexivity.
    eapply quiet_trans; eauto.
    destruct Hq as [[Hc _ _] _ _]. rewrite <- Hc. apply quiet_record_event.
  - apply wp_bind, wp_emit; simpl. apply wp_throw.
    exists false; split; eauto.
    replace [(current w, EvUpsert records false)]
      with ([] ++ [(current w, EvUpsert records false)]) by reflexivity.
    eapply quiet_trans; eauto.
    destruct Hq as [[Hc _ _] _ _]. rewrite <- Hc. apply quiet_record_event.
Qed.

Lemma length_buildRecords name i total at_ batch vectors :
  length (buildRecords name i total at_ batch vectors) = length batch.
Proof. apply length_imap. Qed.

Lemma buildRecords_batchOf E name chunks at_ i vectors :
  i < length chunks ->
  Forall2 (fun doc v => exists c, outcome E c (newEmbedder E) doc = Ok v)
          (take BATCH_SIZE (drop i chunks)) vectors ->
  batchOf E name chunks at_ i
    (buildRecords name i (length chunks) at_
       (take BATCH_SIZE (drop i chunks)) vectors).
Proof.
  intros Hi Hall. unfold batchOf, buildRecords.
  pose proof (Forall2_length _ _ _ Hall) as Hlen.
  apply Forall2_same_length_lookup_2.
  - rewrite length_seq, length_imap, length_take, length_drop; reflexivity.
  - intros j idx r Hidx Hr.
    apply lookup_seq in Hidx as [-> Hj].
    apply list_lookup_imap_Some in Hr as (text & Htext & ->).
    destruct (vectors !! j) as [v|] eqn:Hv.
    + destruct (Forall2_lookup_lr _ _ _ _ _ _ Hall Htext Hv) as [c Hc].
      apply lookup_take_Some in Htext as [Htext _].
      rewrite lookup_drop in Htext.
      exists text, v, c; simpl; repeat split; auto.
      eapply outcome_Ok; eauto.
    + apply lookup_ge_None in Hv.
      apply lookup_lt_Some in Htext. lia.
Qed.

(** The batch loop: it never runs out of its bound, touches neither the
    tracker nor its file, and when it returns it has embedded every
    remaining chunk and written the batches to the store. *)
Lemma batchLoop_spec E name chunks at_ fuel i upserted w :
  length chunks - i < fuel ->
  wp (batchLoop E (newEmbedder E) name chunks at_ fuel i upserted)
     (fun r w' =>
        exists evs,
          quiet w evs w'
          /\ r <> OutOfFuel
          /\ (forall msg, r <> Throw (External FromWriteFile msg))
          /\ trackerWrites evs = [] /\ logs evs = []
          /\ Forall (fun se => isProviderCall se.2 = true) evs
          /\ forall k, r = Ok k ->
               k = upserted + (length chunks - i)
               /\ batchesFrom E name chunks at_ i (upserts evs)
               /\ List.map req_text (fetches evs) = drop i chunks) w.
Proof.
  revert i upserted w; induction fuel as [|fuel IH]; intros i upserted w Hfuel;
    [lia|].
  simpl batchLoop. destruct (i <? length chunks) eqn:Hi.
  - apply Nat.ltb_lt in Hi.
    set (batch := take BATCH_SIZE (drop i chunks)).
    apply wp_bind. unfold embedDocuments.
    eapply wp_mono; [apply embedEach_spec|]. simpl.
    intros r w1 (k & Hq1 & Hr1 & Hnw1 & Hvs).
    destruct r as [vectors|e|]; simpl; [| |congruence].
    + destruct (Hvs vectors eq_refl) as (-> & new & Hnew & Hall).
      simpl in Hnew; subst new. rewrite firstn_all in Hq1.
      apply wp_bind. eapply wp_mono; [apply upsertRecords_spec|]. simpl.
      intros r w2 (ok & Hq2 & Hok).
      destruct ok; [subst r; simpl|destruct Hok as [msg ->]; simpl].
      * eapply wp_mono; [apply IH; unfold BATCH_SIZE; lia|]. simpl.
        intros r w3 (evs & Hq3 & Hr3 & Hnw3 & Hw3 & Hl3 & Hp3 & Hk3).
        eexists; split; [eapply quiet_trans; [eapply quiet_trans|]; eauto|].
        split; [auto|]. split; [exact Hnw3|].
        rewrite !trackerWrites_app, !logs_app, !upserts_app, !fetches_app.
        rewrite fetchEvents_trackerWrites, fetchEvents_logs,
          fetchEvents_upserts, fetchEvents_fetches, Hw3, Hl3.
        split; [reflexivity|]. split; [reflexivity|].
        split.
        { rewrite !Forall_app.
          split; [split|]; auto using fetchEvents_provider. }
        intros n Hn. destruct (Hk3 n Hn) as (-> & Hb & Hf).
        rewrite length_buildRecords. subst batch.
        rewrite length_take, length_drop. split; [unfold BATCH_SIZE; lia|].
        split.
        { simpl. apply batches_step; auto.
          apply buildRecords_batchOf; auto. }
        change (fetches [(current w1, EvUpsert _ true)]) with (@nil EmbedRequest).
        rewrite app_nil_r, map_app, Hf, map_map; simpl. rewrite map_id.
        rewrite <- drop_drop. apply take_drop.
      * eexists; split; [eapply quiet_trans; eauto|].
        split; [discriminate|]. split; [discriminate|].
        rewrite !trackerWrites_app, !logs_app.
        rewrite fetchEvents_trackerWrites, fetchEvents_logs.
        split; [reflexivity|]. split; [reflexivity|].
        split; [|discriminate].
        rewrite !Forall_app.
        split; auto using fetchEvents_provider.
    + eexists; split; [eauto|].
      split; [discriminate|].
      split; [intros msg [= ->]; exact (Hnw1 msg eq_refl)|].
      rewrite fetchEvents_trackerWrites, fetchEvents_logs.
      split; [reflexivity|]. split; [reflexivity|].
      split; [|discriminate].
      apply fetchEvents_provider.
  - apply Nat.ltb_ge in Hi. apply wp_ret.
    exists []; split; [apply quiet_refl|].
    split; [discriminate|]. split; [discriminate|].
    repeat (split; [reflexivity || constructor|]).
    intros k [= <-]. split; [lia|]. split; [constructor; auto|].
    rewrite drop_ge by auto; reflexivity.
Qed.

Lemma saveTracker_spec E data w :
  wp (saveTracker E data)
     (fun r w' =>
        exists ok,
          advance w [(current w, EvWriteTracker data ok)] w'
          /\ tracker w' = tracker w
          /\ (if ok then r = Ok tt /\ disk w' = Stored data
              else (exists msg, r = Throw (External FromWriteFile msg))
                   /\ disk w' = disk w)) w.
Proof.
  unfold saveTracker. apply wp_bind, wp_tick.
  intros w1 [[Hc Ht _] Htr Hd]. rewrite app_nil_r in Ht. simpl.
  destruct (writeFileSync E (clock w) data) as [[]|msg].
  - apply wp_bind, wp_emit; simpl. unfold wp; simpl.
    exists true; repeat split; simpl; auto; try congruence.
  - apply wp_bind, wp_emit; simpl. apply wp_throw.
    exists false; repeat split; simpl; eauto; try congruence.
Qed.

#[local] Arguments batchLoop : simpl never.

#[local] Arguments saveTracker : simpl never.

Lemma ingestBody_outcome E name w :
  wp (ingestBody E name) (bodyOutcome E name w) w.
Proof.
  assert (Hstop : forall o msg,
             o <> FromWriteFile ->
             bodyOutcome E name w (Throw (External o msg)) w).
  { intros o msg Ho.
    apply body_failed with (evs := []).
    - apply quiet_refl.
    - constructor.
    - intros m [= ? ?]; congruence. }
  unfold ingestBody.
  apply wp_bind, wp_await; simpl;
    [intros buffer Hbuf | intros msg _; apply Hstop; discriminate].
  apply wp_bind, wp_await; simpl;
    [intros stats Hstats | intros msg _; apply Hstop; discriminate].
  apply wp_bind, wp_await; simpl;
    [intros [rawText pages] Htext | intros msg _; apply Hstop; discriminate].
  destruct ((length rawText =? 0) || blank rawText).
  { apply wp_log.
    eapply body_skipped; [left; reflexivity|apply quiet_record_event]. }
  apply wp_bind, wp_await; simpl;
    [intros parts Hparts | intros msg _; apply Hstop; discriminate].
  destruct (length (keepChunks parts) =? 0) eqn:Hzero.
  { apply wp_log.
    eapply body_skipped; [right; reflexivity|apply quiet_record_event]. }
  apply Nat.eqb_neq in Hzero.
  assert (Hchunks : documentChunks E name = Some (keepChunks parts)).
  { unfold documentChunks; rewrite Hbuf, Htext, Hparts; reflexivity. }
  set (chunks := keepChunks parts) in *.
  apply wp_bind, wp_tick. intros w0 Hq0. simpl.
  apply wp_bind.
  eapply wp_mono; [apply batchLoop_spec; lia|]. simpl.
  intros r w1 (evs & Hq1 & Hr & Hnw & Hw & Hl & Hp & Hk).
  pose proof (quiet_trans _ _ _ _ _ Hq0 Hq1) as Hq; simpl in Hq.
  destruct r as [upserted|e|]; simpl; [| |congruence].
  2:{ apply body_failed with (evs := evs); auto.
      intros msg ->; exact (Hnw msg eq_refl). }
  destruct (Hk upserted eq_refl) as (-> & Hb & Hf).
  rewrite Nat.sub_0_r, drop_0 in *. simpl.
  apply wp_bind. unfold wp at 1; simpl.
  apply wp_bind. unfold wp at 1; simpl.
  apply wp_bind. unfold wp at 1; simpl.
  apply wp_bind.
  eapply wp_mono; [apply saveTracker_spec|]. simpl.
  intros r w2 (ok & Ha & Ht & Hd).
  destruct Hq as [[Hc1 Htr1 Hs1] Htr Hdisk].
  destruct Ha as [Hc2 Htr2 _]. simpl in Hc2, Htr2, Ht.
  assert (Hne : chunks <> []).
  { intros H0; apply Hzero; rewrite H0; reflexivity. }
  destruct ok.
  - destruct Hd as [-> Hd]; simpl. apply wp_log.
    eapply body_recorded
      with (evs := evs) (ok := true) (at_ := toISOString E (clock w))
           (pages := pages); eauto.
    + simpl. rewrite Ht, Htr. reflexivity.
    + split; simpl.
      * congruence.
      * rewrite Htr2, Htr1, Ht, Htr, Hc2, Hc1, <- !app_assoc. reflexivity.
      * apply Forall_app; split; auto.
    + simpl; split; auto. rewrite Hd, Ht. reflexivity.
  - destruct Hd as [[msg ->] Hd]; simpl.
    eapply body_recorded
      with (evs := evs) (ok := false) (at_ := toISOString E (clock w))
           (pages := pages); eauto.
    + rewrite Ht, Htr. reflexivity.
    + split; simpl.
      * congruence.
      * rewrite Htr2, Htr1, Ht, Htr, Hc1, <- !app_assoc. reflexivity.
      * apply Forall_app; split; auto.
    + split; eauto. simpl in Hd. congruence.
Qed.

Lemma ingestOne_unfold E name w :
  ingestOne E name w =
  match ingestBody E name (enter name w) with
  | (Throw e, w1) => (Ok tt, record_event (EvLog (LogFailed name e)) w1)
  | r => r
  end.
Proof. reflexivity. Qed.

Lemma provider_not_log evs :
  Forall (fun se => isProviderCall se.2 = true) evs -> logs evs = [].
Proof.
  induction 1 as [|[s e] evs He _ IH]; simpl; auto.
  destruct e; simpl in *; auto; discriminate.
Qed.

(** One iteration always completes, and ends in one of three ways. *)
Lemma ingestOne_cases E name w :
  exists w' evs,
    ingestOne E name w = (Ok tt, w')
    /\ trace w' = trace w ++ (Some name, EvLog (LogProcessing name)) :: evs
    /\ current w' = Some name
    /\ Forall (fun se => se.1 = Some name) evs
    /\ passOutcome E name w w' evs.
Proof.
  rewrite ingestOne_unfold.
  pose proof (ingestBody_outcome E name (enter name w)) as H.
  unfold wp in H.
  destruct (ingestBody E name (enter name w)) as [r w1]; simpl in H.
  destruct H as [w1 l Hl [[Hc Ht Hs] Htr Hd]
                |e w1 evs [[Hc Ht Hs] Htr Hd] Hp He
                |r w1 evs chunks stats pages at_ ok Hch Hne Hst Hb Hf Hp
                   Htr [Hc Ht Hs] Hd]; simpl in *.
  - exists w1; eexists; split; [reflexivity|].
    rewrite Ht, <- app_assoc. split; [reflexivity|].
    repeat split; auto. constructor; auto.
  - eexists; exists (evs ++ [(Some name, EvLog (LogFailed name e))]).
    split; [reflexivity|]. simpl.
    rewrite Ht, Hc, <- !app_assoc. split; [reflexivity|].
    split; [reflexivity|]. split.
    + apply Forall_app; split; auto.
    + constructor; auto.
  - destruct ok.
    + destruct Hd as [-> Hd].
      exists w1; eexists; split; [reflexivity|].
      rewrite Ht, <- !app_assoc. split; [reflexivity|].
      split; [auto|]. split; [auto|].
      eapply pass_recorded with (saved := None); eauto.
    + destruct Hd as [[msg ->] Hd].
      eexists; eexists; split; [reflexivity|]. simpl.
      rewrite Ht, Hc, <- !app_assoc. split; [simpl; reflexivity|].
      split; [reflexivity|]. split.
      * rewrite Forall_app in Hs. destruct Hs as [Hs1 Hs2].
        apply Forall_app; split; auto.
      * change (tracker w1)
          with (tracker (record_event
                           (EvLog (LogFailed name (External FromWriteFile msg)))
                           w1)).
        eapply pass_recorded with (saved := Some msg); eauto.
Qed.

Lemma provider_not_write evs :
  Forall (fun se => isProviderCall se.2 = true) evs -> trackerWrites evs = [].
Proof.
  induction 1 as [|[s e] evs He _ IH]; simpl; auto.
  destruct e; simpl in *; auto; discriminate.
Qed.

Lemma batchOf_length E name chunks at_ start b :
  batchOf E name chunks at_ start b ->
  length b = min BATCH_SIZE (length chunks - start).
Proof.
  intros H; apply Forall2_length in H. rewrite length_seq in H; auto.
Qed.

Lemma batchesFrom_lookup E name chunks at_ i ups :
  batchesFrom E name chunks at_ i ups ->
  forall j b ok,
    ups !! j = Some (b, ok) ->
    ok = true
    /\ i + j * BATCH_SIZE < length chunks
    /\ batchOf E name chunks at_ (i + j * BATCH_SIZE) b.
Proof.
  induction 1 as [i Hi|i b0 rest Hi Hb _ IH]; intros j b ok Hj.
  - destruct j; discriminate.
  - destruct j as [|j]; simpl in Hj.
    + injection Hj as <- <-. rewrite Nat.add_0_r; auto.
    + destruct (IH j b ok Hj) as (-> & Hlt & Hbj).
      replace (i + S j * BATCH_SIZE) with (i + BATCH_SIZE + j * BATCH_SIZE)
        by lia.
      auto.
Qed.

Lemma batchesFrom_concat E name chunks at_ i ups :
  batchesFrom E name chunks at_ i ups ->
  Forall2 (recordFor E name chunks at_)
          (seq i (length chunks - i)) (concat ups.*1).
Proof.
  induction 1 as [i Hi|i b rest Hi Hb _ IH].
  - replace (length chunks - i) with 0 by lia. constructor.
  - change (concat ((b, true) :: rest).*1) with (b ++ concat rest.*1).
    replace (length chunks - i)
      with (min BATCH_SIZE (length chunks - i)
            + (length chunks - (i + BATCH_SIZE))) by lia.
    rewrite seq_app. apply Forall2_app; [exact Hb|].
    destruct (le_lt_dec BATCH_SIZE (length chunks - i)) as [Hle|Hlt].
    + rewrite Nat.min_l by lia. exact IH.
    + replace (length chunks - (i + BATCH_SIZE)) with 0 in * by lia.
      apply Forall2_nil_inv_l in IH. rewrite IH. constructor.
Qed.

Lemma keepChunks_nonblank parts :
  Forall (fun c => trim c <> []) (keepChunks parts).
Proof.
  unfold keepChunks. apply List.Forall_forall. intros c Hc.
  apply filter_In in Hc as [_ Hc]. unfold blank in Hc.
  destruct (trim c); [discriminate|discriminate].
Qed.

Lemma documentChunks_nonblank E name chunks :
  documentChunks E name = Some chunks ->
  Forall (fun c => trim c <> []) chunks.
Proof.
  unfold documentChunks.
  destruct (readFileSync E name) as [buffer|]; [|discriminate].
  destruct (getText E buffer) as [[rawText pages]|]; [|discriminate].
  destruct (splitText E rawText) as [parts|]; [|discriminate].
  intros [= <-]. apply keepChunks_nonblank.
Qed.

End IngestFacts.

Module IngestTheorems.
Import GeminiEmbeddings GeminiSpec GeminiFacts Ingest IngestSpec IngestFacts.


(** The events and console lines of an iteration, case by case. *)
Lemma pass_logs E name w w' evs :
  passOutcome E name w w' evs ->
  exists l, logs evs = [l] /\ closes name l
    /\ ((exists k p, l = LogIngested name k p) ->
        exists calls chunks stats pages at_,
          evs = calls ++ [(Some name, EvWriteTracker (tracker w') true);
                          (Some name,
                           EvLog (LogIngested name (length chunks) pages))]
          /\ l = LogIngested name (length chunks) pages
          /\ Forall (fun se => isProviderCall se.2 = true) calls
          /\ documentChunks E name = Some chunks
          /\ chunks <> []
          /\ statSync E name = Returns stats
          /\ batchesFrom E name chunks at_ 0 (upserts calls)
          /\ List.map req_text (fetches calls) = chunks
          /\ tracker w' =
               <[name := {| filename := name;
                            size := st_size stats;
                            lastModified := st_mtimeMs stats;
                            ingestedAt := at_;
                            chunkCount := length chunks;
                            pageCount := pages |}]> (tracker w)
          /\ disk w' = Stored (tracker w')).
Proof.
  intros [l Hl Ht Hd|e calls Hp He Ht Hd
         |calls chunks stats pages at_ saved Hp Hch Hne Hst Hb Hf Ht Hd].
  - exists l; split; [reflexivity|]. split.
    + destruct Hl as [-> | ->]; unfold closes; auto.
    + intros (k & p & ->). destruct Hl; discriminate.
  - exists (LogFailed name e). rewrite logs_app, provider_not_log by auto.
    split; [reflexivity|]. split.
    + unfold closes; eauto 6.
    + intros (k & p & H); discriminate.
  - rewrite logs_app, provider_not_log by auto. simpl.
    eexists; split; [reflexivity|]. split.
    + unfold closes. destruct saved; eauto 8.
    + intros (k & p & H). destruct saved as [msg|]; [discriminate|].
      exists calls, chunks, stats, pages, at_. repeat split; auto.
Qed.

(** C8.  When an iteration prints the success line for a document, the
    document's non-blank chunks were written to the store in batches
    accepted one after the other: batch number [j] holds the records of
    the chunks from [j * 20] on, twenty of them or as many as are left;
    the batches together hold one record per chunk, in order; and the
    tracker entry, which is also the one on file, counts exactly the
    chunks. *)
Theorem ingested_document_batches E name w r w' k pages :
  ingestOne E name w = (r, w') ->
  In (LogIngested name k pages) (logs (newEvents w w')) ->
  exists chunks record,
    documentChunks E name = Some chunks
    /\ Forall (fun c => trim c <> []) chunks
    /\ (forall j b ok,
          upserts (newEvents w w') !! j = Some (b, ok) ->
          ok = true
          /\ length b = min BATCH_SIZE (length chunks - j * BATCH_SIZE)
          /\ 0 < length b <= BATCH_SIZE
          /\ batchOf E name chunks (ingestedAt record) (j * BATCH_SIZE) b)
    /\ Forall2 (recordFor E name chunks (ingestedAt record))
               (seq 0 (length chunks))
               (concat (upserts (newEvents w w')).*1)
    /\ tracker w' !! name = Some record
    /\ disk w' = Stored (tracker w')
    /\ chunkCount record = length chunks
    /\ k = length chunks.
Proof.
  intros Hrun Hin.
  destruct (ingestOne_cases E name w) as (w2 & evs & Hrun2 & Htr & _ & _ & Hout).
  rewrite Hrun in Hrun2; injection Hrun2 as -> <-.
  rewrite (newEvents_app _ _ _ Htr) in *.
  destruct (pass_logs _ _ _ _ _ Hout) as (l & Hlogs & _ & Hsucc).
  simpl in Hin. rewrite Hlogs in Hin.
  destruct Hin as [Hin|[Hin|[]]]; [discriminate|subst l].
  destruct Hsucc as (calls & chunks & stats & pages' & at_ & -> & [= -> ->]
                     & Hp & Hch & Hne & Hst & Hb & Hf & Ht & Hd); eauto.
  assert (Hups : upserts
            ((Some name, EvLog (LogProcessing name))
             :: calls ++ [(Some name, EvWriteTracker (tracker w') true);
                          (Some name,
                           EvLog (LogIngested name (length chunks) pages'))])
          = upserts calls).
  { change (upserts ((Some name, EvLog (LogProcessing name)) :: ?l))
      with (upserts l).
    rewrite upserts_app; simpl. apply app_nil_r. }
  rewrite Hups.
  exists chunks, {| filename := name;
                    size := st_size stats;
                    lastModified := st_mtimeMs stats;
                    ingestedAt := at_;
                    chunkCount := length chunks;
                    pageCount := pages' |}.
  cbn [ingestedAt chunkCount]. split; [exact Hch|].
  split; [eapply documentChunks_nonblank; eauto|].
  split; [|split; [|split; [|split; [|split]]]].
  - intros j b ok Hj.
    destruct (batchesFrom_lookup _ _ _ _ _ _ Hb j b ok Hj) as (-> & Hlt & Hbj).
    simpl in Hlt, Hbj. pose proof (batchOf_length _ _ _ _ _ _ Hbj) as Hlen.
    split; [reflexivity|]. split; [exact Hlen|].
    split; [unfold BATCH_SIZE in *; lia|exact Hbj].
  - pose proof (batchesFrom_concat _ _ _ _ _ _ Hb) as Hc.
    rewrite Nat.sub_0_r in Hc. exact Hc.
  - rewrite Ht. apply lookup_insert_eq.
  - exact Hd.
  - reflexivity.
  - reflexivity.
Qed.

Lemma ingested_document_batches_witness :
  exists chunks record,
    documentChunks (Sample.env [0.5%float]) (js "a.pdf") = Some chunks
    /\ Forall (fun c => trim c <> []) chunks
    /\ (forall j b ok,
          upserts (newEvents Sample.start Sample.ingested) !! j = Some (b, ok) ->
          ok = true
          /\ length b = min BATCH_SIZE (length chunks - j * BATCH_SIZE)
          /\ 0 < length b <= BATCH_SIZE
          /\ batchOf (Sample.env [0.5%float]) (js "a.pdf") chunks
               (ingestedAt record) (j * BATCH_SIZE) b)
    /\ Forall2 (recordFor (Sample.env [0.5%float]) (js "a.pdf") chunks
                  (ingestedAt record))
               (seq 0 (length chunks))
               (concat (upserts (newEvents Sample.start Sample.ingested)).*1)
    /\ tracker Sample.ingested !! js "a.pdf" = Some record
    /\ disk Sample.ingested = Stored (tracker Sample.ingested)
    /\ chunkCount record = length chunks
    /\ 2 = length chunks.
Proof.
  apply (ingested_document_batches (Sample.env [0.5%float]) (js "a.pdf")
           Sample.start (Ok tt) Sample.ingested 2 1).
  - vm_compute. reflexivity.
  - vm_compute. right; left; reflexivity.
Defined.

Lemma batchesFrom_accepted E name chunks at_ i ups :
  batchesFrom E name chunks at_ i ups -> Forall (fun b => b.2 = true) ups.
Proof. induction 1; constructor; auto. Qed.

Lemma onlyEmptyVectors_outcome E c self text v :
  onlyEmptyVectors E -> outcome E c self text <> Ok v.
Proof.
  intros HE H. unfold outcome in H.
  destruct (fetch E c (request self text)) as [res|] eqn:Hres; [|discriminate].
  destruct (res_json res) as [data|] eqn:Hdata; [|discriminate].
  apply checkResponse_Ok in H as (_ & _ & Hv & Hne).
  destruct (HE _ _ _ _ Hres Hdata); congruence.
Qed.

(** C2, amended.  One pass over a document changes the tracker (the
    object or the file), or attempts to write it, only when every chunk
    of the document has been embedded and every batch accepted by the
    store, and the one write attempt comes after all these calls.  When
    the pass ends with a failure raised before the record step, the
    tracker and its file are as they were and no write was attempted;
    this holds in particular when the embedding client threw on a
    zero-length vector.  With a provider that returns only zero-length
    vectors, a pass never changes the tracker and never prints the
    success line.  When the failure is that of the tracker write itself,
    the document's record is already set in the tracker object and stays
    there, and the one write attempted is the one that failed. *)
Theorem ledger_written_only_after_full_upsert E name w r w' :
  ingestOne E name w = (r, w') ->
  (tracker w' <> tracker w \/ disk w' <> disk w
   \/ trackerWrites (newEvents w w') <> [] ->
   exists chunks at_ calls ok line,
     documentChunks E name = Some chunks
     /\ List.map req_text (fetches (newEvents w w')) = chunks
     /\ Forall (fun b => b.2 = true) (upserts (newEvents w w'))
     /\ Forall2 (recordFor E name chunks at_) (seq 0 (length chunks))
                (concat (upserts (newEvents w w')).*1)
     /\ Forall (fun se => isProviderCall se.2 = true) calls
     /\ newEvents w w'
        = (Some name, EvLog (LogProcessing name))
          :: calls ++ [ (Some name, EvWriteTracker (tracker w') ok);
                        (Some name, EvLog line) ])
  /\ (forall e,
        In (LogFailed name e) (logs (newEvents w w')) ->
        (forall msg, e <> External FromWriteFile msg) ->
        tracker w' = tracker w /\ disk w' = disk w
        /\ trackerWrites (newEvents w w') = [])
  /\ (forall excerpt,
        In (LogFailed name (EmbedEmpty excerpt)) (logs (newEvents w w')) ->
        tracker w' = tracker w /\ disk w' = disk w)
  /\ (onlyEmptyVectors E ->
      tracker w' = tracker w /\ disk w' = disk w
      /\ forall k p, ~ In (LogIngested name k p) (logs (newEvents w w')))
  /\ (forall msg,
        In (LogFailed name (External FromWriteFile msg))
           (logs (newEvents w w')) ->
        (exists record, tracker w' = <[name := record]> (tracker w))
        /\ trackerWrites (newEvents w w') = [(tracker w', false)]).
Proof.
  intros Hrun.
  destruct (ingestOne_cases E name w) as (w2 & evs & Hrun2 & Htr & _ & _ & Hout).
  rewrite Hrun in Hrun2; injection Hrun2 as -> <-.
  rewrite (newEvents_app _ _ _ Htr). clear Hrun Htr.
  assert (Hb : forall e,
             In (LogFailed name e)
                (logs ((Some name, EvLog (LogProcessing name)) :: evs)) ->
             (forall msg, e <> External FromWriteFile msg) ->
             tracker w' = tracker w /\ disk w' = disk w
             /\ trackerWrites ((Some name, EvLog (LogProcessing name)) :: evs)
                = []).
  { intros e Hin He.
    destruct Hout as [l Hl Ht Hd|e' calls Hp He' Ht Hd
                     |calls chunks stats pages at_ saved Hp Hch Hne Hst Hbs Hf
                        Ht Hd].
    - auto.
    - repeat split; auto.
      change (trackerWrites ((Some name, EvLog (LogProcessing name)) :: ?l))
        with (trackerWrites l).
      rewrite trackerWrites_app, provider_not_write by auto. reflexivity.
    - exfalso. simpl in Hin. rewrite logs_app, provider_not_log in Hin by auto.
      destruct Hin as [Hin|[Hin|[]]]; try discriminate.
      destruct saved as [msg|]; [|discriminate].
      injection Hin as <-. eapply He; reflexivity. }
  split; [|split; [exact Hb|split; [|split]]].
  - intros Hchange.
    destruct Hout as [l Hl Ht Hd|e' calls Hp He' Ht Hd
                     |calls chunks stats pages at_ saved Hp Hch Hne Hst Hbs Hf
                        Ht Hd].
    + exfalso. destruct Hchange as [H|[H|H]]; auto.
    + exfalso. destruct Hchange as [H|[H|H]]; auto.
      apply H.
      change (trackerWrites ((Some name, EvLog (LogProcessing name)) :: ?l))
        with (trackerWrites l).
      rewrite trackerWrites_app, provider_not_write by auto. reflexivity.
    + exists chunks, at_, calls. do 2 eexists.
      change (fetches ((Some name, EvLog (LogProcessing name)) :: ?l))
        with (fetches l).
      change (upserts ((Some name, EvLog (LogProcessing name)) :: ?l))
        with (upserts l).
      rewrite fetches_app, upserts_app; simpl. rewrite !app_nil_r.
      split; [exact Hch|]. split; [exact Hf|].
      split; [eapply batchesFrom_accepted; eauto|].
      pose proof (batchesFrom_concat _ _ _ _ _ _ Hbs) as Hc.
      rewrite Nat.sub_0_r in Hc.
      split; [exact Hc|]. split; [exact Hp|reflexivity].
  - intros excerpt Hin.
    destruct (Hb _ Hin) as (? & ? & _); [discriminate|auto].
  - intros HE.
    destruct Hout as [l Hl Ht Hd|e' calls Hp He' Ht Hd
                     |calls chunks stats pages at_ saved Hp Hch Hne Hst Hbs Hf
                        Ht Hd].
    + repeat split; auto. intros k p [Hin|[Hin|[]]]; try discriminate.
      subst l. destruct Hl; discriminate.
    + repeat split; auto. intros k p Hin. simpl in Hin.
      rewrite logs_app, provider_not_log in Hin by auto.
      destruct Hin as [Hin|[Hin|[]]]; discriminate.
    + exfalso.
      pose proof (batchesFrom_concat _ _ _ _ _ _ Hbs) as Hc.
      rewrite Nat.sub_0_r in Hc.
      destruct chunks as [|chunk chunks]; [congruence|].
      simpl in Hc. inversion Hc as [|? ? ? ? (text & v & c & _ & _ & _ & _ & _ & Hv)];
        subst.
      eapply onlyEmptyVectors_outcome; eauto.
  - intros msg Hin.
    destruct Hout as [l Hl Ht Hd|e' calls Hp He' Ht Hd
                     |calls chunks stats pages at_ saved Hp Hch Hne Hst Hbs Hf
                        Ht Hd].
    + exfalso. destruct Hin as [Hin|[Hin|[]]]; [discriminate|].
      subst l. destruct Hl; discriminate.
    + exfalso. simpl in Hin. rewrite logs_app, provider_not_log in Hin by auto.
      destruct Hin as [Hin|[Hin|[]]]; [discriminate|].
      injection Hin as ->. eapply He'; reflexivity.
    + simpl in Hin. rewrite logs_app, provider_not_log in Hin by auto.
      destruct Hin as [Hin|[Hin|[]]]; [discriminate|].
      destruct saved as [msg'|]; [|discriminate].
      split; [eexists; exact Ht|].
      change (trackerWrites ((Some name, EvLog (LogProcessing name)) :: ?l))
        with (trackerWrites l).
      rewrite trackerWrites_app, provider_not_write by auto. reflexivity.
Qed.

Lemma ledger_written_only_after_full_upsert_witness :
  In (LogFailed (js "a.pdf") (EmbedEmpty (js "Leave policy: 20 days.")))
     (logs (newEvents Sample.start Sample.rejected))
  /\ tracker Sample.rejected = tracker Sample.start
  /\ disk Sample.rejected = disk Sample.start.
Proof.
  assert (Hrun : ingestOne Sample.degenerate (js "a.pdf") Sample.start
                 = (Ok tt, Sample.rejected)) by (vm_compute; reflexivity).
  assert (Hin : In (LogFailed (js "a.pdf")
                      (EmbedEmpty (js "Leave policy: 20 days.")))
                   (logs (newEvents Sample.start Sample.rejected)))
    by (vm_compute; right; left; reflexivity).
  split; [exact Hin|].
  exact (proj1 (proj2 (proj2
           (ledger_written_only_after_full_upsert Sample.degenerate
              (js "a.pdf") Sample.start (Ok tt) Sample.rejected Hrun)))
           (js "Leave policy: 20 days.") Hin).
Defined.

(** C2 fails when the failing step is the tracker write itself.  Two
    documents, [a.pdf] and [b.pdf]; the write of the tracker fails for
    [a.pdf], whose chunks are all in the store by then, and succeeds for
    [b.pdf].  The pass over [a.pdf] is logged as failed, and the file
    that the run leaves has a record for [a.pdf]. *)
Lemma failed_document_is_recorded :
  ~ failedDocumentKeepsEntry (PipelineSpec.diskFull 4) Sample.start.
Proof.
  intros H.
  specialize (H (js "a.pdf") (External FromWriteFile (js "ENOSPC"))).
  assert (Hin : In (LogFailed (js "a.pdf")
                      (External FromWriteFile (js "ENOSPC")))
                   (logs (newEvents Sample.start
                            (ingestAllPdfs (PipelineSpec.diskFull 4)
                               Sample.start).2)))
    by (vm_compute; auto).
  specialize (H Hin). vm_compute in H. discriminate H.
Qed.

End IngestTheorems.

(* ===================================================================== *)
(** ** The whole run *)
(* ===================================================================== *)

Module RunFacts.
Import GeminiEmbeddings GeminiSpec GeminiFacts Ingest IngestSpec IngestFacts IngestTheorems.

(** The loop over [toIngest]: it completes, every event it adds carries
    the name of one of the documents, and its console lines account for
    every document, in order. *)
Lemma ingestEach_spec E names w :
  exists w' evs outcomes,
    ingestEach E names w = (Ok tt, w')
    /\ trace w' = trace w ++ evs
    /\ Forall (fun se => exists name, In name names /\ se.1 = Some name) evs
    /\ Forall2 closes names outcomes
    /\ logs evs = account names outcomes.
Proof.
  revert w; induction names as [|name rest IH]; intros w.
  - exists w, [], []. rewrite app_nil_r.
    repeat split; constructor.
  - destruct (ingestOne_cases E name w)
      as (w1 & evs1 & Hrun1 & Htr1 & _ & Hs1 & Hout).
    destruct (IH w1) as (w2 & evs2 & outcomes & Hrun2 & Htr2 & Hs2 & Hcl & Hlog).
    destruct (pass_logs _ _ _ _ _ Hout) as (l & Hl & Hc & _).
    exists w2, ((Some name, EvLog (LogProcessing name)) :: evs1 ++ evs2),
      (l :: outcomes).
    split; [|split; [|split; [|split]]].
    + simpl. unfold mbind, M_bind. rewrite Hrun1. exact Hrun2.
    + rewrite Htr2, Htr1, <- app_assoc. reflexivity.
    + constructor; [exists name; simpl; auto|].
      apply Forall_app; split.
      * eapply Forall_impl; [exact Hs1|].
        intros se Hse; exists name; simpl; auto.
      * eapply Forall_impl; [exact Hs2|].
        intros se (n & Hn & Hse); exists n; simpl; auto.
    + constructor; auto.
    + unfold account in *. simpl. rewrite logs_app, Hl, Hlog. reflexivity.
Qed.

Lemma selectToIngest_spec E t names w :
  exists r,
    selectToIngest E t names w = (r, w)
    /\ r <> OutOfFuel
    /\ (forall sel, r = Ok sel ->
          sel = List.filter (changed E t) names)
    /\ (Forall (fun name => exists stats, statSync E name = Returns stats)
               names ->
        exists sel, r = Ok sel).
Proof.
  induction names as [|name rest IH].
  - exists (Ok []); repeat split; try discriminate.
    + intros sel [= <-]; reflexivity.
    + eauto.
  - destruct IH as (r & Hrun & Hfuel & Hsel & Hall).
    simpl. unfold mbind, M_bind, changed.
    destruct (statSync E name) as [stats|msg] eqn:Hst; simpl.
    + rewrite Hrun. destruct r as [sel|e|]; simpl.
      * eexists; split; [reflexivity|]. split; [discriminate|]. split.
        -- intros sel' [= <-]. rewrite (Hsel sel eq_refl). reflexivity.
        -- eauto.
      * eexists; split; [reflexivity|]. split; [discriminate|]. split.
        -- discriminate.
        -- intros Hf. inversion Hf; subst.
           destruct Hall as [sel Hs]; auto. discriminate.
      * congruence.
    + eexists; split; [reflexivity|]. split; [discriminate|]. split.
      * discriminate.
      * intros Hf. inversion Hf as [|? ? [stats Hs] _]; subst. congruence.
Qed.

Lemma selectToIngest_result E t names w :
  (exists sel, (selectToIngest E t names w).1 = Ok sel)
  \/ (exists msg, (selectToIngest E t names w).1
                  = Throw (External FromStat msg)).
Proof.
  induction names as [|name rest IH]; simpl.
  - left; eexists; reflexivity.
  - unfold mbind, M_bind.
    destruct (statSync E name) as [stats|msg]; simpl; [|right; eauto].
    destruct (selectToIngest_spec E t rest w) as (r & Hrun & _).
    rewrite Hrun in *; simpl in *.
    destruct IH as [[sel ->]|[msg ->]]; simpl; [left|right]; eauto.
Qed.

End RunFacts.

Module RunTheorems.
Import GeminiEmbeddings GeminiSpec GeminiFacts Ingest IngestSpec IngestFacts IngestTheorems RunFacts.


Lemma loadTracker_run w : loadTracker w = (Ok (loadedTracker w), w).
Proof.
  unfold loadTracker, loadedTracker, mbind, M_bind, getDisk.
  destruct (disk w); reflexivity.
Qed.

Lemma account_processing names outcomes name :
  Forall2 closes names outcomes ->
  In (LogProcessing name) (account names outcomes) <-> In name names.
Proof.
  unfold account. induction 1 as [|n l names outcomes Hc _ IH]; simpl.
  - tauto.
  - rewrite IH. split.
    + intros [[= ->]|[H|H]]; auto.
      destruct Hc as [->|[->|[(k & p & ->)|(e & ->)]]]; discriminate.
    + intros [->|H]; auto.
Qed.

(** What a whole run does: the documents it processes are the changed
    ones, and only their iterations call the provider or the store. *)
Lemma ingestAllPdfs_spec E w r w' :
  ingestAllPdfs E w = (r, w') ->
  exists names evs,
    trace w' = trace w ++ evs
    /\ (forall name e,
          In (Some name, e) evs -> isProviderCall e = true -> In name names)
    /\ (forall name, In (LogProcessing name) (logs evs) <-> In name names)
    /\ (forall name,
          In name names ->
          In name (pdfFiles E) /\ changed E (loadedTracker w) name = true)
    /\ (r = Ok tt -> configured E ->
        forall name,
          In name (pdfFiles E) -> changed E (loadedTracker w) name = true ->
          In name names).
Proof.
  assert (Hquiet : forall l (w0 : World),
             exists names evs,
               trace (record_event (EvLog l) w0) = trace w0 ++ evs
               /\ (forall name e, In (Some name, e) evs ->
                                  isProviderCall e = true -> In name names)
               /\ ((forall name, l <> LogProcessing name) ->
                   forall name, In (LogProcessing name) (logs evs)
                                <-> In name names)
               /\ names = []).
  { intros l w0. exists [], [(current w0, EvLog l)].
    split; [reflexivity|]. split; [|split; [|reflexivity]].
    - intros name e [[= _ <-]|[]]; discriminate.
    - intros Hl name; simpl; split; [|tauto].
      intros [H|[]]; eapply Hl; eauto. }
  unfold ingestAllPdfs, configured. intros Hrun.
  destruct (length (GOOGLE_API_KEY E) =? 0) eqn:Hg; simpl in Hrun.
  { injection Hrun as <- <-.
    destruct (Hquiet LogNoCredentials w) as (names & evs & H1 & H2 & H3 & ->).
    exists [], evs. repeat split; auto; try apply H3; try discriminate;
      try contradiction.
    intros _ (Hk & _). apply Nat.eqb_eq in Hg.
    destruct (GOOGLE_API_KEY E); [congruence|discriminate]. }
  destruct (length (PINECONE_API_KEY E) =? 0) eqn:Hp; simpl in Hrun.
  { injection Hrun as <- <-.
    destruct (Hquiet LogNoCredentials w) as (names & evs & H1 & H2 & H3 & ->).
    exists [], evs. repeat split; auto; try apply H3; try discriminate;
      try contradiction.
    intros _ (_ & Hk & _). apply Nat.eqb_eq in Hp.
    destruct (PINECONE_API_KEY E); [congruence|discriminate]. }
  destruct (length (PINECONE_INDEX E) =? 0) eqn:Hi; simpl in Hrun.
  { injection Hrun as <- <-.
    destruct (Hquiet LogNoCredentials w) as (names & evs & H1 & H2 & H3 & ->).
    exists [], evs. repeat split; auto; try apply H3; try discriminate;
      try contradiction.
    intros _ (_ & _ & Hk & _). apply Nat.eqb_eq in Hi.
    destruct (PINECONE_INDEX E); [congruence|discriminate]. }
  destruct (pdfsDirExists E) eqn:Hd; simpl in Hrun.
  2:{ injection Hrun as <- <-.
      exists [], [(current w, EvMkdir); (current w, EvLog LogCreatedDir)].
      split; [simpl; rewrite <- app_assoc; reflexivity|].
      split; [intros name e [[= _ <-]|[[= _ <-]|[]]]; discriminate|].
      split; [intros name; simpl; split; [intros [H|[]]; discriminate|tauto]|].
      split; [contradiction|]. intros _ (_ & _ & _ & Hk); discriminate. }
  destruct (length (pdfFiles E) =? 0) eqn:Hn.
  { injection Hrun as <- <-.
    destruct (Hquiet LogNoPdfs w) as (names & evs & H1 & H2 & H3 & ->).
    exists [], evs. repeat split; auto; try apply H3; try discriminate;
      try contradiction.
    intros _ _ name Hin. apply Nat.eqb_eq in Hn.
    destruct (pdfFiles E); [contradiction|discriminate]. }
  unfold mbind, M_bind in Hrun. rewrite loadTracker_run in Hrun.
  simpl in Hrun.
  set (w0 := {| clock := clock w; tracker := loadedTracker w; disk := disk w;
                current := current w; trace := trace w |}) in *.
  destruct (selectToIngest_spec E (loadedTracker w) (pdfFiles E) w0)
    as (rs & Hsel & Hfuel & Hfilter & _).
  rewrite Hsel in Hrun.
  destruct rs as [sel|e|]; [| |congruence].
  2:{ injection Hrun as <- <-. exists [], [].
      rewrite app_nil_r. repeat split; auto; try contradiction.
      discriminate. }
  specialize (Hfilter sel eq_refl).
  destruct (length sel =? 0) eqn:Hzero.
  { injection Hrun as <- <-.
    destruct (Hquiet (LogAllIngested (pdfFiles E)) w0)
      as (names & evs & H1 & H2 & H3 & ->).
    exists [], evs. repeat split; auto; try apply H3; try discriminate;
      try contradiction.
    intros _ _ name Hin Hch. apply Nat.eqb_eq in Hzero.
    assert (Hs : In name sel) by (rewrite Hfilter; apply filter_In; auto).
    destruct sel; [contradiction|discriminate]. }
  simpl in Hrun.
  destruct (ingestEach_spec E sel
              (record_event (EvLog (LogIngesting (length sel))) w0))
    as (w2 & evs & outcomes & Hrun2 & Htr & Hst & Hcl & Hlog).
  unfold processAll, mbind, M_bind in Hrun.
  unfold record_event in Hrun2, Htr. subst w0. simpl in Hrun2, Htr.
  rewrite Hrun2 in Hrun. injection Hrun as <- <-.
  exists sel, ((current w, EvLog (LogIngesting (length sel)))
               :: evs ++ [(current w2, EvLog LogComplete)]).
  split; [simpl; rewrite Htr, <- !app_assoc; reflexivity|].
  split; [|split; [|split]].
  - intros name e [[= _ <-]|Hin] He; [discriminate|].
    apply in_app_or in Hin as [Hin|[[= _ <-]|[]]]; [|discriminate].
    rewrite List.Forall_forall in Hst.
    destruct (Hst _ Hin) as (n & Hnsel & [= <-]). exact Hnsel.
  - intros name.
    change (logs ((current w, EvLog (LogIngesting (length sel))) :: ?l))
      with (LogIngesting (length sel) :: logs l).
    rewrite logs_app, Hlog. simpl.
    rewrite <- (account_processing sel outcomes name Hcl). split.
    + intros [H|H]; [discriminate|].
      apply in_app_or in H as [H|[H|[]]]; [exact H|discriminate].
    + intros H; right; apply in_or_app; auto.
  - intros name Hin. rewrite Hfilter in Hin. apply filter_In in Hin. exact Hin.
  - intros _ _ name Hin Hch. rewrite Hfilter. apply filter_In; auto.
Qed.




(** The sample deployment, run from a fresh process. *)
Example sample_run :
  let w' := (ingestAllPdfs (Sample.env [0.5%float]) Sample.start).2 in
  logs (trace w')
  = [ LogIngesting 1; LogProcessing (js "a.pdf");
      LogIngested (js "a.pdf") 2 1; LogComplete ]
  /\ List.map req_text (fetches (trace w'))
     = [ js "Leave policy: 20 days."; js "Notice: 30 days." ]
  /\ List.map (fun b => List.map rec_id b.1) (upserts (trace w'))
     = [ [ js "a_pdf-chunk-0"; js "a_pdf-chunk-1" ] ]
  /\ chunkCount <$> (tracker w' !! js "a.pdf") = Some 2
  /\ disk w' = Stored (tracker w').
Proof. vm_compute. repeat split; reflexivity. Qed.

(** The same run with a provider that answers with a zero-length vector:
    the document fails and the tracker file is not created. *)
Example degenerate_run :
  let w' := (ingestAllPdfs Sample.degenerate Sample.start).2 in
  logs (trace w')
  = [ LogIngesting 1; LogProcessing (js "a.pdf");
      LogFailed (js "a.pdf") (EmbedEmpty (js "Leave policy: 20 days."));
      LogComplete ]
  /\ upserts (trace w') = []
  /\ tracker w' = ∅
  /\ disk w' = Missing.
Proof. vm_compute. repeat split; reflexivity. Qed.

(** Forty-five chunks go to the store as batches of 20, 20 and 5. *)
Example forty_five_chunks :
  let E :=
    {| GOOGLE_API_KEY := GOOGLE_API_KEY (Sample.env [0.5%float]);
       PINECONE_API_KEY := PINECONE_API_KEY (Sample.env [0.5%float]);
       PINECONE_INDEX := PINECONE_INDEX (Sample.env [0.5%float]);
       pdfsDirExists := true;
       pdfFiles := [js "a.pdf"];
       statSync := statSync (Sample.env [0.5%float]);
       readFileSync := readFileSync (Sample.env [0.5%float]);
       getText := getText (Sample.env [0.5%float]);
       splitText := fun _ => Returns (repeat (js "chunk") 45);
       fetch := fetch (Sample.env [0.5%float]);
       upsert := upsert (Sample.env [0.5%float]);
       query := query (Sample.env [0.5%float]);
       generateContent := generateContent (Sample.env [0.5%float]);
       writeFileSync := writeFileSync (Sample.env [0.5%float]);
       toISOString := toISOString (Sample.env [0.5%float]) |} in
  let w' := (ingestAllPdfs E Sample.start).2 in
  List.map (fun b => length b.1) (upserts (trace w')) = [20; 20; 5]
  /\ chunkCount <$> (tracker w' !! js "a.pdf") = Some 45.
Proof. vm_compute. split; reflexivity. Qed.

End RunTheorems.

(* ===================================================================== *)
(** ** The query handler *)
(* ===================================================================== *)

Module QueryFacts.
Import Query QuerySpec.

Section JsMap.
Context {K V : Type} `{EqDecision K}.
Implicit Types (k : K) (v : V) (m entries : list (K * V)).

Lemma mapSet_keys_in k v m k' :
  In k' (List.map fst (mapSet k v m)) <-> k' = k \/ In k' (List.map fst m).
Proof.
  induction m as [|[k0 v0] m IH]; simpl.
  - intuition.
  - destruct (decide (k = k0)) as [->|Hne]; simpl; [intuition|].
    rewrite IH. intuition.
Qed.

Lemma mapSet_NoDup k v m :
  NoDup (List.map fst m) -> NoDup (List.map fst (mapSet k v m)).
Proof.
  induction m as [|[k0 v0] m IH]; simpl; intros Hnd.
  - repeat constructor. intros H; inversion H.
  - apply NoDup_cons in Hnd as [Hnotin Hnd].
    destruct (decide (k = k0)) as [->|Hne]; simpl.
    + apply NoDup_cons; auto.
    + apply NoDup_cons; split; auto.
      rewrite list_elem_of_In, mapSet_keys_in, <- list_elem_of_In.
      intros [->|H]; auto.
Qed.

Lemma mapSet_In k v m k' v' :
  NoDup (List.map fst m) ->
  In (k', v') (mapSet k v m) <->
  (k' = k /\ v' = v) \/ (k' <> k /\ In (k', v') m).
Proof.
  induction m as [|[k0 v0] m IH]; simpl; intros Hnd.
  - split.
    + intros [[= -> ->]|[]]; auto.
    + intros [[-> ->]|[_ []]]; auto.
  - apply NoDup_cons in Hnd as [Hnotin Hnd].
    rewrite list_elem_of_In in Hnotin.
    destruct (decide (k = k0)) as [->|Hne]; simpl.
    + split.
      * intros [[= -> ->]|Hin]; auto.
        right; split; auto. intros ->; apply Hnotin.
        apply in_map_iff; exists (k0, v'); auto.
      * intros [[-> ->]|[Hne [[= -> ->]|Hin]]]; auto; congruence.
    + rewrite (IH Hnd). split.
      * intros [[= -> ->]|[[-> ->]|[Hk Hin]]]; auto.
      * intros [[-> ->]|[Hk [[= -> ->]|Hin]]]; auto.
Qed.

Lemma fold_mapSet_spec entries m :
  NoDup (List.map fst m) ->
  let m' := fold_left (fun m kv => mapSet kv.1 kv.2 m) entries m in
  NoDup (List.map fst m')
  /\ forall k v,
       In (k, v) m' <->
       lastSet k entries = Some v
       \/ (lastSet k entries = None /\ In (k, v) m).
Proof.
  revert m; induction entries as [|[k0 v0] rest IH]; intros m Hnd; simpl.
  - split; auto. intros k v; split; [auto|]. intros [H|[_ H]]; [discriminate|auto].
  - destruct (IH (mapSet k0 v0 m) (mapSet_NoDup k0 v0 m Hnd)) as [Hnd' Hin].
    split; [exact Hnd'|]. intros k v. rewrite Hin, (mapSet_In _ _ _ _ _ Hnd).
    destruct (lastSet k rest) as [v1|]; [intuition congruence|].
    destruct (decide (k0 = k)) as [->|Hne]; intuition congruence.
Qed.

Lemma newMap_spec entries :
  NoDup (List.map fst (newMap entries))
  /\ forall k v, In (k, v) (newMap entries) <-> lastSet k entries = Some v.
Proof.
  destruct (fold_mapSet_spec entries [] (NoDup_nil_2 (A := K))) as [Hnd Hin].
  split; [exact Hnd|]. intros k v. unfold newMap. rewrite Hin.
  simpl. intuition.
Qed.

End JsMap.

End QueryFacts.

Module QueryTheorems.
Import GeminiEmbeddings GeminiSpec GeminiFacts Query QuerySpec QueryFacts.

Lemma lastSet_lastWith k (l : list SourceDesc) :
  lastSet k (List.map (fun s => (source s, s)) l) = lastWith k l.
Proof.
  induction l as [|s l IH]; simpl; [reflexivity|].
  rewrite IH. reflexivity.
Qed.

Lemma lastWith_Some k l s :
  lastWith k l = Some s -> source s = k /\ In s l.
Proof.
  induction l as [|s0 l IH]; simpl; [discriminate|].
  destruct (lastWith k l) as [s1|].
  - intros [= ->]. destruct IH; auto.
  - destruct (decide (source s0 = k)); [|discriminate].
    intros [= ->]; auto.
Qed.

Lemma lastWith_None k l :
  lastWith k l = None -> ~ In k (List.map source l).
Proof.
  induction l as [|s0 l IH]; simpl; [tauto|].
  destruct (lastWith k l) as [s1|]; [discriminate|].
  destruct (decide (source s0 = k)); [discriminate|].
  intros _ [H|H]; [auto|apply IH; auto].
Qed.

Lemma uniqueSources_In l s :
  In s (uniqueSources l) <-> lastWith (source s) l = Some s.
Proof.
  unfold uniqueSources, values.
  destruct (newMap_spec (List.map (fun s => (source s, s)) l)) as [_ Hin].
  rewrite in_map_iff. split.
  - intros ([k s'] & <- & H). simpl.
    apply Hin in H. rewrite lastSet_lastWith in H.
    destruct (lastWith_Some _ _ _ H) as [-> _]. exact H.
  - intros H. exists (source s, s); split; [reflexivity|].
    apply Hin. rewrite lastSet_lastWith. exact H.
Qed.

Lemma uniqueSources_keys l :
  List.map source (uniqueSources l)
  = List.map fst (newMap (List.map (fun s => (source s, s)) l)).
Proof.
  unfold uniqueSources, values. rewrite map_map.
  destruct (newMap_spec (List.map (fun s => (source s, s)) l)) as [_ Hin].
  apply map_ext_in. intros [k s] H; simpl.
  apply Hin in H. rewrite lastSet_lastWith in H.
  apply lastWith_Some in H as [H _]. exact H.
Qed.

(** C4 fails: of two matches from [a.pdf], chunk 0 first and chunk 5
    second, the source list keeps chunk 5. *)
Lemma keepsFirstMatch_fails : ~ keepsFirstMatch threeMatches.
Proof.
  intros H.
  specialize (H {| source := Some (MStr (js "a.pdf"));
                   chunkIndex := Some (MNum 5);
                   uploadedAt := None |}).
  vm_compute in H.
  specialize (H (or_introl eq_refl)). discriminate H.
Qed.

(** C4, amended.  The source list has exactly one entry per distinct
    source filename of the matches, and each entry is the descriptor of
    the last match with that filename, the one with the lowest
    similarity.  Two matches from [a.pdf] and one from [b.pdf] give two
    entries. *)
Theorem sources_one_per_file_last_match matches :
  let sources := List.map describe matches in
  NoDup (List.map source (uniqueSources sources))
  /\ (forall k,
        In k (List.map source (uniqueSources sources))
        <-> In k (List.map source sources))
  /\ (forall s,
        In s (uniqueSources sources)
        <-> lastWith (source s) sources = Some s)
  /\ length (uniqueSources (List.map describe threeMatches)) = 2.
Proof.
  intros sources. split; [|split; [|split]].
  - rewrite uniqueSources_keys. apply newMap_spec.
  - intros k. split.
    + rewrite in_map_iff. intros (s & <- & Hs).
      apply uniqueSources_In, lastWith_Some in Hs as [_ Hs].
      apply in_map; exact Hs.
    + intros Hk. destruct (lastWith k sources) as [s|] eqn:Hl.
      * pose proof (lastWith_Some _ _ _ Hl) as [<- _].
        apply in_map, uniqueSources_In; exact Hl.
      * exfalso; eapply lastWith_None; eauto.
  - apply uniqueSources_In.
  - reflexivity.
Qed.

(** What the three matches give. *)
Example threeMatches_sources :
  uniqueSources (List.map describe threeMatches)
  = [ {| source := Some (MStr (js "a.pdf"));
         chunkIndex := Some (MNum 5); uploadedAt := None |};
      {| source := Some (MStr (js "b.pdf"));
         chunkIndex := Some (MNum 1); uploadedAt := None |} ].
Proof. vm_compute. reflexivity. Qed.

(** Every answer of the handler is the no-content answer or is built
    from a non-empty list of matches that the store returned. *)
Lemma handle_answer E request w :
  wp (handle E request)
     (fun r w' =>
        r <> OutOfFuel
        /\ forall reply success answer sources n,
             r = Ok reply ->
             body reply = AnswerBody success answer sources n ->
             (sources = [] /\ n = 0 /\ answer = noContentAnswer)
             \/ exists c v ms,
                  query E c v TOP_K = Returns (Some ms)
                  /\ ms <> []
                  /\ sources = uniqueSources (List.map describe ms)
                  /\ n = length ms) w.
Proof.
  assert (Herr : forall (w0 : World) msg s,
             (Ok (jsonStatus (ErrorBody msg) s) : Res Reply) <> OutOfFuel
             /\ forall reply success answer sources n,
                  Ok (jsonStatus (ErrorBody msg) s) = Ok reply ->
                  body reply = AnswerBody success answer sources n ->
                  (sources = [] /\ n = 0 /\ answer = noContentAnswer)
                  \/ exists c v ms,
                       query E c v TOP_K = Returns (Some ms)
                       /\ ms <> []
                       /\ sources = uniqueSources (List.map describe ms)
                       /\ n = length ms).
  { intros w0 msg s; split; [discriminate|].
    intros reply success answer sources n [= <-]; discriminate. }
  assert (Hthrow : forall e,
             (Throw e : Res Reply) <> OutOfFuel
             /\ forall reply success answer sources n,
                  Throw e = Ok reply ->
                  body reply = AnswerBody success answer sources n ->
                  (sources = [] /\ n = 0 /\ answer = noContentAnswer)
                  \/ exists c v ms,
                       query E c v TOP_K = Returns (Some ms)
                       /\ ms <> []
                       /\ sources = uniqueSources (List.map describe ms)
                       /\ n = length ms).
  { intros e; split; discriminate. }
  unfold handle.
  apply wp_bind, wp_await; simpl; [intros b _|intros; apply Hthrow].
  destruct b as [|question]; [apply wp_throw, Hthrow|].
  destruct question as [| | | |q|]; try (apply wp_ret, (Herr w)).
  destruct (invalidQuestion (VStr q)); [apply wp_ret, (Herr w)|].
  destruct (2000 <? length (trim q)); [apply wp_ret, (Herr w)|].
  destruct (length (GOOGLE_API_KEY E) =? 0); [apply wp_ret, (Herr w)|].
  destruct (_ || _); [apply wp_ret, (Herr w)|].
  apply wp_bind. unfold wp at 1. rewrite embedQuery_run; simpl.
  pose proof (outcome_not_OutOfFuel E (clock w) (embedder E) (trim q))
    as Hfuel.
  destruct (outcome E (clock w) (embedder E) (trim q))
    as [v|e|]; simpl; [|apply Hthrow|congruence].
  apply wp_bind, wp_emit; simpl.
  apply wp_bind, wp_tick; intros w1 _; simpl.
  apply wp_bind, wp_await; simpl; [intros response Hq|intros; apply Hthrow].
  destruct (length (default [] response) =? 0) eqn:Hlen.
  { apply wp_ret. split; [discriminate|].
    intros reply success answer sources n [= <-] [= <- <- <- <-]. auto. }
  apply wp_bind, wp_emit; simpl.
  apply wp_bind, wp_tick; intros w2 _; simpl.
  apply wp_bind, wp_await; simpl; [intros answer _|intros; apply Hthrow].
  apply wp_ret. split; [discriminate|].
  intros reply success answer' sources n [= <-] [= <- <- <- <-].
  right. destruct response as [ms|]; simpl in *; [|discriminate].
  eexists _, v, ms. split; [exact Hq|].
  split; [intros ->; discriminate|]. auto.
Qed.

(** A metadata object written by the ingestion has a source and a chunk
    index, and no [uploadedAt] property. *)
Lemma describe_ingested id score text name index total at_ :
  describe {| m_id := id; m_score := score;
              m_metadata :=
                Some (Ingest.chunkMetadata text name index total at_) |}
  = {| source := Some (MStr name);
       chunkIndex := Some (MNum index);
       uploadedAt := None |}.
Proof.
  unfold describe, field, Ingest.chunkMetadata. reflexivity.
Qed.

(** C10.  The ingestion stores its timestamp under the key [ingestedAt]
    and writes no [uploadedAt] property.  So, when the store holds the
    records of the ingestion, every source descriptor of every answer has
    its source and chunk index filled in and its [uploadedAt] undefined. *)
Theorem uploadedAt_is_never_surfaced E request w reply w' success answer
    sources n :
  storeHoldsIngestedRecords E ->
  POST E request w = (Ok reply, w') ->
  body reply = AnswerBody success answer sources n ->
  Forall (fun s =>
            uploadedAt s = None
            /\ exists name index,
                 source s = Some (MStr name)
                 /\ chunkIndex s = Some (MNum index)) sources
  /\ forall text name index total at_,
       Ingest.chunkMetadata text name index total at_ !! js "ingestedAt"
       = Some (MStr at_)
       /\ Ingest.chunkMetadata text name index total at_ !! js "uploadedAt"
          = None.
Proof.
  intros Hstore Hrun Hbody. split; [|intros; split; reflexivity].
  unfold POST, try_catch in Hrun.
  pose proof (handle_answer E request w) as Hwp. unfold wp in Hwp.
  destruct (handle E request w) as [[reply0|e|] w0]; simpl in Hwp.
  - injection Hrun as -> ->.
    destruct Hwp as [_ Hwp].
    destruct (Hwp _ _ _ _ _ eq_refl Hbody)
      as [(-> & _)|(c & v & ms & Hq & _ & -> & _)]; [constructor|].
    apply List.Forall_forall. intros s Hs.
    apply uniqueSources_In, lastWith_Some in Hs as [_ Hs].
    apply in_map_iff in Hs as (m & <- & Hm).
    destruct (Hstore _ _ _ _ _ Hq Hm) as (text & name & index & total & at_ & Hmd).
    destruct m as [id score md]; simpl in Hmd; subst md.
    rewrite describe_ingested; simpl. eauto.
  - injection Hrun as <- _. discriminate Hbody.
  - discriminate Hrun.
Qed.

Lemma uploadedAt_is_never_surfaced_witness :
  Forall (fun s =>
            uploadedAt s = None
            /\ exists name index,
                 source s = Some (MStr name)
                 /\ chunkIndex s = Some (MNum index))
         (uniqueSources (List.map describe threeMatches))
  /\ forall text name index total at_,
       Ingest.chunkMetadata text name index total at_ !! js "ingestedAt"
       = Some (MStr at_)
       /\ Ingest.chunkMetadata text name index total at_ !! js "uploadedAt"
          = None.
Proof.
  refine (uploadedAt_is_never_surfaced answering
            (Returns (BodyWith (VStr (js "How many vacation days do I get?"))))
            Sample.start
            (json (AnswerBody true (js "20 days.")
                     (uniqueSources (List.map describe threeMatches)) 3))
            (POST answering
               (Returns (BodyWith (VStr (js "How many vacation days do I get?"))))
               Sample.start).2
            true (js "20 days.") _ 3 _ _ eq_refl).
  - intros c v k ms m [= <-] Hm.
    destruct Hm as [<-|[<-|[<-|[]]]]; repeat eexists.
  - vm_compute. reflexivity.
Defined.

(** C9.  A valid question whose embedding succeeds and for which the
    vector store returns no match (an absent or an empty list) is
    answered with status 200 and the no-content message, an empty source
    list and a match count of 0.  Nothing is thrown, nothing is logged as
    an error, and the answer generator is not called. *)
Theorem zero_matches_is_no_content E q w v response :
  invalidQuestion (VStr q) = false ->
  length (trim q) <= 2000 ->
  GOOGLE_API_KEY E <> [] ->
  PINECONE_API_KEY E <> [] ->
  PINECONE_INDEX E <> [] ->
  outcome E (clock w) (embedder E) (trim q) = Ok v ->
  query E (S (clock w)) v TOP_K = Returns response ->
  default [] response = [] ->
  let result := POST E (Returns (BodyWith (VStr q))) w in
  result.1
  = Ok {| status := 200; body := AnswerBody true noContentAnswer [] 0 |}
  /\ newEvents w result.2
     = [ (current w, EvFetch (request (embedder E) (trim q)));
         (current w, EvQuery v TOP_K) ].
Proof.
  intros Hvalid Hlen Hg Hp Hi Hout Hq Hnone result. subst result.
  unfold POST, try_catch, handle, mbind, M_bind, await, mret, M_ret.
  cbv beta iota. rewrite Hvalid.
  replace (2000 <? length (trim q)) with false
    by (symmetry; apply Nat.ltb_ge; exact Hlen).
  replace (length (GOOGLE_API_KEY E) =? 0) with false
    by (destruct (GOOGLE_API_KEY E); [congruence|reflexivity]).
  replace (length (PINECONE_API_KEY E) =? 0) with false
    by (destruct (PINECONE_API_KEY E); [congruence|reflexivity]).
  replace (length (PINECONE_INDEX E) =? 0) with false
    by (destruct (PINECONE_INDEX E); [congruence|reflexivity]).
  simpl. rewrite embedQuery_run, Hout. simpl. rewrite Hq, Hnone. simpl.
  split; [reflexivity|].
  unfold newEvents; simpl. rewrite <- app_assoc. apply drop_app_length.
Qed.

Lemma zero_matches_is_no_content_witness :
  let result :=
    POST (Sample.env [0.5%float])
      (Returns (BodyWith (VStr (js "How many vacation days do I get?"))))
      Sample.start in
  result.1
  = Ok {| status := 200; body := AnswerBody true noContentAnswer [] 0 |}
  /\ newEvents Sample.start result.2
     = [ (None, EvFetch (request (embedder (Sample.env [0.5%float]))
                           (trim (js "How many vacation days do I get?"))));
         (None, EvQuery [0.5%float] TOP_K) ].
Proof.
  refine (zero_matches_is_no_content (Sample.env [0.5%float])
            (js "How many vacation days do I get?") Sample.start
            [0.5%float] None _ _ _ _ _ _ _ _).
  - reflexivity.
  - vm_compute. lia.
  - discriminate.
  - discriminate.
  - discriminate.
  - reflexivity.
  - reflexivity.
  - reflexivity.
Defined.

End QueryTheorems.

(* ===================================================================== *)
(** ** Vector identifiers *)
(* ===================================================================== *)

Module IdTheorems.

Lemma sanitize_lookup name k c :
  name !! k = Some c ->
  sanitize name !! k = Some (if idSafe c then c else 95%N).
Proof.
  intros H. unfold sanitize.
  change (List.map ?f name) with (f <$> name).
  rewrite list_lookup_fmap, H. reflexivity.
Qed.

(** C1 fails: two different files, each a candidate of the scan, get the
    same identifier for their first chunk. *)
Lemma identifiers_collide :
  (js "a b.pdf", 0) <> (js "a_b.pdf", 0)
  /\ makeId (js "a b.pdf") 0 = makeId (js "a_b.pdf") 0.
Proof. split; [discriminate|reflexivity]. Qed.

(** C1, amended.  The identifier of the record built for chunk [i + j]
    of a file is [sanitize name ++ "-chunk-" ++ (i + j)], whatever the
    vectors, the timestamp and the chunk count are; [sanitize] keeps the
    length of the name and replaces exactly the code units outside
    [a-zA-Z0-9-_] by an underscore.  Two (filename, index) pairs get the
    same identifier exactly when the indices are equal and the filenames
    have the same sanitized form; in particular the chunks of one file
    get distinct identifiers. *)
Theorem identifier_is_sanitized_name_and_index :
  (forall name i total at_ batch vectors j r,
     Ingest.buildRecords name i total at_ batch vectors !! j = Some r ->
     rec_id r = sanitize name ++ js "-chunk-" ++ numToString (i + j))
  /\ (forall name,
        length (sanitize name) = length name
        /\ forall k c,
             name !! k = Some c ->
             sanitize name !! k = Some (if idSafe c then c else 95%N))
  /\ (forall name1 i1 name2 i2,
        makeId name1 i1 = makeId name2 i2
        <-> sanitize name1 = sanitize name2 /\ i1 = i2)
  /\ (forall name i1 i2, i1 <> i2 -> makeId name i1 <> makeId name i2).
Proof.
  split; [|split; [|split]].
  - intros name i total at_ batch vectors j r Hr.
    unfold Ingest.buildRecords in Hr.
    apply list_lookup_imap_Some in Hr as (text & _ & ->). reflexivity.
  - intros name. split; [apply length_map|apply sanitize_lookup].
  - intros name1 i1 name2 i2. split; [apply makeId_inv|].
    intros [Hs ->]. unfold makeId. rewrite Hs. reflexivity.
  - intros name i1 i2 Hne H. apply makeId_inv in H as [_ H]. auto.
Qed.

(** The identifiers of the project's documentation. *)
Example handbook_identifier :
  makeId (js "handbook.pdf") 12 = js "handbook_pdf-chunk-12".
Proof. reflexivity. Qed.

End IdTheorems.

(* ===================================================================== *)
(** ** Embedding a list of documents *)
(* ===================================================================== *)

Module EmbedDocumentsTheorems.
Import GeminiEmbeddings GeminiSpec GeminiFacts IngestSpec IngestFacts.
Import PipelineSpec.

(** The loop of [embedDocuments], from any accumulator. *)
Lemma embedEach_run E self docs results w r w' :
  embedEach E self docs results w = (r, w') ->
  exists k,
    k <= length docs
    /\ trace w' = trace w ++ fetchEvents self (current w) (take k docs)
    /\ clock w' = clock w + k
    /\ tracker w' = tracker w /\ disk w' = disk w /\ current w' = current w
    /\ match r with
       | Ok vs =>
           k = length docs
           /\ exists new, vs = results ++ new
                          /\ embedded E self (clock w) docs new
       | Throw e => exists j, k = S j /\ firstFailure E self (clock w) docs j e
       | OutOfFuel => False
       end.
Proof.
  revert results w; induction docs as [|doc rest IH]; intros results w Hrun.
  - injection Hrun as <- <-. exists 0. simpl.
    rewrite app_nil_r, Nat.add_0_r. repeat split; auto.
    exists []; rewrite app_nil_r; split; [reflexivity|].
    split; [reflexivity|]. intros j doc H; discriminate.
  - simpl in Hrun. unfold mbind, M_bind in Hrun.
    rewrite embedQuery_run in Hrun.
    pose proof (outcome_not_OutOfFuel E (clock w) self doc) as Hfuel.
    destruct (outcome E (clock w) self doc) as [v|e|] eqn:Hout;
      [|injection Hrun as <- <-|congruence].
    + apply IH in Hrun. simpl in Hrun.
      destruct Hrun as (k & Hk & Htr & Hcl & Ht & Hd & Hc & Hr).
      exists (S k). simpl. rewrite Htr, <- app_assoc. simpl.
      split; [lia|]. split; [reflexivity|]. split; [lia|].
      do 3 (split; [assumption|]).
      destruct r as [vs|e|]; [| |exact Hr].
      * destruct Hr as (-> & new & -> & Hlen & Hnew).
        split; [reflexivity|]. exists (v :: new).
        rewrite <- app_assoc. split; [reflexivity|].
        split; [simpl; congruence|].
        intros [|j] d Hd'; simpl in Hd'.
        -- injection Hd' as <-. exists v. rewrite Nat.add_0_r.
           split; [reflexivity|]. split; [|exact Hout].
           eapply outcome_Ok; exact Hout.
        -- destruct (Hnew j d Hd') as (v' & Hv' & Hne & Ho).
           exists v'. replace (clock w + S j) with (S (clock w) + j) by lia.
           auto.
      * destruct Hr as (j & -> & (d & Hd' & Ho) & Hbefore).
        exists (S j). split; [reflexivity|]. split.
        -- exists d. replace (clock w + S j) with (S (clock w) + j) by lia.
           auto.
        -- intros [|i] d' Hi Hd''; simpl in Hd''.
           ++ injection Hd'' as <-. exists v. rewrite Nat.add_0_r. exact Hout.
           ++ replace (clock w + S i) with (S (clock w) + i) by lia.
              apply Hbefore; [lia|exact Hd''].
    + exists 1. simpl.
      split; [lia|]. split; [reflexivity|]. split; [lia|].
      do 3 (split; [reflexivity|]).
      exists 0. split; [reflexivity|]. split.
      * exists doc. rewrite Nat.add_0_r. auto.
      * intros i d Hi; lia.
Qed.

(** X1.  When [embedDocuments] returns, it returns one vector per document,
    in the order of the documents: vector [j] is the non-empty vector
    that the provider gave for document [j], which was request number
    [j] of the call.  It made exactly one request per document, in
    order, and touched nothing else. *)
Theorem embedDocuments_one_vector_per_document E self docs w vs w' :
  embedDocuments E self docs w = (Ok vs, w') ->
  embedded E self (clock w) docs vs
  /\ newEvents w w' = fetchEvents self (current w) docs
  /\ clock w' = clock w + length docs
  /\ tracker w' = tracker w /\ disk w' = disk w.
Proof.
  intros Hrun. apply embedEach_run in Hrun.
  destruct Hrun as (k & _ & Htr & Hcl & Ht & Hd & _ & -> & new & -> & Hnew).
  rewrite firstn_all in Htr. simpl.
  split; [exact Hnew|]. split; [apply newEvents_app; exact Htr|]. auto.
Qed.

Lemma embedDocuments_one_vector_per_document_witness :
  embedded (Sample.env [0.5%float]) (Ingest.newEmbedder (Sample.env [0.5%float]))
    0 [js "Leave policy: 20 days."; js "Notice: 30 days."]
    [[0.5%float]; [0.5%float]].
Proof.
  exact (proj1 (embedDocuments_one_vector_per_document
                  (Sample.env [0.5%float])
                  (Ingest.newEmbedder (Sample.env [0.5%float]))
                  [js "Leave policy: 20 days."; js "Notice: 30 days."]
                  Sample.start [[0.5%float]; [0.5%float]] _ eq_refl)).
Defined.

(** X2.  When [embedDocuments] throws, it throws the error of the first
    document whose request failed: every document before it was embedded,
    the requests made are those of the documents up to and including
    that one, and nothing is returned for the documents already
    embedded. *)
Theorem embedDocuments_stops_at_first_failure E self docs w e w' :
  embedDocuments E self docs w = (Throw e, w') ->
  exists j,
    firstFailure E self (clock w) docs j e
    /\ newEvents w w' = fetchEvents self (current w) (take (S j) docs)
    /\ clock w' = clock w + S j.
Proof.
  intros Hrun. apply embedEach_run in Hrun.
  destruct Hrun as (k & _ & Htr & Hcl & _ & _ & _ & j & -> & Hfail).
  exists j. split; [exact Hfail|]. split; [apply newEvents_app; exact Htr|].
  exact Hcl.
Qed.

Lemma embedDocuments_stops_at_first_failure_witness :
  exists j,
    firstFailure (flaky 1) (Ingest.newEmbedder (flaky 1)) 0
      [js "Leave policy: 20 days."; js "Notice: 30 days."; js "Travel policy."]
      j (External FromFetch (js "ECONNRESET"))
    /\ newEvents Sample.start
         (embedDocuments (flaky 1) (Ingest.newEmbedder (flaky 1))
            [js "Leave policy: 20 days."; js "Notice: 30 days.";
             js "Travel policy."] Sample.start).2
       = fetchEvents (Ingest.newEmbedder (flaky 1)) None
           (take (S j) [js "Leave policy: 20 days."; js "Notice: 30 days.";
                        js "Travel policy."])
    /\ clock (embedDocuments (flaky 1) (Ingest.newEmbedder (flaky 1))
                [js "Leave policy: 20 days."; js "Notice: 30 days.";
                 js "Travel policy."] Sample.start).2
       = 0 + S j.
Proof.
  exact (embedDocuments_stops_at_first_failure (flaky 1)
           (Ingest.newEmbedder (flaky 1))
           [js "Leave policy: 20 days."; js "Notice: 30 days.";
            js "Travel policy."]
           Sample.start (External FromFetch (js "ECONNRESET")) _ eq_refl).
Defined.

End EmbedDocumentsTheorems.

(* ===================================================================== *)
(** ** Events that a run can produce *)
(* ===================================================================== *)

Module EventFacts.
Import GeminiEmbeddings GeminiSpec GeminiFacts Ingest IngestSpec IngestFacts.
Import PipelineSpec.

Section EmitsOnly.
Variable G : Event -> Prop.

Lemma emitsOnly_silent {A} (m : M A) :
  (forall w, trace (m w).2 = trace w) -> emitsOnly G m.
Proof.
  intros H w. exists []. rewrite app_nil_r. split; [apply H|constructor].
Qed.

Lemma emitsOnly_ret {A} (a : A) : emitsOnly G (mret a).
Proof. apply emitsOnly_silent; reflexivity. Qed.

Lemma emitsOnly_throw {A} e : emitsOnly G (throw e : M A).
Proof. apply emitsOnly_silent; reflexivity. Qed.

Lemma emitsOnly_done_with {A} (r : Res A) : emitsOnly G (done_with r).
Proof. apply emitsOnly_silent; reflexivity. Qed.

Lemma emitsOnly_await {A} o (x : Ext A) : emitsOnly G (await o x).
Proof. apply emitsOnly_silent; destruct x; reflexivity. Qed.

Lemma emitsOnly_tick : emitsOnly G tick.
Proof. apply emitsOnly_silent; reflexivity. Qed.

Lemma emitsOnly_emit e : G e -> emitsOnly G (emit e).
Proof.
  intros He w. exists [(current w, e)]. split; [reflexivity|].
  constructor; [exact He|constructor].
Qed.

Lemma emitsOnly_bind {A B} (m : M A) (f : A -> M B) :
  emitsOnly G m -> (forall a, emitsOnly G (f a)) -> emitsOnly G (m ≫= f).
Proof.
  intros Hm Hf w. unfold mbind, M_bind.
  destruct (Hm w) as (evs1 & Ht1 & H1).
  destruct (m w) as [[a|e|] w1]; simpl in *; eauto.
  destruct (Hf a w1) as (evs2 & Ht2 & H2).
  exists (evs1 ++ evs2). rewrite Ht2, Ht1, app_assoc.
  split; [reflexivity|]. apply Forall_app; auto.
Qed.

Lemma emitsOnly_try_catch {A} (m : M A) (h : JsError -> M A) :
  emitsOnly G m -> (forall e, emitsOnly G (h e)) ->
  emitsOnly G (try_catch m h).
Proof.
  intros Hm Hh w. unfold try_catch.
  destruct (Hm w) as (evs1 & Ht1 & H1).
  destruct (m w) as [[a|e|] w1]; simpl in *; eauto.
  destruct (Hh e w1) as (evs2 & Ht2 & H2).
  exists (evs1 ++ evs2). rewrite Ht2, Ht1, app_assoc.
  split; [reflexivity|]. apply Forall_app; auto.
Qed.

Lemma emitsOnly_embedQuery E self text :
  G (EvFetch (request self text)) -> emitsOnly G (embedQuery E self text).
Proof.
  intros H. unfold embedQuery.
  apply emitsOnly_bind; [apply emitsOnly_emit, H|intros _].
  apply emitsOnly_bind; [apply emitsOnly_tick|intros c].
  apply emitsOnly_bind; [apply emitsOnly_await|intros res].
  apply emitsOnly_bind; [apply emitsOnly_await|intros data].
  apply emitsOnly_done_with.
Qed.

Lemma emitsOnly_embedEach E self docs results :
  (forall text, In text docs -> G (EvFetch (request self text))) ->
  emitsOnly G (embedEach E self docs results).
Proof.
  revert results; induction docs as [|doc rest IH]; intros results H.
  - apply emitsOnly_ret.
  - simpl. apply emitsOnly_bind.
    + apply emitsOnly_embedQuery, H. left; reflexivity.
    + intros v. apply IH. intros text Hin. apply H. right; exact Hin.
Qed.

Lemma In_take_drop {A} (x : A) n i l : In x (take n (drop i l)) -> In x l.
Proof.
  intros H. rewrite <- (take_drop i l). apply in_or_app; right.
  rewrite <- (take_drop n (drop i l)). apply in_or_app; left. exact H.
Qed.

Lemma emitsOnly_upsertRecords E records :
  (forall ok, G (EvUpsert records ok)) -> emitsOnly G (upsertRecords E records).
Proof.
  intros H. unfold upsertRecords.
  apply emitsOnly_bind; [apply emitsOnly_tick|intros c].
  destruct (upsert E c records).
  - apply emitsOnly_emit, H.
  - apply emitsOnly_bind; [apply emitsOnly_emit, H|intros _].
    apply emitsOnly_throw.
Qed.

Lemma emitsOnly_saveTracker E data :
  (forall ok, G (EvWriteTracker data ok)) -> emitsOnly G (saveTracker E data).
Proof.
  intros H. unfold saveTracker.
  apply emitsOnly_bind; [apply emitsOnly_tick|intros c].
  destruct (writeFileSync E c data).
  - apply emitsOnly_bind; [apply emitsOnly_emit, H|intros _].
    apply emitsOnly_silent; reflexivity.
  - apply emitsOnly_bind; [apply emitsOnly_emit, H|intros _].
    apply emitsOnly_throw.
Qed.

Lemma emitsOnly_selectToIngest E t names :
  emitsOnly G (selectToIngest E t names).
Proof.
  induction names as [|name rest IH]; simpl.
  - apply emitsOnly_ret.
  - apply emitsOnly_bind; [apply emitsOnly_await|intros stats].
    apply emitsOnly_bind; [exact IH|intros sel]. apply emitsOnly_ret.
Qed.

(** The events of an ingestion run: requests of the run's embedder for
    non-blank texts, store writes, tracker writes, the creation of the
    folder, console lines. *)
Variable E : Env.
Hypothesis G_fetch :
  forall text, trim text <> [] -> G (EvFetch (request (newEmbedder E) text)).
Hypothesis G_upsert : forall records ok, G (EvUpsert records ok).
Hypothesis G_write : forall data ok, G (EvWriteTracker data ok).
Hypothesis G_mkdir : G EvMkdir.
Hypothesis G_log : forall l, G (EvLog l).

Lemma emitsOnly_batchLoop name chunks at_ fuel i upserted :
  Forall (fun c => trim c <> []) chunks ->
  emitsOnly G (batchLoop E (newEmbedder E) name chunks at_ fuel i upserted).
Proof using G_fetch G_upsert.
  intros Hchunks.
  revert i upserted; induction fuel as [|fuel IH]; intros i upserted; simpl.
  - apply emitsOnly_done_with.
  - destruct (i <? length chunks); [|apply emitsOnly_ret].
    apply emitsOnly_bind; [|intros vectors].
    { apply emitsOnly_embedEach. intros text Hin. apply G_fetch.
      rewrite List.Forall_forall in Hchunks.
      eapply Hchunks, In_take_drop, Hin. }
    apply emitsOnly_bind; [apply emitsOnly_upsertRecords; auto|intros _].
    apply IH.
Qed.

Lemma emitsOnly_ingestBody name : emitsOnly G (ingestBody E name).
Proof using G_fetch G_upsert G_write G_log.
  unfold ingestBody.
  apply emitsOnly_bind; [apply emitsOnly_await|intros buffer].
  apply emitsOnly_bind; [apply emitsOnly_await|intros stats].
  apply emitsOnly_bind; [apply emitsOnly_await|intros [rawText pages]].
  destruct (_ || _); [apply emitsOnly_emit, G_log|].
  apply emitsOnly_bind; [apply emitsOnly_await|intros parts].
  destruct (_ =? 0); [apply emitsOnly_emit, G_log|].
  apply emitsOnly_bind; [apply emitsOnly_tick|intros c].
  apply emitsOnly_bind;
    [apply emitsOnly_batchLoop, keepChunks_nonblank|intros upserted].
  apply emitsOnly_bind; [apply emitsOnly_silent; reflexivity|intros t].
  apply emitsOnly_bind; [apply emitsOnly_silent; reflexivity|intros _].
  apply emitsOnly_bind; [apply emitsOnly_silent; reflexivity|intros t'].
  apply emitsOnly_bind; [apply emitsOnly_saveTracker; auto|intros _].
  apply emitsOnly_emit, G_log.
Qed.

Lemma emitsOnly_ingestEach names : emitsOnly G (ingestEach E names).
Proof using G_fetch G_upsert G_write G_log.
  induction names as [|name rest IH]; simpl.
  - apply emitsOnly_ret.
  - apply emitsOnly_bind; [|intros _; exact IH].
    unfold ingestOne.
    apply emitsOnly_bind; [apply emitsOnly_silent; reflexivity|intros _].
    apply emitsOnly_bind; [apply emitsOnly_emit, G_log|intros _].
    apply emitsOnly_try_catch; [apply emitsOnly_ingestBody|].
    intros e; apply emitsOnly_emit, G_log.
Qed.

Lemma emitsOnly_ingestAllPdfs : emitsOnly G (ingestAllPdfs E).
Proof using G_fetch G_upsert G_write G_mkdir G_log.
  unfold ingestAllPdfs.
  destruct (_ || _); [apply emitsOnly_emit, G_log|].
  destruct (negb _).
  { apply emitsOnly_bind; [apply emitsOnly_emit, G_mkdir|intros _].
    apply emitsOnly_emit, G_log. }
  destruct (_ =? 0); [apply emitsOnly_emit, G_log|].
  apply emitsOnly_bind.
  { unfold loadTracker.
    apply emitsOnly_bind; [apply emitsOnly_silent; reflexivity|intros d].
    destruct d; apply emitsOnly_ret. }
  intros t.
  apply emitsOnly_bind; [apply emitsOnly_silent; reflexivity|intros _].
  apply emitsOnly_bind; [apply emitsOnly_selectToIngest|intros sel].
  destruct (_ =? 0); [apply emitsOnly_emit, G_log|].
  apply emitsOnly_bind; [apply emitsOnly_emit, G_log|intros _].
  unfold processAll.
  apply emitsOnly_bind; [apply emitsOnly_ingestEach|intros _].
  apply emitsOnly_emit, G_log.
Qed.

End EmitsOnly.

Lemma emitsOnly_fetches (P : EmbedRequest -> Prop) evs :
  Forall (fun se => match se.2 with EvFetch q => P q | _ => True end) evs ->
  Forall P (fetches evs).
Proof.
  induction 1 as [|[s e] evs He _ IH]; simpl; [constructor|].
  destruct e; simpl in *; auto.
Qed.

End EventFacts.

(* ===================================================================== *)
(** ** Every call of the query handler *)
(* ===================================================================== *)

Module PostFacts.
Import GeminiEmbeddings GeminiSpec GeminiFacts Query PipelineSpec.

Lemma length_eqb_nil {A} (l : list A) :
  (length l =? 0) = false <-> l <> [].
Proof. destruct l; simpl; split; congruence. Qed.

(** The handler always replies, and ends in one of the ways of
    [postOutcome].  The tracker and its file are not touched. *)
Lemma POST_run E request w :
  exists reply evs n,
    POST E request w
    = (Ok reply,
       {| clock := clock w + n; tracker := tracker w; disk := disk w;
          current := current w; trace := trace w ++ evs |})
    /\ postOutcome E (clock w) (current w) request reply evs n.
Proof.
  assert (Hsame : forall reply : Reply,
            (Ok reply, w)
            = (Ok reply,
               {| clock := clock w + 0; tracker := tracker w; disk := disk w;
                  current := current w; trace := trace w ++ [] |})).
  { intros reply. destruct w; simpl. rewrite Nat.add_0_r, app_nil_r.
    reflexivity. }
  unfold POST, try_catch, handle, mbind, M_bind, await, mret, M_ret.
  cbv beta iota.
  destruct request as [[|question]|msg].
  - do 2 eexists; exists 0; split; [|apply post_null].
    simpl. rewrite Nat.add_0_r. reflexivity.
  - destruct question as [| | | |q|];
      try (do 2 eexists; exists 0; split;
           [apply Hsame|apply post_invalid; reflexivity]).
    destruct (invalidQuestion (VStr q)) eqn:Hvalid.
    { do 2 eexists; exists 0; split; [apply Hsame|apply post_invalid, Hvalid]. }
    destruct (2000 <? length (trim q)) eqn:Hlen.
    { do 2 eexists; exists 0; split; [apply Hsame|].
      apply post_too_long; [exact Hvalid|apply Nat.ltb_lt, Hlen]. }
    apply Nat.ltb_ge in Hlen.
    assert (Hacc : accepted q) by (split; assumption).
    destruct (length (GOOGLE_API_KEY E) =? 0) eqn:Hg.
    { do 2 eexists; exists 0; split; [apply Hsame|].
      apply post_no_google_key; [exact Hacc|].
      destruct (GOOGLE_API_KEY E); [reflexivity|discriminate]. }
    apply length_eqb_nil in Hg.
    destruct ((length (PINECONE_API_KEY E) =? 0)
              || (length (PINECONE_INDEX E) =? 0)) eqn:Hp.
    { do 2 eexists; exists 0; split; [apply Hsame|].
      apply post_no_pinecone; [exact Hacc|exact Hg|].
      apply orb_true_iff in Hp.
      destruct Hp as [Hp|Hp]; [left|right];
        match type of Hp with
        | (length ?l =? 0) = true => destruct l; [reflexivity|discriminate]
        end. }
    apply orb_false_iff in Hp. destruct Hp as [Hk Hi].
    apply length_eqb_nil in Hk, Hi.
    assert (Hcred : credentials E) by (repeat split; assumption).
    simpl. rewrite embedQuery_run.
    pose proof (outcome_not_OutOfFuel E (clock w) (embedder E) (trim q))
      as Hfuel.
    destruct (outcome E (clock w) (embedder E) (trim q)) as [v|e|] eqn:Hout;
      [|clear Hfuel|congruence]; simpl.
    + destruct (query E (S (clock w)) v TOP_K) as [response|msg] eqn:Hq; simpl.
      * destruct (length (default [] response) =? 0) eqn:Hm.
        -- do 2 eexists; exists 2; split;
             [|eapply post_no_match; eauto;
               destruct (default [] response); [reflexivity|discriminate]].
           simpl. rewrite <- app_assoc.
           replace (clock w + 2) with (S (S (clock w))) by lia. reflexivity.
        -- apply length_eqb_nil in Hm.
           destruct response as [ms|]; simpl in Hm; [|congruence].
           simpl.
           change {| p_context := buildContext ms; p_question := trim q |}
             with (promptFor q ms).
           destruct (generateContent E (S (S (clock w))) (promptFor q ms))
             as [answer|msg] eqn:Hgen; simpl.
           ++ do 2 eexists; exists 3; split;
                [|eapply post_answered; eauto].
              rewrite <- !app_assoc. simpl.
              replace (clock w + 3) with (S (S (S (clock w)))) by lia.
              reflexivity.
           ++ do 2 eexists; exists 3; split;
                [|eapply post_generate_failed; eauto].
              rewrite <- !app_assoc. simpl.
              replace (clock w + 3) with (S (S (S (clock w)))) by lia.
              reflexivity.
      * do 2 eexists; exists 2; split; [|eapply post_query_failed; eauto].
        rewrite <- !app_assoc. simpl.
        replace (clock w + 2) with (S (S (clock w))) by lia. reflexivity.
    + do 2 eexists; exists 1; split; [|eapply post_embed_failed; eauto].
      rewrite <- !app_assoc. simpl.
      replace (clock w + 1) with (S (clock w)) by lia. reflexivity.
  - do 2 eexists; exists 0; split; [|apply post_unparsed].
    simpl. rewrite Nat.add_0_r. reflexivity.
Qed.

Lemma postOutcome_status E c stamp request reply evs n :
  postOutcome E c stamp request reply evs n ->
  (status reply = 200
   /\ exists answer sources k, body reply = AnswerBody true answer sources k)
  \/ (status reply = 400
      /\ (exists msg, body reply = ErrorBody msg)
      /\ forall q, request = Returns (BodyWith (VStr q)) -> ~ accepted q)
  \/ (status reply = 500
      /\ ((exists msg, body reply = ErrorBody msg)
          \/ exists e, body reply = ErrorThrown e)).
Proof.
  intros H. destruct H; simpl;
    try (right; right; split; [reflexivity|eauto]; fail);
    try (left; split; [reflexivity|eauto]; fail).
  - right; left. split; [reflexivity|]. split; [eauto|].
    intros q [= ->] [Hv _]. congruence.
  - right; left. split; [reflexivity|]. split; [eauto|].
    intros q' [= <-] [_ Hl]. lia.
Qed.

End PostFacts.

(* ===================================================================== *)
(** ** The order of the source list *)
(* ===================================================================== *)

Module SourceFacts.
Import Query QuerySpec QueryFacts PipelineSpec.

Section MapOrder.
Context {K V : Type} `{EqDecision K}.
Implicit Types (k : K) (v : V) (m entries : list (K * V)).

Lemma mapSet_keys_old k v m :
  In k (List.map fst m) -> List.map fst (mapSet k v m) = List.map fst m.
Proof.
  induction m as [|[k0 v0] m IH]; simpl; [tauto|].
  destruct (decide (k = k0)) as [->|Hne]; simpl; [reflexivity|].
  intros [H|H]; [congruence|]. rewrite IH; auto.
Qed.

Lemma mapSet_new k v m :
  ~ In k (List.map fst m) -> mapSet k v m = m ++ [(k, v)].
Proof.
  induction m as [|[k0 v0] m IH]; simpl; [reflexivity|].
  intros Hnotin. destruct (decide (k = k0)) as [->|Hne]; [tauto|].
  rewrite IH; auto.
Qed.

Lemma filter_filter_ext {A} (f g h : A -> bool) (l : list A) :
  (forall x, h x = f x && g x) ->
  List.filter f (List.filter g l) = List.filter h l.
Proof.
  intros Hh. induction l as [|x l IH]; simpl; [reflexivity|].
  rewrite Hh. destruct (g x); simpl.
  - rewrite andb_true_r. destruct (f x); rewrite IH; reflexivity.
  - rewrite andb_false_r. exact IH.
Qed.

Lemma fold_mapSet_keys entries m :
  List.map fst (fold_left (fun m kv => mapSet kv.1 kv.2 m) entries m)
  = List.map fst m
    ++ List.filter (fun k => negb (bool_decide (k ∈ List.map fst m)))
         (firstOccurrences (List.map fst entries)).
Proof.
  revert m; induction entries as [|[k0 v0] rest IH]; intros m; simpl.
  - rewrite app_nil_r; reflexivity.
  - rewrite IH. destruct (decide (k0 ∈ List.map fst m)) as [Hin|Hnotin].
    + rewrite (mapSet_keys_old k0 v0 m) by (apply list_elem_of_In, Hin).
      rewrite (bool_decide_eq_true_2 _ Hin). simpl. f_equal.
      symmetry. apply filter_filter_ext. intros k.
      destruct (decide (k = k0)) as [->|Hne].
      * rewrite (bool_decide_eq_true_2 _ Hin). reflexivity.
      * rewrite (bool_decide_eq_false_2 (k = k0)) by exact Hne.
        simpl. rewrite andb_true_r. reflexivity.
    + rewrite (mapSet_new k0 v0 m), map_app
        by (intros Hin; apply Hnotin, list_elem_of_In, Hin).
      simpl. rewrite (bool_decide_eq_false_2 _ Hnotin). simpl.
      rewrite <- app_assoc. simpl. do 2 f_equal.
      symmetry. apply filter_filter_ext. intros k.
      destruct (decide (k = k0)) as [->|Hne].
      * rewrite (bool_decide_eq_true_2 (k0 = k0)) by reflexivity.
        rewrite andb_false_r. apply negb_false_iff, bool_decide_eq_true_2.
        apply elem_of_app; right; left.
      * rewrite (bool_decide_eq_false_2 (k = k0)) by exact Hne.
        simpl. rewrite andb_true_r. f_equal.
        apply bool_decide_ext. rewrite elem_of_app, list_elem_of_singleton.
        split; [intros [?|?]; [assumption|congruence]|auto].
Qed.

Lemma filter_true {A} (l : list A) : List.filter (fun _ => true) l = l.
Proof. induction l; simpl; congruence. Qed.

Lemma newMap_keys entries :
  List.map fst (newMap entries) = firstOccurrences (List.map fst entries).
Proof.
  unfold newMap. rewrite fold_mapSet_keys. simpl.
  apply filter_true.
Qed.

Lemma fold_mapSet_distinct entries m :
  NoDup (List.map fst (m ++ entries)) ->
  fold_left (fun m kv => mapSet kv.1 kv.2 m) entries m = m ++ entries.
Proof.
  revert m; induction entries as [|[k0 v0] rest IH]; intros m Hnd; simpl.
  - rewrite app_nil_r; reflexivity.
  - rewrite mapSet_new.
    + rewrite IH; rewrite <- app_assoc; [reflexivity|exact Hnd].
    + rewrite map_app in Hnd. simpl in Hnd.
      apply NoDup_app in Hnd as (_ & Hdis & _).
      intros Hin. apply (Hdis k0); [apply list_elem_of_In, Hin|left].
Qed.

Lemma length_firstOccurrences (keys : list K) :
  length (firstOccurrences keys) <= length keys.
Proof.
  induction keys as [|k rest IH]; simpl; [lia|].
  pose proof (filter_length_le
                (fun k' => negb (bool_decide (k' = k)))
                (firstOccurrences rest)).
  lia.
Qed.

End MapOrder.

End SourceFacts.

Module SourceTheorems.
Import Query QuerySpec QueryFacts PipelineSpec SourceFacts.

Lemma uniqueSources_first_occurrences l :
  List.map source (uniqueSources l) = firstOccurrences (List.map source l).
Proof.
  rewrite QueryTheorems.uniqueSources_keys, newMap_keys, map_map.
  reflexivity.
Qed.

Lemma uniqueSources_length l : length (uniqueSources l) <= length l.
Proof.
  rewrite <- (length_map source), uniqueSources_first_occurrences.
  etransitivity; [apply length_firstOccurrences|].
  rewrite length_map. reflexivity.
Qed.

(** X21.  The source list names every file once, at the rank of the file's
    first (best) match.  When the matches come from pairwise different
    files it is the list of their descriptors, unchanged.  It is never
    longer than the list of matches, and it is empty only when there is
    no match. *)
Theorem sources_keep_rank_of_first_match (matches : list Match) :
  let sources := List.map describe matches in
  List.map source (uniqueSources sources)
  = firstOccurrences (List.map source sources)
  /\ (NoDup (List.map source sources) -> uniqueSources sources = sources)
  /\ length (uniqueSources sources) <= length matches
  /\ (matches <> [] -> uniqueSources sources <> []).
Proof.
  intros sources.
  split; [apply uniqueSources_first_occurrences|]. split; [|split].
  - intros Hnd. unfold uniqueSources, newMap.
    rewrite fold_mapSet_distinct.
    + unfold values. simpl. rewrite map_map. simpl. apply map_id.
    + simpl. rewrite map_map. exact Hnd.
  - etransitivity; [apply uniqueSources_length|].
    unfold sources. rewrite length_map. reflexivity.
  - intros Hne Hempty.
    apply (f_equal (List.map source)) in Hempty.
    rewrite uniqueSources_first_occurrences in Hempty.
    destruct matches; [congruence|discriminate].
Qed.

Lemma text_of_ingested text name index total at_ :
  default (MStr [])
    (field (Some (Ingest.chunkMetadata text name index total at_)) (js "text"))
  = MStr text.
Proof. reflexivity. Qed.

(** X20.  The context passed to the answer generator: for matches that carry
    the metadata written by the ingestion, it is their chunk texts, in
    the order of the matches, separated by a rule. *)
Theorem context_is_chunk_texts_in_match_order (ms : list Match)
    (texts : list jsstring) :
  Forall2 (fun m text =>
             exists name index total at_,
               m_metadata m
               = Some (Ingest.chunkMetadata text name index total at_))
          ms texts ->
  Forall (fun text => text <> []) texts ->
  buildContext ms = join divider texts.
Proof.
  intros Hms Hne. unfold buildContext. f_equal.
  induction Hms as [|m text ms texts (name & index & total & at_ & Hm) _ IH];
    [reflexivity|].
  apply Forall_cons in Hne as [Htext Hne]. cbn [List.map].
  rewrite Hm, text_of_ingested. cbn [List.filter truthy].
  destruct text; [congruence|]. simpl. f_equal. apply IH, Hne.
Qed.

Lemma context_is_chunk_texts_in_match_order_witness :
  buildContext threeMatches
  = join divider [js "Leave policy: 20 days."; js "Notice: 30 days.";
                  js "Travel policy."].
Proof.
  apply (context_is_chunk_texts_in_match_order threeMatches).
  - repeat constructor; repeat eexists.
  - repeat constructor; discriminate.
Defined.

End SourceTheorems.

Module PostTheorems.
Import GeminiEmbeddings GeminiSpec GeminiFacts Query QuerySpec IngestSpec.
Import PipelineSpec PostFacts SourceTheorems.

(** X16.  The handler never throws: every request gets a reply.  A reply with
    status 200 carries an answer, flagged as a success, with at most as
    many sources as retrieved chunks; every other reply has status 400
    or 500 and carries an error message.  A thrown error is answered
    with status 500 and written to the console. *)
Theorem POST_always_replies E request w :
  exists reply w',
    POST E request w = (Ok reply, w')
    /\ ((status reply = 200
         /\ exists answer sources n,
              body reply = AnswerBody true answer sources n
              /\ length sources <= n)
        \/ ((status reply = 400 \/ status reply = 500)
            /\ exists msg, body reply = ErrorBody msg /\ msg <> [])
        \/ (status reply = 500
            /\ exists e, body reply = ErrorThrown e
                         /\ logs (newEvents w w') = [LogQueryError e])).
Proof.
  destruct (POST_run E request w) as (reply & evs & n & Hrun & Hout).
  do 2 eexists. split; [exact Hrun|].
  rewrite (newEvents_app _ _ evs) by reflexivity.
  destruct Hout; simpl;
    try (right; left; split; [auto|]; eexists; split;
         [reflexivity|discriminate]);
    try (right; right; split; [reflexivity|]; eexists; split; reflexivity).
  - left. split; [reflexivity|]. do 3 eexists. split; [reflexivity|simpl; lia].
  - left. split; [reflexivity|]. do 3 eexists. split; [reflexivity|].
    etransitivity; [apply uniqueSources_length|].
    rewrite length_map. reflexivity.
Qed.

(** X17.  A request that fails validation, or that finds a credential
    missing, is answered without any call and without any change of
    state: a question that is not a string, is blank, or is longer than
    2000 code units once trimmed gets status 400 whatever the
    configuration; an error message with status 500 means that the
    question was accepted and a credential is not set. *)
Theorem rejected_request_changes_nothing E request w :
  (forall question,
     request = Returns (BodyWith question) ->
     invalidQuestion question = true
     \/ (exists q, question = VStr q /\ 2000 < length (trim q)) ->
     exists msg,
       POST E request w = (Ok (jsonStatus (ErrorBody msg) 400), w))
  /\ (forall reply w' msg,
        POST E request w = (Ok reply, w') ->
        body reply = ErrorBody msg ->
        w' = w
        /\ ((status reply = 400
             /\ exists question,
                  request = Returns (BodyWith question)
                  /\ (invalidQuestion question = true
                      \/ exists q, question = VStr q
                                   /\ 2000 < length (trim q)))
            \/ (status reply = 500
                /\ ~ credentials E
                /\ exists q, request = Returns (BodyWith (VStr q))
                             /\ accepted q))).
Proof.
  destruct (POST_run E request w) as (reply & evs & n & Hrun & Hout).
  assert (Hsame : evs = [] -> n = 0 ->
            {| clock := clock w + n; tracker := tracker w; disk := disk w;
               current := current w; trace := trace w ++ evs |} = w).
  { intros -> ->. destruct w; simpl. rewrite Nat.add_0_r, app_nil_r.
    reflexivity. }
  split.
  - intros question -> Hbad. rewrite Hrun.
    inversion Hout; subst;
      try (exfalso;
           match goal with
           | H : accepted _ |- _ => destruct H as [Hv Hl]
           end;
           destruct Hbad as [Hbad|(q' & [= <-] & Hbad)];
           [congruence|lia]).
    + eexists. f_equal. apply Hsame; reflexivity.
    + eexists. f_equal. apply Hsame; reflexivity.
  - intros reply0 w' msg Hrun' Hbody. rewrite Hrun in Hrun'.
    injection Hrun' as <- <-.
    destruct Hout; simpl in Hbody; try discriminate; simpl;
      (split; [apply Hsame; reflexivity|]).
    + left. split; [reflexivity|]. eauto.
    + left. split; [reflexivity|]. eauto 6.
    + right. split; [reflexivity|]. split; [|eauto].
      intros (Hg & _); congruence.
    + right. split; [reflexivity|]. split; [|eauto].
      intros (_ & Hk & Hi). destruct H1; congruence.
Qed.

(** X18.  An error thrown while a question is handled is answered with status
    500 and logged once, after the calls already made.  The calls stop
    at the failing step: unless the error is the store's or the
    generator's, the store was not queried; unless it is the
    generator's, the generator was not called. *)
Theorem query_failure_stops_the_calls E request w reply w' e :
  POST E request w = (Ok reply, w') ->
  body reply = ErrorThrown e ->
  status reply = 500
  /\ exists calls,
       newEvents w w' = calls ++ [(current w, EvLog (LogQueryError e))]
       /\ logs calls = []
       /\ ((forall msg, e <> External FromQuery msg) ->
           (forall msg, e <> External FromGenerate msg) ->
           Forall (fun se => isRetrieval se.2 = false) calls)
       /\ ((forall msg, e <> External FromGenerate msg) ->
           forall p, ~ In (EvGenerate p) calls.*2).
Proof.
  intros Hrun Hbody.
  destruct (POST_run E request w) as (reply0 & evs & n & Hrun0 & Hout).
  rewrite Hrun in Hrun0. injection Hrun0 as <- ->.
  rewrite (newEvents_app _ _ evs) by reflexivity.
  destruct Hout; simpl in Hbody; try discriminate;
    injection Hbody as <-; (split; [reflexivity|]).
  - exists []. repeat split; auto; intros _ p [].
  - exists []. repeat split; auto; intros _ p [].
  - eexists [_]. split; [reflexivity|]. split; [reflexivity|]. split.
    + intros _ _. repeat constructor.
    + intros _ p [[=]|[]].
  - eexists [_; _]. split; [reflexivity|]. split; [reflexivity|]. split.
    + intros Hq; exfalso; eapply Hq; reflexivity.
    + intros _ p [[=]|[[=]|[]]].
  - eexists [_; _; _]. split; [reflexivity|]. split; [reflexivity|]. split.
    + intros _ Hg; exfalso; eapply Hg; reflexivity.
    + intros Hg; exfalso; eapply Hg; reflexivity.
Qed.

Lemma query_failure_stops_the_calls_witness :
  status (jsonStatus (ErrorThrown (External FromFetch (js "ECONNRESET"))) 500)
  = 500
  /\ exists calls,
       newEvents Sample.start
         (POST (flaky 0)
            (Returns (BodyWith (VStr (js "How many vacation days do I get?"))))
            Sample.start).2
       = calls ++ [(None, EvLog (LogQueryError
                                   (External FromFetch (js "ECONNRESET"))))]
       /\ logs calls = []
       /\ ((forall msg, External FromFetch (js "ECONNRESET")
                        <> External FromQuery msg) ->
           (forall msg, External FromFetch (js "ECONNRESET")
                        <> External FromGenerate msg) ->
           Forall (fun se => isRetrieval se.2 = false) calls)
       /\ ((forall msg, External FromFetch (js "ECONNRESET")
                        <> External FromGenerate msg) ->
           forall p, ~ In (EvGenerate p) calls.*2).
Proof.
  exact (query_failure_stops_the_calls (flaky 0)
           (Returns (BodyWith (VStr (js "How many vacation days do I get?"))))
           Sample.start _ _ (External FromFetch (js "ECONNRESET"))
           eq_refl eq_refl).
Defined.

(** X19.  An answer that reports retrieved chunks is the generator's output
    for the prompt built from the trimmed question and from the matches
    that the store returned for the question's vector; the handler made
    exactly three calls, in this order: embedding, store query,
    generation. *)
Theorem answer_is_generated_from_the_matches E request w reply w' success
    answer sources n :
  POST E request w = (Ok reply, w') ->
  body reply = AnswerBody success answer sources n ->
  n <> 0 ->
  exists q v ms,
    request = Returns (BodyWith (VStr q))
    /\ accepted q
    /\ outcome E (clock w) (embedder E) (trim q) = Ok v
    /\ query E (S (clock w)) v TOP_K = Returns (Some ms)
    /\ n = length ms
    /\ generateContent E (S (S (clock w))) (promptFor q ms) = Returns answer
    /\ sources = uniqueSources (List.map describe ms)
    /\ newEvents w w'
       = [(current w, EvFetch (GeminiEmbeddings.request (embedder E) (trim q)));
          (current w, EvQuery v TOP_K);
          (current w, EvGenerate (promptFor q ms))].
Proof.
  intros Hrun Hbody Hn.
  destruct (POST_run E request w) as (reply0 & evs & k & Hrun0 & Hout).
  rewrite Hrun in Hrun0. injection Hrun0 as <- ->.
  rewrite (newEvents_app _ _ evs) by reflexivity.
  destruct Hout; simpl in Hbody; try discriminate;
    injection Hbody as <- <- <- <-; [congruence|].
  exists q, v, ms. repeat split; auto; apply H.
Qed.

Lemma answer_is_generated_from_the_matches_witness :
  exists q v ms,
    Returns (BodyWith (VStr (js "How many vacation days do I get?")))
    = Returns (BodyWith (VStr q))
    /\ accepted q
    /\ outcome answering (clock Sample.start) (embedder answering) (trim q)
       = Ok v
    /\ query answering (S (clock Sample.start)) v TOP_K = Returns (Some ms)
    /\ 3 = length ms
    /\ generateContent answering (S (S (clock Sample.start))) (promptFor q ms)
       = Returns (js "20 days.")
    /\ uniqueSources (List.map describe threeMatches)
       = uniqueSources (List.map describe ms)
    /\ newEvents Sample.start
         (POST answering
            (Returns (BodyWith (VStr (js "How many vacation days do I get?"))))
            Sample.start).2
       = [(current Sample.start, EvFetch (request (embedder answering) (trim q)));
          (current Sample.start, EvQuery v TOP_K);
          (current Sample.start, EvGenerate (promptFor q ms))].
Proof.
  refine (answer_is_generated_from_the_matches answering
            (Returns (BodyWith (VStr (js "How many vacation days do I get?"))))
            Sample.start _ _ true (js "20 days.")
            (uniqueSources (List.map describe threeMatches)) 3
            eq_refl eq_refl _).
  discriminate.
Defined.

End PostTheorems.

(* ===================================================================== *)
(** ** The two paths *)
(* ===================================================================== *)

Module PathTheorems.
Import GeminiEmbeddings Ingest IngestSpec IngestFacts Query.
Import PipelineSpec EventFacts PostFacts.

(** X13.  Questions are embedded in the space of the chunks: every embedding
    request of an ingestion run and every embedding request of the query
    handler asks for the model [gemini-embedding-001] with 1024
    dimensions under the configured key, whatever the documents, the
    question, and whatever fails on the way. *)
Theorem one_embedding_space E body w :
  Forall (pipelineRequest E) (fetches (newEvents w (ingestAllPdfs E w).2))
  /\ Forall (pipelineRequest E) (fetches (newEvents w (POST E body w).2)).
Proof.
  split.
  - destruct (emitsOnly_ingestAllPdfs
                (fun e => match e with
                          | EvFetch q => pipelineRequest E q
                          | _ => True
                          end) E) with (w := w) as (evs & Htr & Hevs);
      try (intros; exact I).
    + intros text _. repeat split.
    + rewrite (newEvents_app _ _ _ Htr). apply emitsOnly_fetches, Hevs.
  - destruct (POST_run E body w) as (reply & evs & n & Hrun & Hout).
    rewrite Hrun. rewrite (newEvents_app _ _ evs) by reflexivity.
    destruct Hout; simpl; repeat constructor.
Qed.

(** X15.  The ingestion writes and never retrieves; the query handler
    retrieves and never writes.  An ingestion run makes no query of the
    vector store and no call of the answer generator.  A call of the
    query handler makes no write to the vector store, no write of the
    tracker and creates no folder, and leaves the tracker as it is. *)
Theorem paths_are_separate E body w :
  Forall (fun se => isRetrieval se.2 = false)
         (newEvents w (ingestAllPdfs E w).2)
  /\ Forall (fun se => isWrite se.2 = false) (newEvents w (POST E body w).2)
  /\ tracker (POST E body w).2 = tracker w
  /\ disk (POST E body w).2 = disk w.
Proof.
  split.
  - destruct (emitsOnly_ingestAllPdfs (fun e => isRetrieval e = false) E)
      with (w := w) as (evs & Htr & Hevs); try (intros; reflexivity).
    rewrite (newEvents_app _ _ _ Htr). exact Hevs.
  - destruct (POST_run E body w) as (reply & evs & n & Hrun & Hout).
    rewrite Hrun. rewrite (newEvents_app _ _ evs) by reflexivity.
    split; [|split; reflexivity].
    destruct Hout; simpl; repeat constructor.
Qed.

End PathTheorems.

(* ===================================================================== *)
(** ** The tracker over a run *)
(* ===================================================================== *)

Module LedgerFacts.
Import GeminiEmbeddings GeminiSpec Ingest IngestSpec IngestFacts.
Import RunFacts PipelineSpec.

Lemma notRecorded_not_success name l n k p :
  notRecorded name l -> l <> LogIngested n k p.
Proof. intros [->|[->|(e & -> & _)]]; discriminate. Qed.

Lemma notRecorded_not_write name l n msg :
  notRecorded name l -> l <> LogFailed n (External FromWriteFile msg).
Proof.
  intros [->|[->|(e & -> & He)]]; try discriminate.
  intros [= _ ->]. eapply He; reflexivity.
Qed.


Lemma ingestOne_ledger E name w :
  exists w' evs,
    ingestOne E name w = (Ok tt, w')
    /\ trace w' = trace w ++ evs
    /\ ledgerStep E name w w' (logs evs).
Proof.
  destruct (ingestOne_cases E name w) as (w' & evs & Hrun & Htr & _ & _ & Hout).
  exists w', ((Some name, EvLog (LogProcessing name)) :: evs).
  split; [exact Hrun|]. split; [exact Htr|].
  destruct Hout as [l Hl Ht Hd|e calls Hp He Ht Hd
                   |calls chunks stats pages at_ saved Hp Hch Hne Hst Hb Hf
                      Ht Hd].
  - apply ledger_same; auto. unfold notRecorded. tauto.
  - simpl. rewrite logs_app, provider_not_log by exact Hp. simpl.
    apply ledger_same; auto. unfold notRecorded. eauto.
  - simpl. rewrite logs_app, provider_not_log by exact Hp. simpl.
    assert (Hentry : entryFor E name
              {| filename := name; size := st_size stats;
                 lastModified := st_mtimeMs stats; ingestedAt := at_;
                 chunkCount := length chunks; pageCount := pages |}).
    { split; [reflexivity|]. split; [exists stats; auto|].
      exists chunks; auto. }
    destruct saved as [msg|].
    + eapply ledger_unsaved; eauto.
    + eapply (ledger_saved _ _ _ _ _ Hentry); eauto.
Qed.

Lemma upToDate_insert E name record n t :
  entryFor E name record ->
  upToDate E n t ->
  upToDate E n (<[name := record]> t).
Proof.
  intros Hentry (r & Hr & Hn). destruct (decide (name = n)) as [->|Hne].
  - exists record. rewrite lookup_insert_eq. auto.
  - exists r. rewrite lookup_insert_ne by exact Hne. auto.
Qed.

(** The loop over the documents to ingest, as the tracker sees it. *)
Lemma ingestEach_ledger E names w :
  exists w' evs,
    ingestEach E names w = (Ok tt, w')
    /\ trace w' = trace w ++ evs
    /\ (forall P : TrackerData -> TrackerFile -> Prop,
          (forall name record t d,
             In name names -> entryFor E name record -> P t d ->
             P (<[name := record]> t) d
             /\ P (<[name := record]> t) (Stored (<[name := record]> t))) ->
          P (tracker w) (disk w) -> P (tracker w') (disk w'))
    /\ (forall name k p,
          In (LogIngested name k p) (logs evs) ->
          (upToDate E name (tracker w')
           /\ upToDate E name (fileData (disk w')))
          /\ exists chunks,
               documentChunks E name = Some chunks /\ k = length chunks)
    /\ ((forall name k p, ~ In (LogIngested name k p) (logs evs)) ->
        disk w' = disk w).
Proof.
  revert w; induction names as [|name rest IH]; intros w.
  - exists w, []. rewrite app_nil_r. repeat split; auto; contradiction.
  - destruct (ingestOne_ledger E name w) as (w1 & evs1 & Hrun1 & Htr1 & Hstep).
    destruct (IH w1) as (w2 & evs2 & Hrun2 & Htr2 & Hinv & Hing & Hnone).
    exists w2, (evs1 ++ evs2).
    split; [simpl; unfold mbind, M_bind; rewrite Hrun1; exact Hrun2|].
    split; [rewrite Htr2, Htr1, app_assoc; reflexivity|].
    assert (Hinv1 : forall P : TrackerData -> TrackerFile -> Prop,
               (forall n record t d,
                  In n (name :: rest) -> entryFor E n record -> P t d ->
                  P (<[n := record]> t) d
                  /\ P (<[n := record]> t) (Stored (<[n := record]> t))) ->
               P (tracker w) (disk w) -> P (tracker w1) (disk w1)).
    { intros P HP H0.
      destruct Hstep as [l Hl Ht Hd|record Hentry Ht Hd|record msg Hentry Ht Hd].
      - rewrite Ht, Hd; exact H0.
      - rewrite Hd, Ht. eapply HP; eauto. left; reflexivity.
      - rewrite Hd, Ht. eapply HP; eauto. left; reflexivity. }
    split; [|split].
    + intros P HP H0. apply Hinv.
      * intros n record t d Hn. apply HP. right; exact Hn.
      * apply Hinv1; assumption.
    + intros n k p Hin. rewrite logs_app in Hin.
      apply in_app_or in Hin as [Hin|Hin]; [|eapply Hing; exact Hin].
      assert (H1 : (upToDate E n (tracker w1)
                    /\ upToDate E n (fileData (disk w1)))
                   /\ exists chunks,
                        documentChunks E n = Some chunks
                        /\ k = length chunks).
      { destruct Hstep as [l Hl Ht Hd|record Hentry Ht Hd
                          |record msg Hentry Ht Hd].
        - exfalso. destruct Hin as [Hin|[Hin|[]]]; [discriminate|].
          eapply notRecorded_not_success; eauto.
        - destruct Hin as [Hin|[Hin|[]]]; [discriminate|].
          injection Hin as <- <- _.
          rewrite Hd. simpl. rewrite Ht.
          split; [split; exists record; rewrite lookup_insert_eq; auto|].
          apply Hentry.
        - destruct Hin as [Hin|[Hin|[]]]; discriminate. }
      destruct H1 as [H1 Hk]. split; [|exact Hk].
      apply (Hinv (fun t d => upToDate E n t /\ upToDate E n (fileData d)));
        [|exact H1].
      intros n' record t d _ Hentry [Ht Hd]. simpl.
      repeat split; try exact Hd;
        eapply upToDate_insert; eauto.
    + intros Hno.
      assert (Hno1 : forall n k p, ~ In (LogIngested n k p) (logs evs1)).
      { intros n k p Hin. eapply Hno. rewrite logs_app.
        apply in_or_app; left; exact Hin. }
      assert (Hno2 : forall n k p, ~ In (LogIngested n k p) (logs evs2)).
      { intros n k p Hin. eapply Hno. rewrite logs_app.
        apply in_or_app; right; exact Hin. }
      rewrite (Hnone Hno2). clear Hno.
      destruct Hstep as [l Hl Ht Hd|record Hentry Ht Hd
                        |record msg Hentry Ht Hd]; auto.
      exfalso. eapply Hno1. right; left; reflexivity.
Qed.


(** A whole run either leaves the tracker file alone and processes no
    document, or loads the tracker and loops over the changed
    documents. *)
Lemma ingestAllPdfs_shape E w r w' :
  ingestAllPdfs E w = (r, w') ->
  exists evs,
    trace w' = trace w ++ evs
    /\ ((disk w' = disk w
         /\ (forall name, ~ In (LogProcessing name) (logs evs))
         /\ (forall name k p, ~ In (LogIngested name k p) (logs evs))
         /\ (forall name l, notRecorded name l -> ~ In l (logs evs)))
        \/ exists sel w1 w2 evs2,
             ingestEach E sel w1 = (Ok tt, w2)
             /\ sel = List.filter (changed E (loadedTracker w)) (pdfFiles E)
             /\ tracker w1 = loadedTracker w
             /\ disk w1 = disk w
             /\ trace w2 = trace w1 ++ evs2
             /\ tracker w' = tracker w2
             /\ disk w' = disk w2
             /\ logs evs
                = LogIngesting (length sel) :: logs evs2 ++ [LogComplete]
             /\ (forall name,
                   In (LogProcessing name) (logs evs2) <-> In name sel)
             /\ r = Ok tt
             /\ exists outcomes,
                  Forall2 closes sel outcomes
                  /\ logs evs2 = account sel outcomes).
Proof.
  assert (Hplain : forall l,
             (l = LogNoCredentials \/ l = LogCreatedDir \/ l = LogNoPdfs
              \/ l = LogAllIngested (pdfFiles E)) ->
             forall name, ~ notRecorded name l).
  { intros l Hl name [H|[H|(e & H & _)]]; subst l;
      destruct Hl as [Hl|[Hl|[Hl|Hl]]]; discriminate. }
  assert (Hquiet : forall l (w0 : World),
             disk w0 = disk w -> trace w0 = trace w ->
             (forall name, l <> LogProcessing name) ->
             (forall name k p, l <> LogIngested name k p) ->
             (forall name, ~ notRecorded name l) ->
             exists evs,
               trace (record_event (EvLog l) w0) = trace w ++ evs
               /\ ((disk (record_event (EvLog l) w0) = disk w
                    /\ (forall name, ~ In (LogProcessing name) (logs evs))
                    /\ (forall name k p,
                          ~ In (LogIngested name k p) (logs evs))
                    /\ (forall name l',
                          notRecorded name l' -> ~ In l' (logs evs)))
                   \/ exists sel w1 w2 evs2,
                        ingestEach E sel w1 = (Ok tt, w2)
                        /\ sel = List.filter (changed E (loadedTracker w))
                                   (pdfFiles E)
                        /\ tracker w1 = loadedTracker w
                        /\ disk w1 = disk w
                        /\ trace w2 = trace w1 ++ evs2
                        /\ tracker (record_event (EvLog l) w0) = tracker w2
                        /\ disk (record_event (EvLog l) w0) = disk w2
                        /\ logs evs
                           = LogIngesting (length sel)
                             :: logs evs2 ++ [LogComplete]
                        /\ (forall name,
                              In (LogProcessing name) (logs evs2)
                              <-> In name sel)
                        /\ (Ok tt : Res unit) = Ok tt
                        /\ exists outcomes,
                             Forall2 closes sel outcomes
                             /\ logs evs2 = account sel outcomes)).
  { intros l w0 Hd Ht Hl1 Hl2 Hl3. exists [(current w0, EvLog l)].
    split; [simpl; rewrite Ht; reflexivity|]. left.
    split; [exact Hd|]. split; [|split].
    - intros name [H|[]]. eapply Hl1; eauto.
    - intros name k p [H|[]]. eapply Hl2; eauto.
    - intros name l' Hl' [H|[]]. subst l'. eapply Hl3; eauto. }
  unfold ingestAllPdfs. intros Hrun.
  destruct (_ || _); simpl in Hrun.
  { injection Hrun as <- <-.
    apply Hquiet; auto; try discriminate; apply Hplain; auto. }
  destruct (pdfsDirExists E); simpl in Hrun.
  2:{ injection Hrun as <- <-.
      exists [(current w, EvMkdir); (current w, EvLog LogCreatedDir)].
      split; [simpl; rewrite <- app_assoc; reflexivity|]. left.
      split; [reflexivity|]. split; [|split].
      - intros name [H|[]]; discriminate.
      - intros name k p [H|[]]; discriminate.
      - intros name l' Hl' [H|[]]. subst l'.
        eapply (Hplain LogCreatedDir); [right; left; reflexivity|exact Hl']. }
  destruct (length (pdfFiles E) =? 0).
  { injection Hrun as <- <-.
    apply Hquiet; auto; try discriminate; apply Hplain; auto. }
  unfold mbind, M_bind in Hrun. rewrite RunTheorems.loadTracker_run in Hrun.
  simpl in Hrun.
  set (w0 := {| clock := clock w; tracker := loadedTracker w; disk := disk w;
                current := current w; trace := trace w |}) in *.
  destruct (selectToIngest_spec E (loadedTracker w) (pdfFiles E) w0)
    as (rs & Hsel & Hfuel & Hfilter & _).
  rewrite Hsel in Hrun.
  destruct rs as [sel|e|]; [| |congruence].
  2:{ injection Hrun as <- <-. exists []. rewrite app_nil_r.
      split; [reflexivity|]. left. repeat split; auto. }
  specialize (Hfilter sel eq_refl).
  destruct (length sel =? 0).
  { injection Hrun as <- <-.
    apply (Hquiet (LogAllIngested (pdfFiles E)) w0); auto; try discriminate;
      apply Hplain; auto. }
  simpl in Hrun.
  destruct (ingestEach_spec E sel
              (record_event (EvLog (LogIngesting (length sel))) w0))
    as (w2 & evs & outcomes & Hrun2 & Htr & _ & Hcl & Hlog).
  unfold processAll, mbind, M_bind in Hrun.
  pose proof Hrun2 as Hrun2'.
  unfold record_event in Hrun2', Htr. subst w0. simpl in Hrun2', Htr.
  rewrite Hrun2' in Hrun. injection Hrun as <- <-.
  exists ((current w, EvLog (LogIngesting (length sel)))
          :: evs ++ [(current w2, EvLog LogComplete)]).
  split; [simpl; rewrite Htr, <- !app_assoc; reflexivity|]. right.
  exists sel; eexists; exists w2, evs.
  split; [exact Hrun2|]. split; [exact Hfilter|].
  split; [reflexivity|]. split; [reflexivity|].
  split; [simpl; rewrite Htr, <- app_assoc; reflexivity|].
  split; [reflexivity|]. split; [reflexivity|]. split; [|split].
  - change (logs ((current w, EvLog (LogIngesting (length sel))) :: ?l))
      with (LogIngesting (length sel) :: logs l).
    rewrite logs_app. reflexivity.
  - intros name. rewrite Hlog.
    apply RunTheorems.account_processing, Hcl.
  - split; [reflexivity|]. exists outcomes; auto.
Qed.

Lemma wellKeyed_insert E name record t :
  entryFor E name record -> wellKeyed t -> wellKeyed (<[name := record]> t).
Proof.
  intros [Hname _] Ht n record'.
  destruct (decide (name = n)) as [->|Hne].
  - rewrite lookup_insert_eq. intros [= <-]. exact Hname.
  - rewrite lookup_insert_ne by exact Hne. apply Ht.
Qed.

Lemma run_keeps_wellKeyed E w r w' :
  ingestAllPdfs E w = (r, w') ->
  wellKeyed (loadedTracker w) -> wellKeyed (loadedTracker w').
Proof.
  intros Hrun Hwf.
  destruct (ingestAllPdfs_shape E w r w' Hrun) as (evs & Htr & Hshape).
  destruct Hshape as [(Hd & _ & _)
                     |(sel & w1 & w2 & evs2 & Hloop & _ & Ht1 & Hd1 & Htr2
                       & _ & Hd' & _)].
  { unfold loadedTracker in *. rewrite Hd. exact Hwf. }
  destruct (ingestEach_ledger E sel w1)
    as (w2' & evs2' & Hloop' & _ & Hinv & _).
  rewrite Hloop in Hloop'. injection Hloop' as <-.
  change (loadedTracker w') with (fileData (disk w')).
  change (loadedTracker w) with (fileData (disk w)) in *.
  rewrite Hd'.
  apply (Hinv (fun t d => wellKeyed t /\ wellKeyed (fileData d))).
  - intros n record t d _ Hentry [Ht Hd]. simpl.
    repeat split; eauto using wellKeyed_insert.
  - rewrite Ht1, Hd1. auto.
Qed.







(** One pass, as the tracker file sees it.  Either it attempts no write
    and leaves the tracker and its file alone; or it sets the document's
    entry and attempts one write, of the tracker so extended, and after
    an accepted write the file holds what was written. *)
Lemma ingestOne_writes E name w :
  exists w' evs,
    ingestOne E name w = (Ok tt, w')
    /\ trace w' = trace w ++ evs
    /\ ((trackerWrites evs = [] /\ tracker w' = tracker w
         /\ disk w' = disk w)
        \/ exists record ok,
             entryFor E name record
             /\ tracker w' = <[name := record]> (tracker w)
             /\ trackerWrites evs = [(tracker w', ok)]
             /\ (ok = true -> disk w' = Stored (tracker w'))).
Proof.
  destruct (ingestOne_cases E name w) as (w' & evs & Hrun & Htr & _ & _ & Hout).
  exists w', ((Some name, EvLog (LogProcessing name)) :: evs).
  split; [exact Hrun|]. split; [exact Htr|].
  change (trackerWrites ((Some name, EvLog (LogProcessing name)) :: evs))
    with (trackerWrites evs).
  destruct Hout as [l Hl Ht Hd|e calls Hp He Ht Hd
                   |calls chunks stats pages at_ saved Hp Hch Hne Hst Hb Hf
                      Ht Hd].
  - left. auto.
  - left. rewrite trackerWrites_app, provider_not_write by exact Hp. auto.
  - right.
    exists {| filename := name; size := st_size stats;
              lastModified := st_mtimeMs stats; ingestedAt := at_;
              chunkCount := length chunks; pageCount := pages |},
      (bool_decide (saved = None)).
    split; [|split; [exact Ht|split]].
    + split; [reflexivity|]. split; [exists stats; auto|].
      exists chunks; auto.
    + rewrite trackerWrites_app, provider_not_write by exact Hp. reflexivity.
    + intros Hok. destruct saved as [msg|]; [discriminate|exact Hd].
Qed.

(** The loop over the documents, as the tracker file sees it: what
    holds of the tracker at the start and is kept by setting an entry
    holds of every tracker written and of the tracker at the end; a loop
    without a write leaves the tracker and its file alone; and the last
    write carries the tracker that the loop leaves, which is what the
    file holds if this write was accepted. *)
Lemma ingestEach_writes E names w :
  exists w' evs,
    ingestEach E names w = (Ok tt, w')
    /\ trace w' = trace w ++ evs
    /\ (forall P : TrackerData -> Prop,
          (forall name record t,
             In name names -> entryFor E name record -> P t ->
             P (<[name := record]> t)) ->
          P (tracker w) ->
          Forall (fun wr => P wr.1) (trackerWrites evs) /\ P (tracker w'))
    /\ (trackerWrites evs = [] -> tracker w' = tracker w /\ disk w' = disk w)
    /\ (forall t ok,
          last (trackerWrites evs) = Some (t, ok) ->
          tracker w' = t /\ (ok = true -> disk w' = Stored t)).
Proof.
  revert w; induction names as [|name rest IH]; intros w.
  - exists w, []. rewrite app_nil_r. simpl.
    split; [reflexivity|]. split; [reflexivity|]. split; [|split].
    + intros P _ H0. split; [constructor|exact H0].
    + auto.
    + intros t ok H; discriminate H.
  - destruct (ingestOne_writes E name w) as (w1 & evs1 & Hrun1 & Htr1 & Hstep).
    destruct (IH w1) as (w2 & evs2 & Hrun2 & Htr2 & Hinv & Hnone & Hlast).
    exists w2, (evs1 ++ evs2).
    split; [simpl; unfold mbind, M_bind; rewrite Hrun1; exact Hrun2|].
    split; [rewrite Htr2, Htr1, app_assoc; reflexivity|].
    rewrite trackerWrites_app. split; [|split].
    + intros P HP H0.
      assert (H1 : Forall (fun wr => P wr.1) (trackerWrites evs1)
                   /\ P (tracker w1)).
      { destruct Hstep as [(Hw & Ht & _)|(record & ok & Hentry & Ht & Hw & _)].
        - rewrite Hw, Ht. split; [constructor|exact H0].
        - assert (Hp : P (tracker w1)).
          { rewrite Ht. apply HP; auto. left; reflexivity. }
          rewrite Hw. split; [|exact Hp].
          constructor; [exact Hp|constructor]. }
      destruct H1 as [Hf1 Hp1].
      destruct (Hinv P) as [Hf2 Hp2]; [|exact Hp1|].
      { intros n record t Hn. apply HP. right; exact Hn. }
      split; [apply Forall_app; split; assumption|exact Hp2].
    + intros Hnil. apply app_eq_nil in Hnil as [Hnil1 Hnil2].
      destruct (Hnone Hnil2) as [Ht2 Hd2]. rewrite Ht2, Hd2.
      destruct Hstep as [(_ & Ht & Hd)|(record & ok & _ & _ & Hw & _)]; auto.
      rewrite Hw in Hnil1. discriminate.
    + intros t ok Hl. rewrite last_app in Hl.
      destruct (last (trackerWrites evs2)) as [wr|] eqn:Hl2.
      * injection Hl as ->. apply Hlast. reflexivity.
      * assert (Hnil2 : trackerWrites evs2 = []).
        { destruct (trackerWrites evs2) as [|x l] using rev_ind;
            [reflexivity|]. rewrite last_snoc in Hl2. discriminate. }
        destruct (Hnone Hnil2) as [Ht2 Hd2]. rewrite Ht2, Hd2.
        destruct Hstep as [(Hw & _)|(record & ok' & _ & _ & Hw & Hd)].
        -- rewrite Hw in Hl. discriminate.
        -- rewrite Hw in Hl. injection Hl as <- <-. auto.
Qed.

(** The tracker writes of a whole run: there is none and the file is
    left alone, or they are those of the loop over the changed
    documents, which starts from the tracker that the file held. *)
Lemma ingestAllPdfs_writes E w r w' :
  ingestAllPdfs E w = (r, w') ->
  (trackerWrites (newEvents w w') = [] /\ disk w' = disk w
   /\ forall name, ~ In (LogProcessing name) (logs (newEvents w w')))
  \/ exists sel w1 w2,
       ingestEach E sel w1 = (Ok tt, w2)
       /\ tracker w1 = loadedTracker w
       /\ disk w1 = disk w
       /\ disk w' = disk w2
       /\ tracker w' = tracker w2
       /\ trackerWrites (newEvents w w') = trackerWrites (newEvents w1 w2)
       /\ forall name,
            In (LogProcessing name) (logs (newEvents w w')) <-> In name sel.
Proof.
  assert (Hquiet : forall l,
             (forall name, l <> LogProcessing name) ->
             trackerWrites (newEvents w (record_event (EvLog l) w)) = []
             /\ disk (record_event (EvLog l) w) = disk w
             /\ forall name,
                  ~ In (LogProcessing name)
                       (logs (newEvents w (record_event (EvLog l) w)))).
  { intros l Hl.
    rewrite (newEvents_app _ _ [(current w, EvLog l)]) by reflexivity.
    split; [reflexivity|]. split; [reflexivity|].
    intros name [H|[]]. eapply Hl; eauto. }
  unfold ingestAllPdfs. intros Hrun.
  destruct (_ || _); simpl in Hrun.
  { injection Hrun as <- <-. left. apply Hquiet. discriminate. }
  destruct (pdfsDirExists E); simpl in Hrun.
  2:{ injection Hrun as <- <-. left.
      rewrite (newEvents_app _ _ [(current w, EvMkdir);
                                  (current w, EvLog LogCreatedDir)])
        by (simpl; rewrite <- app_assoc; reflexivity).
      split; [reflexivity|]. split; [reflexivity|].
      intros name [H|[]]; discriminate. }
  destruct (length (pdfFiles E) =? 0).
  { injection Hrun as <- <-. left. apply Hquiet. discriminate. }
  unfold mbind, M_bind in Hrun. rewrite RunTheorems.loadTracker_run in Hrun.
  simpl in Hrun.
  set (w0 := {| clock := clock w; tracker := loadedTracker w; disk := disk w;
                current := current w; trace := trace w |}) in *.
  destruct (selectToIngest_spec E (loadedTracker w) (pdfFiles E) w0)
    as (rs & Hsel & Hfuel & Hfilter & _).
  rewrite Hsel in Hrun.
  destruct rs as [sel|e|]; [| |congruence].
  2:{ injection Hrun as <- <-. left.
      rewrite (newEvents_app _ _ []) by (simpl; rewrite app_nil_r; reflexivity).
      split; [reflexivity|]. split; [reflexivity|]. intros name []. }
  destruct (length sel =? 0).
  { injection Hrun as <- <-. left.
    rewrite (newEvents_app _ _ [(current w, EvLog (LogAllIngested (pdfFiles E)))])
      by reflexivity.
    split; [reflexivity|]. split; [reflexivity|].
    intros name [H|[]]; discriminate. }
  simpl in Hrun.
  destruct (ingestEach_spec E sel
              (record_event (EvLog (LogIngesting (length sel))) w0))
    as (w2 & evs & outcomes & Hrun2 & Htr & _ & Hcl & Hlog).
  unfold processAll, mbind, M_bind in Hrun.
  pose proof Hrun2 as Hrun2'. pose proof Htr as Htr'.
  unfold record_event in Hrun2', Htr'. subst w0. simpl in Hrun2', Htr'.
  rewrite Hrun2' in Hrun. injection Hrun as <- <-.
  right. exists sel; eexists; exists w2.
  split; [exact Hrun2|]. split; [reflexivity|]. split; [reflexivity|].
  split; [reflexivity|]. split; [reflexivity|].
  rewrite (newEvents_app _ w2 evs) by exact Htr.
  rewrite (newEvents_app w _
             ((current w, EvLog (LogIngesting (length sel)))
              :: evs ++ [(current w2, EvLog LogComplete)]))
    by (simpl; rewrite Htr', <- !app_assoc; reflexivity).
  split.
  - change (trackerWrites ((current w, EvLog (LogIngesting (length sel))) :: ?l))
      with (trackerWrites l).
    rewrite trackerWrites_app. simpl. rewrite app_nil_r. reflexivity.
  - intros name.
    change (logs ((current w, EvLog (LogIngesting (length sel))) :: ?l))
      with (LogIngesting (length sel) :: logs l).
    rewrite logs_app, Hlog. simpl.
    rewrite <- (RunTheorems.account_processing sel outcomes name Hcl). split.
    + intros [H|H]; [discriminate|].
      apply in_app_or in H as [H|[H|[]]]; [exact H|discriminate].
    + intros H; right; apply in_or_app; auto.
Qed.

(** The filter returns a list only if [statSync] answered for every
    file of the listing. *)
Lemma selectToIngest_Ok E t names w sel :
  (selectToIngest E t names w).1 = Ok sel ->
  Forall (fun name => exists stats, statSync E name = Returns stats) names.
Proof.
  revert sel; induction names as [|name rest IH]; intros sel; simpl.
  - constructor.
  - unfold mbind, M_bind.
    destruct (statSync E name) as [stats|msg] eqn:Hst; simpl; [|discriminate].
    destruct (selectToIngest_spec E t rest w) as (r & Hrun & _).
    rewrite Hrun in *. simpl in *.
    destruct r as [sel'|e|]; simpl; try discriminate.
    intros _. constructor; [eauto|]. eapply IH; reflexivity.
Qed.

End LedgerFacts.

Module LedgerTheorems.
Import GeminiEmbeddings GeminiSpec Ingest IngestSpec IngestFacts.
Import RunFacts PipelineSpec LedgerFacts.

(** X9.  A run only adds to the tracker that it found.  Every write of the
    tracker file that a run attempts carries every entry that the file
    held when the run started, and carries unchanged the entry of every
    document that the run does not process.  A run that attempts no
    write leaves the file as it was, and when the last write of a run is
    accepted the file holds what this write carried.  So no entry is
    lost by a run that writes nothing or whose last write is accepted.
    The statement does not depend on what a refused write leaves in the
    file. *)
Theorem tracker_writes_keep_every_entry E w r w' :
  ingestAllPdfs E w = (r, w') ->
  let writes := trackerWrites (newEvents w w') in
  (forall t ok,
     In (t, ok) writes ->
     (forall name,
        is_Some (loadedTracker w !! name) -> is_Some (t !! name))
     /\ (forall name,
           ~ In (LogProcessing name) (logs (newEvents w w')) ->
           t !! name = loadedTracker w !! name))
  /\ (writes = [] -> disk w' = disk w)
  /\ (forall t, last writes = Some (t, true) -> disk w' = Stored t).
Proof.
  intros Hrun writes; subst writes.
  destruct (ingestAllPdfs_writes E w r w' Hrun)
    as [(Hw & Hd & _)|(sel & w1 & w2 & Hloop & Ht1 & Hd1 & Hd' & _ & Hw & Hproc)].
  { rewrite Hw. split; [intros t ok []|]. split; [auto|].
    intros t H; discriminate H. }
  destruct (ingestEach_writes E sel w1)
    as (w2' & evs2 & Hloop' & Htr2 & Hinv & Hnone & Hlast).
  rewrite Hloop in Hloop'. injection Hloop' as <-.
  rewrite Hw, (newEvents_app _ _ _ Htr2). split; [|split].
  - intros t ok Hin. split.
    + intros name Hsome.
      destruct (Hinv (fun t => is_Some (t !! name))) as [Hall _].
      * intros n record t0 _ _ Ht0. rewrite lookup_insert_is_Some.
        destruct (decide (n = name)); auto.
      * rewrite Ht1. exact Hsome.
      * rewrite List.Forall_forall in Hall. apply (Hall _ Hin).
    + intros name Hnot.
      assert (Hout : ~ In name sel) by (intros H; apply Hnot, Hproc, H).
      destruct (Hinv (fun t => t !! name = loadedTracker w !! name))
        as [Hall _].
      * intros n record t0 Hn _ Ht0.
        rewrite lookup_insert_ne by (intros ->; auto). exact Ht0.
      * rewrite Ht1. reflexivity.
      * rewrite List.Forall_forall in Hall. apply (Hall _ Hin).
  - intros Hnil. destruct (Hnone Hnil) as [_ Hd]. rewrite Hd', Hd. exact Hd1.
  - intros t Hl. destruct (Hlast t true Hl) as [_ Hd]. rewrite Hd'. auto.
Qed.

Lemma tracker_writes_keep_every_entry_witness :
  let w' := (ingestAllPdfs (diskFull 9) Sample.restart).2 in
  let writes := trackerWrites (newEvents Sample.restart w') in
  (forall t ok,
     In (t, ok) writes ->
     (forall name,
        is_Some (loadedTracker Sample.restart !! name) -> is_Some (t !! name))
     /\ (forall name,
           ~ In (LogProcessing name) (logs (newEvents Sample.restart w')) ->
           t !! name = loadedTracker Sample.restart !! name))
  /\ (writes = [] -> disk w' = disk Sample.restart)
  /\ (forall t, last writes = Some (t, true) -> disk w' = Stored t).
Proof.
  exact (tracker_writes_keep_every_entry (diskFull 9) Sample.restart _ _
           (surjective_pairing _)).
Defined.

(** X10.  The tracker file keeps every entry under the filename that the
    entry carries: a run that starts from such a file, or from no file or
    an unreadable one, leaves such a file. *)
Theorem tracker_entries_stay_under_their_filename E w r w' :
  ingestAllPdfs E w = (r, w') ->
  wellKeyed (loadedTracker w) ->
  wellKeyed (loadedTracker w')
  /\ wellKeyed (fileData Missing) /\ wellKeyed (fileData Unreadable).
Proof.
  intros Hrun Hwf.
  split; [|split; intros name record H; discriminate].
  eapply run_keeps_wellKeyed; eauto.
Qed.

Lemma tracker_entries_stay_under_their_filename_witness :
  wellKeyed (loadedTracker
               (ingestAllPdfs (Sample.env [0.5%float]) Sample.start).2)
  /\ wellKeyed (fileData Missing) /\ wellKeyed (fileData Unreadable).
Proof.
  apply (tracker_entries_stay_under_their_filename (Sample.env [0.5%float])
           Sample.start _ _ (surjective_pairing _)).
  intros name record H.
  change (loadedTracker Sample.start) with (∅ : TrackerData) in H.
  rewrite lookup_empty in H. discriminate H.
Defined.




(** X6.  A tracker write that fails is made up for by the next one that
    succeeds.  When the pass over a document fails in writing the
    tracker, the document's entry is in the tracker object and stays
    there through the passes that follow, whatever they do.  When a
    later pass prints its success line, the one write it makes is
    accepted and carries the entries of both documents, and the file
    then holds what was written.  The statement does not depend on what
    the refused write left in the file. *)
Theorem failed_tracker_write_is_made_up_later
    E n1 between n2 w r1 w1 r3 w3 msg k p :
  ingestOne E n1 w = (r1, w1) ->
  In (LogFailed n1 (External FromWriteFile msg)) (logs (newEvents w w1)) ->
  let w2 := (ingestEach E between w1).2 in
  ingestOne E n2 w2 = (r3, w3) ->
  In (LogIngested n2 k p) (logs (newEvents w2 w3)) ->
  upToDate E n1 (tracker w1)
  /\ upToDate E n1 (tracker w2)
  /\ trackerWrites (newEvents w2 w3) = [(tracker w3, true)]
  /\ disk w3 = Stored (tracker w3)
  /\ upToDate E n1 (tracker w3)
  /\ upToDate E n2 (tracker w3).
Proof.
  intros Hrun1 Hin1 w2 Hrun3 Hin3.
  destruct (ingestOne_ledger E n1 w) as (w1' & evs1 & Hrun1' & Htr1 & Hstep1).
  rewrite Hrun1 in Hrun1'. injection Hrun1' as -> <-.
  rewrite (newEvents_app _ _ _ Htr1) in Hin1.
  assert (Hup1 : upToDate E n1 (tracker w1)).
  { destruct Hstep1 as [l Hl Ht Hd|record Hentry Ht Hd
                       |record msg' Hentry Ht Hd].
    - exfalso. destruct Hin1 as [H|[H|[]]]; [discriminate|].
      eapply notRecorded_not_write; eauto.
    - destruct Hin1 as [H|[H|[]]]; discriminate.
    - exists record. rewrite Ht, lookup_insert_eq. auto. }
  assert (Hup2 : upToDate E n1 (tracker w2)).
  { destruct (ingestEach_writes E between w1)
      as (w2' & evs2 & Hloop & _ & Hinv & _).
    subst w2. rewrite Hloop. simpl.
    apply (Hinv (upToDate E n1)); [|exact Hup1].
    intros n record t _ Hentry Ht. eapply upToDate_insert; eauto. }
  destruct (ingestOne_cases E n2 w2)
    as (w3' & evs3 & Hrun3' & Htr3 & _ & _ & Hout).
  rewrite Hrun3 in Hrun3'. injection Hrun3' as -> <-.
  rewrite (newEvents_app _ _ _ Htr3) in *.
  destruct (IngestTheorems.pass_logs _ _ _ _ _ Hout) as (l & Hlogs & _ & Hsucc).
  simpl in Hin3. rewrite Hlogs in Hin3.
  destruct Hin3 as [Hin3|[Hin3|[]]]; [discriminate|subst l].
  destruct Hsucc as (calls & chunks & stats & pages' & at_ & -> & [= -> ->]
                     & Hp & Hch & Hne & Hst & Hb & Hf & Ht & Hd); eauto.
  split; [exact Hup1|]. split; [exact Hup2|]. split.
  { change (trackerWrites ((Some n2, EvLog (LogProcessing n2)) :: ?l))
      with (trackerWrites l).
    rewrite trackerWrites_app, (provider_not_write _ Hp). reflexivity. }
  split; [exact Hd|].
  assert (Hentry : entryFor E n2
            {| filename := n2; size := st_size stats;
               lastModified := st_mtimeMs stats; ingestedAt := at_;
               chunkCount := length chunks; pageCount := pages' |}).
  { split; [reflexivity|]. split; [exists stats; auto|].
    exists chunks; auto. }
  rewrite Ht. split.
  - eapply upToDate_insert; eauto.
  - eexists. rewrite lookup_insert_eq. split; [reflexivity|exact Hentry].
Qed.

Lemma failed_tracker_write_is_made_up_later_witness :
  let w1 := (ingestOne (diskFull 4) (js "a.pdf") Sample.start).2 in
  let w2 := (ingestEach (diskFull 4) [] w1).2 in
  let w3 := (ingestOne (diskFull 4) (js "b.pdf") w2).2 in
  upToDate (diskFull 4) (js "a.pdf") (tracker w1)
  /\ upToDate (diskFull 4) (js "a.pdf") (tracker w2)
  /\ trackerWrites (newEvents w2 w3) = [(tracker w3, true)]
  /\ disk w3 = Stored (tracker w3)
  /\ upToDate (diskFull 4) (js "a.pdf") (tracker w3)
  /\ upToDate (diskFull 4) (js "b.pdf") (tracker w3).
Proof.
  refine (failed_tracker_write_is_made_up_later (diskFull 4)
            (js "a.pdf") [] (js "b.pdf") Sample.start _ _ _ _
            (js "ENOSPC") 2 1
            (surjective_pairing _) _ (surjective_pairing _) _);
    vm_compute; auto.
Defined.



Lemma processed_account names outcomes :
  Forall2 closes names outcomes ->
  processed (account names outcomes) = names.
Proof.
  unfold account. induction 1 as [|n l names outcomes Hc _ IH]; simpl.
  - reflexivity.
  - f_equal.
    destruct Hc as [->|[->|[(k & p & ->)|(e & ->)]]]; exact IH.
Qed.

Lemma processed_app ls1 ls2 :
  processed (ls1 ++ ls2) = processed ls1 ++ processed ls2.
Proof. apply omap_app. Qed.

Lemma processed_In name ls :
  In name (processed ls) <-> In (LogProcessing name) ls.
Proof.
  unfold processed. rewrite <- !list_elem_of_In, list_elem_of_omap. split.
  - intros (l & Hl & Hn). destruct l; try discriminate.
    injection Hn as ->. exact Hl.
  - intros H. exists (LogProcessing name). auto.
Qed.

(** X7.  A run processes the changed documents once each, in the order of
    the folder listing: the names on its [Processing] lines are, in
    order, the candidates for which the filter answered yes.  A run that
    does not get as far as the loop processes nothing. *)
Theorem documents_are_processed_in_folder_order E w r w' :
  ingestAllPdfs E w = (r, w') ->
  let names := processed (logs (newEvents w w')) in
  (names = []
   \/ names = List.filter (changed E (loadedTracker w)) (pdfFiles E))
  /\ (r = Ok tt -> configured E ->
      names = List.filter (changed E (loadedTracker w)) (pdfFiles E)).
Proof.
  intros Hrun names.
  assert (Hcases : names = []
            \/ names = List.filter (changed E (loadedTracker w)) (pdfFiles E)).
  { subst names.
    destruct (ingestAllPdfs_shape E w r w' Hrun) as (evs & Htr & Hshape).
    rewrite (newEvents_app _ _ _ Htr).
    destruct Hshape as [(_ & Hno & _)
                       |(sel & w1 & w2 & evs2 & _ & Hsel & _ & _ & _ & _ & _
                         & Hlogs & _ & _ & outcomes & Hcl & Hacc)].
    - left. destruct (processed (logs evs)) as [|n l] eqn:Hp; [reflexivity|].
      exfalso. apply (Hno n). apply processed_In. rewrite Hp. left; reflexivity.
    - right. rewrite Hlogs, Hacc.
      change (processed (LogIngesting (length sel) :: ?l)) with (processed l).
      rewrite processed_app, (processed_account _ _ Hcl). simpl.
      rewrite app_nil_r. exact Hsel. }
  split; [exact Hcases|]. intros Hok Hconf.
  destruct Hcases as [Hnil|Heq]; [|exact Heq]. rewrite Hnil.
  destruct (RunTheorems.ingestAllPdfs_spec E w r w' Hrun)
    as (sel & evs & Htr & _ & Hproc & _ & Hall).
  subst names. rewrite (newEvents_app _ _ _ Htr) in Hnil.
  destruct (List.filter (changed E (loadedTracker w)) (pdfFiles E))
    as [|n l] eqn:Hf; [reflexivity|].
  exfalso.
  assert (Hin : In n (List.filter (changed E (loadedTracker w)) (pdfFiles E)))
    by (rewrite Hf; left; reflexivity).
  apply filter_In in Hin as [Hin Hch].
  pose proof (Hall Hok Hconf n Hin Hch) as Hn.
  apply Hproc, processed_In in Hn. rewrite Hnil in Hn. exact Hn.
Qed.

Lemma documents_are_processed_in_folder_order_witness :
  let names :=
    processed (logs (newEvents Sample.start
                       (ingestAllPdfs (diskFull 4) Sample.start).2)) in
  (names = []
   \/ names = List.filter (changed (diskFull 4) (loadedTracker Sample.start))
                 (pdfFiles (diskFull 4)))
  /\ ((ingestAllPdfs (diskFull 4) Sample.start).1 = Ok tt ->
      configured (diskFull 4) ->
      names = List.filter (changed (diskFull 4) (loadedTracker Sample.start))
                (pdfFiles (diskFull 4))).
Proof.
  exact (documents_are_processed_in_folder_order (diskFull 4) Sample.start
           _ _ (surjective_pairing _)).
Defined.

End LedgerTheorems.

(* ===================================================================== *)
(** ** The filter over the folder listing *)
(* ===================================================================== *)

Module FilterTheorems.
Import Ingest IngestSpec RunFacts PipelineSpec LedgerFacts.

(** X8.  One file that [statSync] cannot read stops the whole run.  The
    filter over the folder listing (lines 97 to 102) calls [statSync] on
    every listed file outside any [try]: when the call throws for one of
    them, be it a file that would have been skipped, the run throws
    before it has logged anything, no document is processed, not even
    those that need ingestion, and the tracker and its file are left
    alone. *)
Theorem unreadable_file_aborts_the_run E w name msg :
  configured E ->
  In name (pdfFiles E) ->
  statSync E name = Raises msg ->
  (exists e, (ingestAllPdfs E w).1 = Throw e)
  /\ trace (ingestAllPdfs E w).2 = trace w
  /\ disk (ingestAllPdfs E w).2 = disk w.
Proof.
  intros (Hg & Hp & Hi & Hdir) Hin Hst.
  assert (Hkeys : (length (GOOGLE_API_KEY E) =? 0)
                  || (length (PINECONE_API_KEY E) =? 0)
                  || (length (PINECONE_INDEX E) =? 0) = false).
  { destruct (GOOGLE_API_KEY E); [congruence|].
    destruct (PINECONE_API_KEY E); [congruence|].
    destruct (PINECONE_INDEX E); [congruence|reflexivity]. }
  assert (Hlen : (length (pdfFiles E) =? 0) = false).
  { destruct (pdfFiles E); [contradiction|reflexivity]. }
  unfold ingestAllPdfs. rewrite Hkeys, Hdir, Hlen. cbn [negb].
  unfold mbind, M_bind. rewrite RunTheorems.loadTracker_run. simpl.
  set (w0 := {| clock := clock w; tracker := loadedTracker w; disk := disk w;
                current := current w; trace := trace w |}).
  destruct (selectToIngest_spec E (loadedTracker w) (pdfFiles E) w0)
    as (rs & Hsel & Hfuel & _).
  pose proof (selectToIngest_Ok E (loadedTracker w) (pdfFiles E) w0) as Hok.
  rewrite Hsel in *. simpl in Hok.
  destruct rs as [sel|e|]; [| |congruence].
  - exfalso. specialize (Hok sel eq_refl).
    rewrite List.Forall_forall in Hok.
    destruct (Hok name Hin) as [stats Hstats]. congruence.
  - split; [eauto|]. split; reflexivity.
Qed.

Lemma unreadable_file_aborts_the_run_witness :
  (exists e, (ingestAllPdfs locked Sample.start).1 = Throw e)
  /\ trace (ingestAllPdfs locked Sample.start).2 = trace Sample.start
  /\ disk (ingestAllPdfs locked Sample.start).2 = disk Sample.start.
Proof.
  apply (unreadable_file_aborts_the_run locked Sample.start (js "b.pdf")
           (js "EACCES")).
  - repeat split; discriminate.
  - right; left; reflexivity.
  - vm_compute. reflexivity.
Defined.

End FilterTheorems.

(* ===================================================================== *)
(** ** Store writes of a pass, whether it succeeds or not *)
(* ===================================================================== *)

Module BatchFacts.
Import GeminiEmbeddings GeminiSpec GeminiFacts Ingest IngestSpec IngestFacts.
Import PipelineSpec.

#[local] Arguments batchLoop : simpl never.

#[local] Arguments saveTracker : simpl never.

Lemma batchLoop_progress E name chunks at_ fuel i upserted w :
  wp (batchLoop E (newEmbedder E) name chunks at_ fuel i upserted)
     (fun r w' =>
        exists evs,
          quiet w evs w'
          /\ batchesUpTo E name chunks at_ i (upserts evs)) w.
Proof.
  revert i upserted w; induction fuel as [|fuel IH]; intros i upserted w.
  { apply wp_done_with. exists []; split; [apply quiet_refl|constructor]. }
  unfold batchLoop; fold batchLoop. destruct (i <? length chunks) eqn:Hi.
  - apply Nat.ltb_lt in Hi.
    set (batch := take BATCH_SIZE (drop i chunks)).
    apply wp_bind. unfold embedDocuments.
    eapply wp_mono; [apply embedEach_spec|]. simpl.
    intros r w1 (k & Hq1 & Hr1 & _ & Hvs).
    destruct r as [vectors|e|]; simpl; [| |congruence].
    + destruct (Hvs vectors eq_refl) as (-> & new & Hnew & Hall).
      simpl in Hnew; subst new. rewrite firstn_all in Hq1.
      apply wp_bind. eapply wp_mono; [apply upsertRecords_spec|]. simpl.
      intros r w2 (ok & Hq2 & Hok).
      assert (Hb : batchOf E name chunks at_ i
                     (buildRecords name i (length chunks) at_ batch vectors))
        by (apply buildRecords_batchOf; auto).
      destruct ok; [subst r; simpl|destruct Hok as [msg ->]; simpl].
      * eapply wp_mono; [apply IH|]. simpl.
        intros r w3 (evs & Hq3 & Hup).
        eexists; split; [eapply quiet_trans; [eapply quiet_trans|]; eauto|].
        rewrite !upserts_app, fetchEvents_upserts. simpl.
        apply upto_step; auto.
      * eexists; split; [eapply quiet_trans; eauto|].
        rewrite !upserts_app, fetchEvents_upserts. simpl.
        apply upto_rejected; auto.
    + eexists; split; [eauto|].
      rewrite fetchEvents_upserts. constructor.
  - apply wp_ret. exists []; split; [apply quiet_refl|constructor].
Qed.

Lemma ingestBody_writes E name w :
  wp (ingestBody E name)
     (fun r w' =>
        exists evs,
          trace w' = trace w ++ evs
          /\ (upserts evs = []
              \/ exists chunks at_,
                   documentChunks E name = Some chunks
                   /\ batchesUpTo E name chunks at_ 0 (upserts evs))) w.
Proof.
  assert (Hstop : forall (r : Res unit),
             exists evs,
               trace w = trace w ++ evs
               /\ (upserts evs = []
                   \/ exists chunks at_,
                        documentChunks E name = Some chunks
                        /\ batchesUpTo E name chunks at_ 0 (upserts evs))).
  { intros _. exists []. rewrite app_nil_r. auto. }
  unfold ingestBody.
  apply wp_bind, wp_await; simpl;
    [intros buffer Hbuf | intros msg _; apply (Hstop (Ok tt))].
  apply wp_bind, wp_await; simpl;
    [intros stats Hstats | intros msg _; apply (Hstop (Ok tt))].
  apply wp_bind, wp_await; simpl;
    [intros [rawText pages] Htext | intros msg _; apply (Hstop (Ok tt))].
  destruct ((length rawText =? 0) || blank rawText).
  { apply wp_log. eexists; split; [reflexivity|left; reflexivity]. }
  apply wp_bind, wp_await; simpl;
    [intros parts Hparts | intros msg _; apply (Hstop (Ok tt))].
  destruct (length (keepChunks parts) =? 0) eqn:Hzero.
  { apply wp_log. eexists; split; [reflexivity|left; reflexivity]. }
  assert (Hchunks : documentChunks E name = Some (keepChunks parts)).
  { unfold documentChunks; rewrite Hbuf, Htext, Hparts; reflexivity. }
  set (chunks := keepChunks parts) in *.
  apply wp_bind, wp_tick. intros w0 Hq0. simpl.
  apply wp_bind.
  eapply wp_mono; [apply batchLoop_progress|]. simpl.
  intros r w1 (evs & Hq1 & Hup).
  pose proof (quiet_trans _ _ _ _ _ Hq0 Hq1) as Hq; simpl in Hq.
  destruct Hq as [[Hc1 Htr1 Hs1] Htr Hdisk].
  destruct r as [upserted|e|]; simpl;
    try (exists evs; split; [exact Htr1|right; eauto]).
  apply wp_bind. unfold wp at 1; simpl.
  apply wp_bind. unfold wp at 1; simpl.
  apply wp_bind. unfold wp at 1; simpl.
  apply wp_bind.
  eapply wp_mono; [apply saveTracker_spec|]. simpl.
  intros r w2 (ok & [Hc2 Htr2 _] & Ht & Hd). simpl in Htr2.
  destruct ok.
  - destruct Hd as [-> Hd]; simpl. apply wp_log. simpl.
    eexists; split; [rewrite Htr2, Htr1, <- !app_assoc; reflexivity|].
    right. exists chunks, (toISOString E (clock w)).
    split; [exact Hchunks|].
    rewrite upserts_app. simpl. rewrite app_nil_r. exact Hup.
  - destruct Hd as [[msg ->] Hd]; simpl.
    eexists; split; [rewrite Htr2, Htr1, <- !app_assoc; reflexivity|].
    right. exists chunks, (toISOString E (clock w)).
    split; [exact Hchunks|].
    rewrite upserts_app. simpl. rewrite app_nil_r. exact Hup.
Qed.

Lemma batchesUpTo_lookup E name chunks at_ i ups j b ok :
  batchesUpTo E name chunks at_ i ups ->
  ups !! j = Some (b, ok) ->
  i + j * BATCH_SIZE < length chunks
  /\ batchOf E name chunks at_ (i + j * BATCH_SIZE) b
  /\ (ok = false -> S j = length ups).
Proof.
  intros H; revert j; induction H as [i|i b0 Hi Hb|i b0 rest Hi Hb _ IH];
    intros j Hj.
  - discriminate.
  - destruct j as [|j]; [|discriminate]. injection Hj as <- <-.
    rewrite Nat.add_0_r. auto.
  - destruct j as [|j]; simpl in Hj.
    + injection Hj as <- <-. rewrite Nat.add_0_r.
      repeat split; auto. discriminate.
    + destruct (IH j Hj) as (H1 & H2 & H3).
      replace (i + S j * BATCH_SIZE) with (i + BATCH_SIZE + j * BATCH_SIZE)
        by (unfold BATCH_SIZE; lia).
      repeat split; auto. intros Hok. simpl. f_equal. auto.
Qed.

Lemma ingestOne_upserts E name w :
  exists evs,
    upserts (newEvents w (ingestOne E name w).2) = upserts evs
    /\ (upserts evs = []
        \/ exists chunks at_,
             documentChunks E name = Some chunks
             /\ batchesUpTo E name chunks at_ 0 (upserts evs)).
Proof.
  rewrite ingestOne_unfold.
  pose proof (ingestBody_writes E name (enter name w)) as H. unfold wp in H.
  destruct (ingestBody E name (enter name w)) as [r w1]; simpl in H.
  destruct H as (evs & Htr & Hshape). simpl in Htr.
  exists evs. split; [|exact Hshape].
  destruct r as [[]|e|]; simpl.
  - rewrite (newEvents_app _ _
               ((Some name, EvLog (LogProcessing name)) :: evs))
      by (rewrite Htr, <- app_assoc; reflexivity).
    reflexivity.
  - rewrite (newEvents_app _ _
               ((Some name, EvLog (LogProcessing name)) :: evs
                ++ [(current w1, EvLog (LogFailed name e))]))
      by (simpl; rewrite Htr, <- !app_assoc; reflexivity).
    change (upserts ((Some name, EvLog (LogProcessing name)) :: ?l))
      with (upserts l).
    rewrite upserts_app. simpl. apply app_nil_r.
  - rewrite (newEvents_app _ _
               ((Some name, EvLog (LogProcessing name)) :: evs))
      by (rewrite Htr, <- app_assoc; reflexivity).
    reflexivity.
Qed.

End BatchFacts.

Module BatchTheorems.
Import GeminiEmbeddings GeminiSpec GeminiFacts Ingest IngestSpec IngestFacts.
Import PipelineSpec BatchFacts.

(** X4.  Whatever happens during a pass over a document, what it writes to
    the vector store is a run of the document's batches from chunk 0 on,
    without a gap: write number [j] holds the records of the chunks from
    [j * 20], each with its identifier, its metadata and a non-empty
    vector of the provider.  Every write but possibly the last one was
    accepted, and nothing is written after a rejected write.  So the
    batches accepted before a failure stay in the store: there is no
    rollback. *)
Theorem store_writes_are_a_run_of_batches E name w :
  exists chunks at_,
    forall j b ok,
      upserts (newEvents w (ingestOne E name w).2) !! j = Some (b, ok) ->
      documentChunks E name = Some chunks
      /\ j * BATCH_SIZE < length chunks
      /\ batchOf E name chunks at_ (j * BATCH_SIZE) b
      /\ (ok = false ->
          S j = length (upserts (newEvents w (ingestOne E name w).2))).
Proof.
  destruct (ingestOne_upserts E name w) as (evs & -> & Hshape).
  destruct Hshape as [Hnil|(chunks & at_ & Hch & Hup)].
  - exists [], []. intros j b ok Hj. rewrite Hnil in Hj. discriminate.
  - exists chunks, at_. intros j b ok Hj.
    destruct (batchesUpTo_lookup _ _ _ _ _ _ _ _ _ Hup Hj) as (H1 & H2 & H3).
    auto.
Qed.

End BatchTheorems.

Module CostTheorems.
Import GeminiEmbeddings GeminiSpec GeminiFacts Ingest IngestSpec IngestFacts.
Import IngestTheorems PipelineSpec.

Lemma batchesFrom_count E name chunks at_ i ups :
  batchesFrom E name chunks at_ i ups ->
  length ups = (length chunks - i + 19) / 20.
Proof.
  induction 1 as [i Hi|i b rest Hi Hb _ IH].
  - replace (length chunks - i) with 0 by lia. reflexivity.
  - cbn [length]. rewrite IH. unfold BATCH_SIZE.
    destruct (le_lt_dec 20 (length chunks - i)) as [Hbig|Hsmall].
    + replace (length chunks - i + 19)
        with (length chunks - (i + 20) + 19 + 1 * 20) by lia.
      rewrite Nat.div_add by lia. lia.
    + replace (length chunks - (i + 20)) with 0 by lia.
      change ((0 + 19) / 20) with 0.
      apply Nat.div_unique with (r := length chunks - i - 1); lia.
Qed.

(** X5.  What a successful pass over a document costs: one embedding request
    per chunk, one store write per started batch of twenty chunks, and
    one write of the tracker file, which succeeds and holds the tracker
    as the pass leaves it. *)
Theorem ingested_document_costs E name w r w' k pages :
  ingestOne E name w = (r, w') ->
  In (LogIngested name k pages) (logs (newEvents w w')) ->
  length (fetches (newEvents w w')) = k
  /\ length (upserts (newEvents w w')) = (k + 19) / 20
  /\ trackerWrites (newEvents w w') = [(tracker w', true)].
Proof.
  intros Hrun Hin.
  destruct (ingestOne_cases E name w) as (w2 & evs & Hrun2 & Htr & _ & _ & Hout).
  rewrite Hrun in Hrun2; injection Hrun2 as -> <-.
  rewrite (newEvents_app _ _ _ Htr) in *.
  destruct (pass_logs _ _ _ _ _ Hout) as (l & Hlogs & _ & Hsucc).
  simpl in Hin. rewrite Hlogs in Hin.
  destruct Hin as [Hin|[Hin|[]]]; [discriminate|subst l].
  destruct Hsucc as (calls & chunks & stats & pages' & at_ & -> & [= -> ->]
                     & Hp & Hch & Hne & Hst & Hb & Hf & Ht & Hd); eauto.
  change (fetches ((Some name, EvLog (LogProcessing name)) :: ?l))
    with (fetches l).
  change (upserts ((Some name, EvLog (LogProcessing name)) :: ?l))
    with (upserts l).
  change (trackerWrites ((Some name, EvLog (LogProcessing name)) :: ?l))
    with (trackerWrites l).
  rewrite fetches_app, upserts_app, trackerWrites_app, !app_nil_r.
  rewrite (provider_not_write _ Hp). simpl.
  split; [rewrite <- Hf, length_map; reflexivity|]. split; [|reflexivity].
  rewrite (batchesFrom_count _ _ _ _ _ _ Hb), Nat.sub_0_r. reflexivity.
Qed.

Lemma ingested_document_costs_witness :
  let w' := (ingestOne (Sample.env [0.5%float]) (js "a.pdf") Sample.start).2 in
  length (fetches (newEvents Sample.start w')) = 2
  /\ length (upserts (newEvents Sample.start w')) = (2 + 19) / 20
  /\ trackerWrites (newEvents Sample.start w') = [(tracker w', true)].
Proof.
  refine (ingested_document_costs (Sample.env [0.5%float]) (js "a.pdf")
            Sample.start _ _ 2 1 (surjective_pairing _) _).
  vm_compute. auto.
Defined.

End CostTheorems.

(* ===================================================================== *)
(** ** Identifiers are legal *)
(* ===================================================================== *)

Module IdFacts.

Lemma sanitize_safe name : Forall (fun c => idSafe c = true) (sanitize name).
Proof.
  unfold sanitize. apply List.Forall_forall. intros c Hc.
  apply in_map_iff in Hc as (c0 & <- & _).
  destruct (idSafe c0) eqn:H; [exact H|reflexivity].
Qed.

Lemma digits_safe d : Forall (fun c => idSafe c = true) (digits d).
Proof.
  apply List.Forall_forall. intros c Hc.
  apply digits_are_digits in Hc. unfold idSafe.
  replace (48 <=? c)%N with true by (symmetry; apply N.leb_le; lia).
  replace (c <=? 57)%N with true by (symmetry; apply N.leb_le; lia).
  simpl. rewrite !orb_true_r. reflexivity.
Qed.

(** X3.  A vector identifier is made of letters, digits, [-] and [_] only,
    whatever the filename: every other code unit of the name has become
    [_].  Sanitizing keeps the length of the name, changes nothing in a
    name that is already safe, and sanitizing twice is sanitizing
    once. *)
Theorem identifier_has_only_safe_characters name index :
  Forall (fun c => idSafe c = true) (makeId name index)
  /\ length (sanitize name) = length name
  /\ sanitize (sanitize name) = sanitize name
  /\ (Forall (fun c => idSafe c = true) name -> sanitize name = name).
Proof.
  assert (Hid : forall l, Forall (fun c => idSafe c = true) l ->
                          sanitize l = l).
  { induction 1 as [|c l Hc _ IH]; simpl; [reflexivity|].
    rewrite Hc. f_equal. exact IH. }
  split; [|split; [|split]].
  - unfold makeId. rewrite !Forall_app. split; [apply sanitize_safe|].
    split; [|apply digits_safe].
    repeat constructor.
  - apply length_map.
  - apply Hid, sanitize_safe.
  - apply Hid.
Qed.

End IdFacts.

(* ===================================================================== *)
(** ** The status route *)
(* ===================================================================== *)

Module StatusFacts.
Import Ingest IngestSpec PipelineSpec Status.

Lemma getIngestedFiles_run w :
  getIngestedFiles w = (Ok (map_to_list (loadedTracker w)).*2, w).
Proof.
  unfold getIngestedFiles, mbind, M_bind.
  rewrite RunTheorems.loadTracker_run. reflexivity.
Qed.

Lemma remove_dups_NoDup {A} `{EqDecision A} (l : list A) :
  NoDup l -> remove_dups l = l.
Proof.
  induction 1 as [|x l Hx _ IH]; simpl; [reflexivity|].
  destruct (decide_rel elem_of x l); [contradiction|]. rewrite IH.
  reflexivity.
Qed.

Section Entries.
Variable entries : list (jsstring * IngestedFile).
Hypothesis keyed : forall k record, (k, record) ∈ entries -> filename record = k.

Lemma filenames_are_keys : filename <$> entries.*2 = entries.*1.
Proof using keyed.
  induction entries as [|[k record] l IH]; simpl; [reflexivity|].
  rewrite (keyed k record) by left. f_equal.
  apply IH. intros k' r' H. apply keyed. right; exact H.
Qed.

Lemma find_by_filename name record :
  NoDup entries.*1 ->
  find (fun f => bool_decide (filename f = name)) entries.*2 = Some record
  <-> (name, record) ∈ entries.
Proof using keyed.
  induction entries as [|[k r] l IH]; simpl; intros Hnd.
  - split; [discriminate|]. intros H; inversion H.
  - apply NoDup_cons in Hnd as [Hk Hnd].
    assert (Hr : filename r = k) by (apply keyed; left).
    assert (Hl : forall k' r', (k', r') ∈ l -> filename r' = k')
      by (intros k' r' H; apply keyed; right; exact H).
    destruct (decide (filename r = name)) as [Heq|Hne].
    + rewrite (bool_decide_eq_true_2 _ Heq). split.
      * intros [= ->]. rewrite <- Heq, Hr. left.
      * intros H. apply elem_of_cons in H as [[= _ ->]|H]; [reflexivity|].
        exfalso. apply Hk. rewrite <- Hr, Heq.
        apply list_elem_of_fmap. exists (name, record); auto.
    + rewrite (bool_decide_eq_false_2 _ Hne). rewrite (IH Hl Hnd).
      split; [intros H; right; exact H|].
      intros H. apply elem_of_cons in H as [[= -> ->]|H]; [congruence|exact H].
Qed.

End Entries.

(** With a tracker whose entries are stored under their own filename,
    looking a file up among the ingested files is looking its name up in
    the tracker, and the number of ingested names is the number of
    entries. *)
Lemma fileStatus_lookup t name :
  wellKeyed t ->
  fileStatus (map_to_list t).*2 name
  = match t !! name with
    | Some record => Ingested record
    | None => Pending name
    end.
Proof.
  intros Hwf. unfold fileStatus.
  assert (Hk : forall k record,
             (k, record) ∈ map_to_list t -> filename record = k).
  { intros k record H. apply elem_of_map_to_list in H. apply Hwf, H. }
  destruct (find _ _) as [record|] eqn:Hf.
  - apply (find_by_filename (map_to_list t) Hk name record
             (NoDup_fst_map_to_list t)) in Hf.
    apply elem_of_map_to_list in Hf. rewrite Hf. reflexivity.
  - destruct (t !! name) as [record|] eqn:Ht; [|reflexivity].
    apply elem_of_map_to_list in Ht.
    apply (find_by_filename (map_to_list t) Hk name record
             (NoDup_fst_map_to_list t)) in Ht.
    rewrite Hf in Ht. discriminate.
Qed.

Lemma setSize_filenames t :
  wellKeyed t -> setSize (filename <$> ((map_to_list t).*2)) = base.size t.
Proof.
  intros Hwf. unfold setSize.
  rewrite filenames_are_keys.
  - rewrite remove_dups_NoDup by apply NoDup_fst_map_to_list.
    rewrite length_fmap. apply length_map_to_list.
  - intros k record H. apply elem_of_map_to_list in H. apply Hwf, H.
Qed.


End StatusFacts.

Module StatusTheorems.
Import Ingest IngestSpec PipelineSpec Status StatusFacts LedgerFacts.

(** X22.  The status route reports the tracker file.  When the entries of the
    file are stored under their own filename, a file of the folder is
    reported as ingested, with its entry, exactly when the tracker file
    has an entry for its name, and as pending otherwise; [totalOnDisk]
    is the number of files in the folder and [totalIngested] the number
    of entries of the tracker file, whether their files are still in the
    folder or not.  The route changes nothing. *)
Theorem status_reports_the_tracker_file E names w :
  pdfsDirExists E = true ->
  wellKeyed (loadedTracker w) ->
  GET E (Returns names) w
  = (Ok {| st_status := 200;
           st_body :=
             Report (length names) (base.size (loadedTracker w))
               ((fun name =>
                   match loadedTracker w !! name with
                   | Some record => Ingested record
                   | None => Pending name
                   end) <$> names) |},
     w).
Proof.
  intros Hdir Hwf. unfold GET. rewrite Hdir.
  unfold mbind, M_bind. rewrite getIngestedFiles_run. simpl.
  unfold mret, M_ret.
  rewrite (setSize_filenames _ Hwf).
  do 4 f_equal.
  apply list_fmap_ext. intros i name _. apply fileStatus_lookup, Hwf.
Qed.

Lemma status_reports_the_tracker_file_witness :
  GET (Sample.env [0.5%float]) (Returns [js "a.pdf"; js "b.pdf"])
    Sample.restart
  = (Ok {| st_status := 200;
           st_body :=
             Report 2 (base.size (loadedTracker Sample.restart))
               ((fun name =>
                   match loadedTracker Sample.restart !! name with
                   | Some record => Ingested record
                   | None => Pending name
                   end) <$> [js "a.pdf"; js "b.pdf"]) |},
     Sample.restart).
Proof.
  apply (status_reports_the_tracker_file (Sample.env [0.5%float])
           [js "a.pdf"; js "b.pdf"] Sample.restart eq_refl).
  intros name record.
  change (loadedTracker Sample.restart)
    with (<[js "a.pdf" := Sample.entry]> (∅ : TrackerData)).
  intros H. apply lookup_insert_Some in H as [[<- <-]|[_ H]];
    [reflexivity|].
  rewrite lookup_empty in H. discriminate H.
Defined.



End StatusTheorems.

(* ===================================================================== *)
(** ** The chat component and the query handler *)
(* ===================================================================== *)

Module TrimFacts.
Import PipelineSpec.

Lemma trimStart_clean s : startsClean (trimStart s).
Proof.
  induction s as [|c s IH]; simpl; [exact I|].
  destruct (isWhiteSpace c) eqn:Hc; [exact IH|exact Hc].
Qed.

Lemma trimStart_fixed s : startsClean s -> trimStart s = s.
Proof. destruct s as [|c s]; simpl; [reflexivity|intros ->; reflexivity]. Qed.

Lemma trimStart_suffix s : exists p, s = p ++ trimStart s.
Proof.
  induction s as [|c s [p IH]]; simpl; [exists []; reflexivity|].
  destruct (isWhiteSpace c).
  - exists (c :: p). simpl. f_equal. exact IH.
  - exists []. reflexivity.
Qed.

Lemma length_trimStart s : length (trimStart s) <= length s.
Proof.
  destruct (trimStart_suffix s) as [p H].
  rewrite H at 2. rewrite length_app. lia.
Qed.

Lemma length_trim s : length (trim s) <= length s.
Proof.
  unfold trim. rewrite length_rev.
  etransitivity; [apply length_trimStart|].
  rewrite length_rev. apply length_trimStart.
Qed.

Lemma trim_clean s : startsClean (trim s).
Proof.
  unfold trim.
  destruct (trimStart_suffix (rev (trimStart s))) as [p Hp].
  apply (f_equal (@rev N)) in Hp. rewrite rev_involutive, rev_app_distr in Hp.
  pose proof (trimStart_clean s) as Hc. rewrite Hp in Hc.
  destruct (rev (trimStart (rev (trimStart s)))); [exact I|exact Hc].
Qed.

(** Trimming a trimmed string changes nothing. *)
Lemma trim_trim s : trim (trim s) = trim s.
Proof.
  unfold trim at 1. rewrite (trimStart_fixed (trim s)) by apply trim_clean.
  unfold trim. rewrite rev_involutive.
  rewrite (trimStart_fixed (trimStart _)) by apply trimStart_clean.
  reflexivity.
Qed.

End TrimFacts.

Module ChatTheorems.
Import Query PipelineSpec PostFacts TrimFacts RAGChat.

Lemma trimmed_question_accepted q :
  length q <= 2000 -> trim q <> [] -> accepted (trim q).
Proof.
  intros Hlen Hne. unfold accepted, invalidQuestion.
  rewrite trim_trim. split.
  - destruct (trim q); [congruence|reflexivity].
  - pose proof (length_trim q). lia.
Qed.

(** X24.  What the chat component sends is never refused by the handler's
    validation.  For a question of at most 2000 code units (the limit of
    the text area) that is not blank, submitted while no query is
    running, the handler is called with the trimmed question and does
    not answer with status 400; the component shows a success exactly
    when the handler answered with status 200, which always carries an
    answer, and shows the handler's body in any case. *)
Theorem submitted_question_passes_validation E message s w :
  length (question s) <= 2000 ->
  trim (question s) <> [] ->
  queryStatus s <> Loading ->
  exists reply w',
    POST E (Returns (BodyWith (VStr (trim (question s))))) w = (Ok reply, w')
    /\ status reply <> 400
    /\ handleQuery E Delivered message s w
       = (Ok {| question := question s;
                queryStatus :=
                  if decide (status reply = 200) then Success else Failed;
                queryResult := Some (body reply) |}, w')
    /\ (status reply = 200 ->
        exists answer sources n,
          body reply = AnswerBody true answer sources n).
Proof.
  intros Hlen Hne Hidle.
  destruct (POST_run E (Returns (BodyWith (VStr (trim (question s))))) w)
    as (reply & evs & n & Hrun & Hout).
  pose proof (trimmed_question_accepted _ Hlen Hne) as Hacc.
  exists reply; eexists. split; [exact Hrun|].
  unfold handleQuery.
  replace (length (trim (question s)) =? 0) with false
    by (destruct (trim (question s)); [congruence|reflexivity]).
  rewrite (bool_decide_eq_false_2 _ Hidle). simpl.
  unfold try_catch, mbind, M_bind. rewrite Hrun. simpl.
  unfold mret, M_ret.
  destruct (postOutcome_status _ _ _ _ _ _ _ Hout)
    as [(Hst & answer & sources & k & Hbody)
       |[(Hst & _ & Hrej)|(Hst & Hbody)]].
  - split; [lia|]. split; [|eauto].
    unfold ok. rewrite Hst, Hbody. simpl. reflexivity.
  - exfalso. eapply Hrej; [reflexivity|exact Hacc].
  - split; [lia|]. split; [|intros H; lia].
    unfold ok. rewrite Hst. simpl. reflexivity.
Qed.

Lemma submitted_question_passes_validation_witness :
  exists reply w',
    POST QuerySpec.answering
      (Returns (BodyWith (VStr (trim (js "  How many vacation days?  ")))))
      Sample.start = (Ok reply, w')
    /\ status reply <> 400
    /\ handleQuery QuerySpec.answering Delivered (fun _ => js "error")
         {| question := js "  How many vacation days?  ";
            queryStatus := Idle; queryResult := None |} Sample.start
       = (Ok {| question := js "  How many vacation days?  ";
                queryStatus :=
                  if decide (status reply = 200) then Success else Failed;
                queryResult := Some (body reply) |}, w')
    /\ (status reply = 200 ->
        exists answer sources n,
          body reply = AnswerBody true answer sources n).
Proof.
  refine (submitted_question_passes_validation QuerySpec.answering
            (fun _ => js "error")
            {| question := js "  How many vacation days?  ";
               queryStatus := Idle; queryResult := None |}
            Sample.start _ _ _).
  - vm_compute. lia.
  - vm_compute. discriminate.
  - discriminate.
Defined.

(** X25.  The component's handler never throws and never stays in the loading
    state.  A blank question, or a submission while a query is running,
    changes nothing and calls nobody.  Otherwise the component ends with
    a result to show, marked as a success only when the handler's reply
    arrived and carries an answer; when the handler cannot be reached it
    shows the network error and the server has seen nothing. *)
Theorem handleQuery_outcomes E network message s w :
  exists s' w',
    handleQuery E network message s w = (Ok s', w')
    /\ question s' = question s
    /\ (trim (question s) = [] \/ queryStatus s = Loading ->
        s' = s /\ w' = w)
    /\ (trim (question s) <> [] -> queryStatus s <> Loading ->
        (queryStatus s' = Success \/ queryStatus s' = Failed)
        /\ is_Some (queryResult s')
        /\ (network = Unreachable ->
            w' = w /\ queryResult s' = Some networkError)
        /\ (network = ReplyLost -> queryResult s' = Some networkError)
        /\ (queryStatus s' = Success ->
            network = Delivered
            /\ exists answer sources n,
                 queryResult s' = Some (AnswerBody true answer sources n))).
Proof.
  unfold handleQuery.
  destruct (length (trim (question s)) =? 0) eqn:Hblank; simpl.
  { exists s, w. split; [reflexivity|]. split; [reflexivity|].
    split; [auto|]. intros Hne. exfalso.
    destruct (trim (question s)); [congruence|discriminate]. }
  destruct (decide (queryStatus s = Loading)) as [Hl|Hl].
  { rewrite (bool_decide_eq_true_2 _ Hl).
    exists s, w. split; [reflexivity|]. split; [reflexivity|].
    split; [auto|]. intros _ H. congruence. }
  rewrite (bool_decide_eq_false_2 _ Hl).
  assert (Hne : trim (question s) <> [])
    by (intros H0; rewrite H0 in Hblank; discriminate).
  destruct (POST_run E (Returns (BodyWith (VStr (trim (question s))))) w)
    as (reply & evs & n & Hrun & Hout).
  destruct network; unfold try_catch, mbind, M_bind; try rewrite Hrun; simpl;
    (do 2 eexists; split; [reflexivity|]; split; [reflexivity|];
     split; [intros [H|H]; congruence|]; intros _ _).
  - destruct (postOutcome_status _ _ _ _ _ _ _ Hout)
      as [(Hst & answer & sources & k & Hbody)
         |[(Hst & _)|(Hst & _)]];
      unfold ok; rewrite Hst; simpl.
    + rewrite Hbody. simpl.
      split; [left; reflexivity|]. split; [eauto|].
      split; [discriminate|]. split; [discriminate|]. eauto.
    + split; [right; reflexivity|]. split; [eauto|].
      split; [discriminate|]. split; [discriminate|]. discriminate.
    + split; [right; reflexivity|]. split; [eauto|].
      split; [discriminate|]. split; [discriminate|]. discriminate.
  - split; [right; reflexivity|]. split; [eauto|].
    split; [discriminate|]. split; [reflexivity|]. discriminate.
  - split; [right; reflexivity|]. split; [eauto|].
    split; [auto|]. split; [discriminate|]. discriminate.
Qed.

End ChatTheorems.

Module TextTheorems.
Import GeminiEmbeddings Ingest IngestSpec IngestFacts Query.
Import PipelineSpec EventFacts PostFacts TrimFacts.

(** X14.  No blank text is ever sent to the embedding provider.  Every
    embedding request of an ingestion run carries a chunk that is not
    blank; every embedding request of the query handler carries a
    question that is not empty, is already trimmed, and has at most
    2000 code units. *)
Theorem only_nonblank_text_is_embedded E body w :
  Forall (fun q => trim (req_text q) <> [])
         (fetches (newEvents w (ingestAllPdfs E w).2))
  /\ Forall (fun q => req_text q <> []
                      /\ trim (req_text q) = req_text q
                      /\ length (req_text q) <= 2000)
            (fetches (newEvents w (POST E body w).2)).
Proof.
  split.
  - destruct (emitsOnly_ingestAllPdfs
                (fun e => match e with
                          | EvFetch q => trim (req_text q) <> []
                          | _ => True
                          end) E) with (w := w) as (evs & Htr & Hevs);
      try (intros; exact I).
    + intros text Htext. exact Htext.
    + rewrite (newEvents_app _ _ _ Htr). apply emitsOnly_fetches, Hevs.
  - destruct (POST_run E body w) as (reply & evs & n & Hrun & Hout).
    rewrite Hrun. rewrite (newEvents_app _ _ evs) by reflexivity.
    assert (Hq : forall q, accepted q ->
                   trim q <> [] /\ trim (trim q) = trim q
                   /\ length (trim q) <= 2000).
    { intros q [Hv Hl]. split; [|split; [apply trim_trim|exact Hl]].
      unfold invalidQuestion in Hv. apply orb_false_iff in Hv as [_ Hv].
      destruct (trim q); [discriminate|discriminate]. }
    destruct Hout; simpl;
      first [apply Forall_nil_2
            |apply Forall_cons; split; [simpl; apply Hq; assumption|];
             apply Forall_nil_2].
Qed.

End TextTheorems.
